(** * openhdemg.library.muap: spike-triggered averaging, template alignment,
      MU tracking and conduction velocity

    A shallow embedding of [openhdemg/library/muap.py].  Floating-point
    samples are embedded as exact rationals extended with a NaN marker; the
    conversion of the time window into samples, whose outcome depends on
    the rounding of the floats, is evaluated in binary64;
    pandas DataFrames are column-major tables with an explicit row index;
    Python dicts are insertion-ordered association lists; exceptions are
    values of type [exn]. *)

From Stdlib Require Import String.
From Stdlib Require Import ZArith QArith Qround Qabs Lqa List Bool Lia.
From Stdlib Require Import Permutation Sorted.
Import ListNotations.
Open Scope Z_scope.

(** ** Python and NumPy primitives *)

(** Exceptions raised by the modelled code and by the libraries it calls. *)
Inductive exn : Type :=
| ValueError (msg : string)
| TypeError (msg : string)
| IndexError (msg : string)
| KeyError (msg : string)
| UnboundLocalError (msg : string)
| ZeroDivisionError
| OverflowError (msg : string)
| NotModelled (msg : string).

Definition result (A : Type) : Type := (exn + A)%type.

Definition ok {A} (a : A) : result A := inr a.
Definition raise {A} (e : exn) : result A := inl e.

Definition rbind {A B} (m : result A) (k : A -> result B) : result B :=
  match m with
  | inl e => inl e
  | inr a => k a
  end.

Declare Scope result_scope.
Delimit Scope result_scope with result.
Notation "x <- m ;; k" := (rbind m (fun x => k))
  (at level 61, m at next level, right associativity) : result_scope.
Notation "' pat <- m ;; k" := (rbind m (fun x => match x with pat => k end))
  (at level 61, pat pattern, m at next level, right associativity) : result_scope.

(** [for x in xs: body] where the body may raise. *)
Fixpoint mapM {A B} (f : A -> result B) (xs : list A) : result (list B) :=
  match xs with
  | [] => ok []
  | x :: xs' =>
      (y <- f x ;; ys <- mapM f xs' ;; ok (y :: ys))%result
  end.

(** Python's built-in [round] on a float: round half to even. *)
Definition py_round (x : Q) : Z :=
  let f := Qfloor x in
  match (x - inject_Z f ?= 1 # 2)%Q with
  | Lt => f
  | Gt => f + 1
  | Eq => if Z.even f then f else f + 1
  end.

(** Normalisation of a slice bound against a sequence of length [n]:
    negative bounds count from the end, everything is clipped to [0, n]. *)
Definition py_slice_bound (n i : Z) : Z :=
  if i <? 0 then Z.max 0 (i + n) else Z.min i n.

(** [l[start:stop]] *)
Definition py_slice {A} (l : list A) (start stop : Z) : list A :=
  let n := Z.of_nat (length l) in
  let s := py_slice_bound n start in
  let e := py_slice_bound n stop in
  firstn (Z.to_nat (e - s)) (skipn (Z.to_nat s) l).

(** [enumerate(l)] *)
Definition enumerate {A} (l : list A) : list (nat * A) :=
  combine (seq 0 (length l)) l.

(** A float sample: a finite value or NaN. *)
Inductive sample : Type :=
| Val (q : Q)
| NaN.

Definition isnan (s : sample) : bool :=
  match s with NaN => true | Val _ => false end.

Definition sample_add (a b : sample) : sample :=
  match a, b with
  | Val x, Val y => Val (Qred (x + y))
  | _, _ => NaN
  end.

Definition sample_sub (a b : sample) : sample :=
  match a, b with
  | Val x, Val y => Val (Qred (x - y))
  | _, _ => NaN
  end.

Definition sample_scale (k : Q) (a : sample) : sample :=
  match a with
  | Val x => Val (Qred (k * x))
  | NaN => NaN
  end.

Definition sample_div_nat (a : sample) (n : nat) : sample :=
  match a with
  | Val x => Val (Qred (x / inject_Z (Z.of_nat n)))
  | NaN => NaN
  end.

(** [a >= b] on floats: false as soon as one side is NaN. *)
Definition sample_geb (a b : sample) : bool :=
  match a, b with
  | Val x, Val y => Qle_bool y x
  | _, _ => false
  end.

(** ** Floats

    A Python float is an IEEE 754 binary64 number.  A finite float is
    embedded as the rational it denotes; every arithmetic operation on
    floats returns the exact result rounded to the nearest float, ties to
    the even significand. *)

(** [x * 2^k] *)
Definition Qscale (x : Q) (k : Z) : Q :=
  if 0 <=? k then (x * inject_Z (2 ^ k))%Q
  else (x / inject_Z (2 ^ (- k)))%Q.

(** [floor(log2 x)] for a positive rational. *)
Definition Qlog2 (x : Q) : Z :=
  let e := Z.log2 (Qnum x) - Z.log2 (Zpos (Qden x)) in
  if Qle_bool 1 (Qscale x (- e)) then e else e - 1.

(** The grid of the floats around [x]: the power of two that one unit of
    the significand is worth. *)
Definition ulp_exponent (x : Q) : Z := Z.max (Qlog2 (Qabs x) - 52) (-1074).

(** The binary64 nearest to [x]: 53 significant bits, nothing finer than
    [2^-1074].  A result of magnitude [2^1024] or more stands for an
    infinity. *)
Definition binary64 (x : Q) : Q :=
  if Qeq_bool x 0 then 0%Q
  else
    let a := Qabs x in
    let q := ulp_exponent x in
    let m := py_round (Qscale a (- q)) in
    let r := Qred (Qscale (inject_Z m) q) in
    if Qle_bool 0 x then r else Qred (- r).

Definition is_inf (x : Q) : bool :=
  Qle_bool (inject_Z (2 ^ 1024)) (Qabs x).

(** ** Window conversion shared by [sta] and [st_muap] *)

Module Window.

(** [(timewindow / 1000) * emgfile["FSAMP"]], evaluated in floats: the
    quotient is rounded, then the product.  [timewindow] and [fsamp] are
    the values of the two Python numbers, an int or a float for
    [timewindow], a float for the sampling rate. *)
Definition product (timewindow fsamp : Q) : Q :=
  binary64 (binary64 (timewindow / 1000) * fsamp).

(** The conversion leaves the range of the floats: the division of an int
    too large for a float raises, and so does [round] of an infinite
    product. *)
Definition overflow (timewindow fsamp : Q) : option string :=
  if is_inf (binary64 (timewindow / 1000))
  then Some "integer division result too large for a float"%string
  else if is_inf (product timewindow fsamp)
  then Some "cannot convert float infinity to integer"%string
  else None.

(** [timewindow_samples = round((timewindow / 1000) * emgfile["FSAMP"])] *)
Definition timewindow_samples (timewindow fsamp : Q) : Z :=
  py_round (product timewindow fsamp).

(** [halftime = round(timewindow_samples / 2)]; half of an int that came
    from a float is a float, the division is exact. *)
Definition halftime (timewindow fsamp : Q) : Z :=
  py_round (inject_Z (timewindow_samples timewindow fsamp) / 2)%Q.

(** [tottime = halftime * 2] *)
Definition tottime (timewindow fsamp : Q) : Z :=
  halftime timewindow fsamp * 2.

(** The one-step conversion written in the specification:
    [round(window_ms/1000 * fsamp / 2)]. *)
Definition spec_halfwindow (window_ms fsamp : Q) : Z :=
  py_round (window_ms / 1000 * fsamp / 2)%Q.

End Window.

(** ** Dicts and DataFrames *)

(** A Python dict: an association list in insertion order.  Assigning to
    an existing key keeps its position and replaces its value. *)
Definition dict (K V : Type) : Type := list (K * V).

Fixpoint dict_set {K V} (eqb : K -> K -> bool) (d : dict K V) (k : K) (v : V)
  : dict K V :=
  match d with
  | [] => [(k, v)]
  | (k', v') :: d' =>
      if eqb k' k then (k', v) :: d' else (k', v') :: dict_set eqb d' k v
  end.

Definition dict_keys {K V} (d : dict K V) : list K := map fst d.
Definition dict_values {K V} (d : dict K V) : list V := map snd d.

(** The suffix [pd.merge] appends to a column label present on both sides. *)
Inductive merge_suffix : Type := SuffixX | SuffixY.

(** Column labels of a DataFrame: the integer channel number, or such a
    label renamed by [pd.merge] (the string ["<label>_x"] or ["<label>_y"]). *)
Inductive label : Type :=
| Chan (z : Z)
| Suffixed (l : label) (s : merge_suffix).

Definition merge_suffix_eqb (a b : merge_suffix) : bool :=
  match a, b with
  | SuffixX, SuffixX | SuffixY, SuffixY => true
  | _, _ => false
  end.

Fixpoint label_eqb (a b : label) : bool :=
  match a, b with
  | Chan x, Chan y => x =? y
  | Suffixed a' s, Suffixed b' t => label_eqb a' b' && merge_suffix_eqb s t
  | _, _ => false
  end.

(** A pandas DataFrame, column-major: the row index and, per column, its
    label and its values.  In pandas every column has as many values as
    the index has entries ([frame_wf]). *)
Record frame : Type := mkFrame {
  index : list Z;
  columns : list (label * list sample)
}.

Definition frame_wf (f : frame) : Prop :=
  Forall (fun c => length (snd c) = length (index f)) (columns f).

Definition column_labels (f : frame) : list label := map fst (columns f).

(** [range(n)] as a list of integers; also the [RangeIndex] of a frame. *)
Definition range (n : nat) : list Z := map Z.of_nat (seq 0 n).

(** [len(df.index)] *)
Definition nrows (f : frame) : nat := length (index f).

(** The value [np.mean(values, axis=0)] returns: a 1-D array, or the scalar
    NaN when [values] is empty. *)
Inductive mean_result : Type :=
| MeanScalar (s : sample)
| MeanArray (a : list sample).

Fixpoint zip_add (a b : list sample) : list sample :=
  match a, b with
  | x :: a', y :: b' => sample_add x y :: zip_add a' b'
  | _, _ => []
  end.

(** [np.mean(vs, axis=0)] for a list of 1-D arrays. *)
Definition np_mean_axis0 (vs : list (list sample)) : result mean_result :=
  match vs with
  | [] => ok (MeanScalar NaN)
  | v :: rest =>
      if forallb (fun w => Nat.eqb (length w) (length v)) rest
      then ok (MeanArray (map (fun s => sample_div_nat s (length vs))
                              (fold_left zip_add rest v)))
      else raise (ValueError "inhomogeneous shape")
  end.

Definition mean_lengths (d : dict label mean_result) : list nat :=
  flat_map (fun kv => match snd kv with
                      | MeanArray a => [length a]
                      | MeanScalar _ => []
                      end) d.

Definition broadcast (n : nat) (m : mean_result) : list sample :=
  match m with
  | MeanArray a => a
  | MeanScalar s => repeat s n
  end.

(** [pd.DataFrame(d)] for a dict of 1-D arrays and scalars: an empty dict
    gives the empty frame, scalars alone are refused, arrays must agree in
    length and scalars are broadcast to it; the index is [RangeIndex]. *)
Definition DataFrame_of_dict (d : dict label mean_result) : result frame :=
  match d with
  | [] => ok (mkFrame [] [])
  | _ :: _ =>
      match mean_lengths d with
      | [] => raise (ValueError
                "If using all scalar values, you must pass an index")
      | n :: ns =>
          if forallb (Nat.eqb n) ns
          then ok (mkFrame (range n)
                           (map (fun kv => (fst kv, broadcast n (snd kv))) d))
          else raise (ValueError "All arrays must be of the same length")
      end
  end.

(** [np.full((n,), v)]: a negative dimension is refused. *)
Definition np_full (n : Z) (v : sample) : result (list sample) :=
  if n <? 0 then raise (ValueError "negative dimensions are not allowed")
  else ok (repeat v (Z.to_nat n)).

(** Shape predicates: a mean that, being an array, spans [t] samples; a
    frame whose columns all span [t] samples. *)
Definition mean_spans (t : Z) (m : mean_result) : Prop :=
  match m with
  | MeanArray a => Z.of_nat (length a) = t
  | MeanScalar _ => True
  end.

Definition frame_spans (t : Z) (fr : frame) : Prop :=
  Forall (fun c => Z.of_nat (length (snd c)) = t) (columns fr).

(** The frames of a template share the index [idx] and are rectangular. *)
Definition aligned_frames (idx : list Z) (dfs : list frame) : Prop :=
  Forall (fun fr => index fr = idx /\ frame_wf fr) dfs.

(** All channel labels of a template, matrix column after matrix column. *)
Definition all_labels (dfs : list frame) : list label :=
  concat (map column_labels dfs).

(** ** The emgfile *)

Record emgfile : Type := mkEmgfile {
  FSAMP : Q;
  IED : Q;
  NUMBER_OF_MUS : nat;
  MUPULSES : list (list Z);
  RAW_SIGNAL : frame
}.

(** A sorted grid, as returned by [sort_rawemg]: matrix column -> frame. *)
Definition grid : Type := dict string frame.

(** The STA of one MU (matrix column -> frame) and of all MUs. *)
Definition sta_mu_dict : Type := dict string frame.
Definition sta_dict : Type := dict nat sta_mu_dict.

(** The [firings] argument: ["all"] or a two-element list. *)
Inductive firings_arg : Type :=
| FiringsAll
| FiringsRange (lo hi : Z).

(** [emgfile["MUPULSES"][mu]] *)
Definition mupulses_of (e : emgfile) (mu : nat) : result (list Z) :=
  match nth_error (MUPULSES e) mu with
  | Some p => ok p
  | None => raise (IndexError "list index out of range")
  end.

(** ** sta *)

Module Sta.

(** The firing loop of one channel: every pulse contributes
    [emg_array[pulse - halftime: pulse + halftime]], kept only when it has
    [tottime] samples. *)
Definition complete_windows (emg_array : list sample) (thismups : list Z)
  (halftime tottime : Z) : list (list sample) :=
  filter (fun ls => Z.of_nat (length ls) =? tottime)
         (map (fun pulse => py_slice emg_array (pulse - halftime) (pulse + halftime))
              thismups).

(** The list [sta_values] built for one channel. *)
Definition sta_values (emg_array : list sample) (thismups : list Z)
  (halftime tottime : Z) : result (list (list sample)) :=
  if (0 <? length thismups)%nat
  then ok (complete_windows emg_array thismups halftime tottime)
  else if forallb isnan emg_array
       then (a <- np_full tottime NaN ;; ok [a])%result
       else (a <- np_full tottime (Val 0) ;; ok [a])%result.

(** [row_dict[row] = np.mean(sta_values, axis=0)] for every channel of a
    matrix column, then [pd.DataFrame(row_dict)]. *)
Fixpoint row_loop (cols : list (label * list sample)) (thismups : list Z)
  (halftime tottime : Z) (row_dict : dict label mean_result)
  : result (dict label mean_result) :=
  match cols with
  | [] => ok row_dict
  | (row, emg_array) :: cols' =>
      (vs <- sta_values emg_array thismups halftime tottime ;;
       m <- np_mean_axis0 vs ;;
       row_loop cols' thismups halftime tottime
                (dict_set label_eqb row_dict row m))%result
  end.

Definition sta_column (df : frame) (thismups : list Z) (halftime tottime : Z)
  : result frame :=
  (row_dict <- row_loop (columns df) thismups halftime tottime [] ;;
   DataFrame_of_dict row_dict)%result.

Fixpoint col_loop (g : grid) (thismups : list Z) (halftime tottime : Z)
  (acc : sta_mu_dict) : result sta_mu_dict :=
  match g with
  | [] => ok acc
  | (col, df) :: g' =>
      (fr <- sta_column df thismups halftime tottime ;;
       col_loop g' thismups halftime tottime (dict_set String.eqb acc col fr))%result
  end.

Definition sta_one_mu (e : emgfile) (sorted_rawemg : grid)
  (firings : firings_arg) (halftime tottime : Z) (mu : nat)
  : result (nat * sta_mu_dict) :=
  (pulses <- mupulses_of e mu ;;
   let tot_firings := Z.of_nat (length pulses) in
   let '(lo, hi) := match firings with
                    | FiringsAll => (0, tot_firings)
                    | FiringsRange lo hi => (lo, hi)
                    end in
   let thismups := py_slice pulses lo hi in
   sorted_rawemg_sta <- col_loop sorted_rawemg thismups halftime tottime [] ;;
   ok (mu, sorted_rawemg_sta))%result.

Definition sta (e : emgfile) (sorted_rawemg : grid) (firings : firings_arg)
  (timewindow : Q) : result sta_dict :=
  match Window.overflow timewindow (FSAMP e) with
  | Some msg => raise (OverflowError msg)
  | None =>
      let halftime := Window.halftime timewindow (FSAMP e) in
      let tottime := Window.tottime timewindow (FSAMP e) in
      mapM (sta_one_mu e sorted_rawemg firings halftime tottime)
           (seq 0 (NUMBER_OF_MUS e))
  end.

End Sta.

(** ** st_muap *)

Module StMuap.

(** The dict [crow_muaps] of one channel: firing position -> window. *)
Definition crow_muaps (emg_array : list sample) (thismups : list Z)
  (halftime tottime : Z) : result (dict label mean_result) :=
  if (0 <? length thismups)%nat
  then ok (flat_map
             (fun pp =>
                let muap := py_slice emg_array (snd pp - halftime)
                                     (snd pp + halftime) in
                if Z.of_nat (length muap) =? tottime
                then [(Chan (Z.of_nat (fst pp)), MeanArray muap)]
                else [])
             (enumerate thismups))
  else if forallb isnan emg_array
       then (a <- np_full tottime NaN ;; ok [(Chan 0, MeanArray a)])%result
       else (a <- np_full tottime (Val 0) ;; ok [(Chan 0, MeanArray a)])%result.

Fixpoint row_loop (cols : list (label * list sample)) (thismups : list Z)
  (halftime tottime : Z) (acc : dict label frame) : result (dict label frame) :=
  match cols with
  | [] => ok acc
  | (row, emg_array) :: cols' =>
      (d <- crow_muaps emg_array thismups halftime tottime ;;
       fr <- DataFrame_of_dict d ;;
       row_loop cols' thismups halftime tottime (dict_set label_eqb acc row fr))%result
  end.

Fixpoint col_loop (g : grid) (thismups : list Z) (halftime tottime : Z)
  (acc : dict string (dict label frame)) : result (dict string (dict label frame)) :=
  match g with
  | [] => ok acc
  | (col, df) :: g' =>
      (rows <- row_loop (columns df) thismups halftime tottime [] ;;
       col_loop g' thismups halftime tottime (dict_set String.eqb acc col rows))%result
  end.

Definition st_muap (e : emgfile) (sorted_rawemg : grid) (timewindow : Q)
  : result (dict nat (dict string (dict label frame))) :=
  match Window.overflow timewindow (FSAMP e) with
  | Some msg => raise (OverflowError msg)
  | None =>
      let halftime := Window.halftime timewindow (FSAMP e) in
      let tottime := Window.tottime timewindow (FSAMP e) in
      mapM (fun mu =>
              (thismups <- mupulses_of e mu ;;
               cols <- col_loop sorted_rawemg thismups halftime tottime [] ;;
               ok (mu, cols))%result)
           (seq 0 (NUMBER_OF_MUS e))
  end.

End StMuap.

(** ** unpack_sta and pack_sta *)

Fixpoint dict_get {V} (d : dict string V) (k : string) : result V :=
  match d with
  | [] => raise (KeyError k)
  | (k', v) :: d' => if String.eqb k' k then ok v else dict_get d' k
  end.

(** Row positions [(i, j)] of the inner join of two row indexes: every
    left row, in order, paired with the right rows carrying its label. *)
Definition join_positions (li ri : list Z) : list (nat * nat) :=
  flat_map (fun ip =>
              map (fun jq => (fst ip, fst jq))
                  (filter (fun jq => snd jq =? snd ip) (enumerate ri)))
           (enumerate li).

(** The rows of a column at the given positions. *)
Definition take_rows (ps : list nat) (col : list sample) : list sample :=
  map (fun p => nth p col NaN) ps.

Definition mem_label (l : label) (ls : list label) : bool :=
  existsb (label_eqb l) ls.

(** A label present on both sides of a merge receives the side's suffix. *)
Definition merge_rename (other : list label) (s : merge_suffix) (l : label)
  : label :=
  if mem_label l other then Suffixed l s else l.

(** [pd.merge(left, right, left_index=True, right_index=True)]: inner join
    on the row index. *)
Definition pd_merge (left right : frame) : frame :=
  let ps := join_positions (index left) (index right) in
  mkFrame
    (map (fun p => nth (fst p) (index left) 0) ps)
    (map (fun c => (merge_rename (column_labels right) SuffixX (fst c),
                    take_rows (map fst ps) (snd c)))
         (columns left)
     ++
     map (fun c => (merge_rename (column_labels left) SuffixY (fst c),
                    take_rows (map snd ps) (snd c)))
         (columns right)).

(** [reduce(f, xs)] without an initial value. *)
Definition reduce {A} (f : A -> A -> A) (xs : list A) : result A :=
  match xs with
  | [] => raise (TypeError "reduce() of empty iterable with no initial value")
  | x :: xs' => ok (fold_left f xs' x)
  end.

Definition unpack_sta (sta_mu : sta_mu_dict) : result (frame * list string) :=
  let keys := dict_keys sta_mu in
  (dfs <- mapM (dict_get sta_mu) keys ;;
   df1 <- reduce pd_merge dfs ;;
   ok (df1, keys))%result.

(** [df.iloc[:, a:b]] *)
Definition iloc_cols (df : frame) (a b : Z) : frame :=
  mkFrame (index df) (py_slice (columns df) a b).

(** [int(np.ceil(len(df_sta.columns) / len(keys)))] *)
Definition pack_slice (ncols nkeys : nat) : result Z :=
  match nkeys with
  | O => raise ZeroDivisionError
  | S _ => ok (Qceiling (inject_Z (Z.of_nat ncols) / inject_Z (Z.of_nat nkeys)))
  end.

Definition pack_sta (df_sta : frame) (keys : list string) : result sta_mu_dict :=
  (slice <- pack_slice (length (columns df_sta)) (length keys) ;;
   ok (fold_left
         (fun packed pk =>
            let p := Z.of_nat (fst pk) in
            dict_set String.eqb packed (snd pk)
                     (iloc_cols df_sta (slice * p) (slice * (p + 1))))
         (enumerate keys) []))%result.

(** ** pandas and SciPy operations used by align_by_xcorr *)

Inductive xcorr_mode : Type := ModeSame | ModeFull.

(** [df.dropna(axis=1)]: drop every column holding a NaN. *)
Definition dropna_cols (df : frame) : frame :=
  mkFrame (index df)
          (filter (fun c => negb (existsb isnan (snd c))) (columns df)).

(** [np.arange(a, b)] *)
Definition arange (a b : Z) : list Z :=
  map (fun k => a + Z.of_nat k) (seq 0 (Z.to_nat (b - a))).

(** [scipy.signal.correlation_lags(in1_len, in2_len, mode="same")] *)
Definition correlation_lags_same (in1_len in2_len : nat) : list Z :=
  let lags := arange (- Z.of_nat in2_len + 1) (Z.of_nat in1_len) in
  let mid := Z.of_nat (length lags) / 2 in
  let lag_bound := Z.of_nat in1_len / 2 in
  if Z.even (Z.of_nat in1_len)
  then py_slice lags (mid - lag_bound) (mid + lag_bound)
  else py_slice lags (mid - lag_bound) (mid + lag_bound + 1).

(** [df.set_index(labels)] *)
Definition set_index (df : frame) (labels : list Z) : result frame :=
  if Nat.eqb (length labels) (nrows df)
  then ok (mkFrame labels (columns df))
  else raise (ValueError "Length mismatch").

(** Index label of the first maximum of a column, NaN skipped. *)
Fixpoint argmax_from (best : option (Z * Q)) (rows : list (Z * sample))
  : option Z :=
  match rows with
  | [] => option_map fst best
  | (_, NaN) :: rows' => argmax_from best rows'
  | (i, Val v) :: rows' =>
      match best with
      | None => argmax_from (Some (i, v)) rows'
      | Some (_, b) =>
          if Qle_bool v b then argmax_from best rows'
          else argmax_from (Some (i, v)) rows'
      end
  end.

(** [df.idxmax()]: one label per column ([None] for an all-NaN column);
    refused on a frame with columns but no rows. *)
Definition idxmax (df : frame) : result (list (option Z)) :=
  match index df, columns df with
  | [], _ :: _ => raise (ValueError "attempt to get argmax of an empty sequence")
  | _, _ => ok (map (fun c => argmax_from None (combine (index df) (snd c)))
                    (columns df))
  end.

Fixpoint insert_sorted (x : Z) (l : list Z) : list Z :=
  match l with
  | [] => [x]
  | y :: l' => if x <=? y then x :: l else y :: insert_sorted x l'
  end.

Definition sort_Z (l : list Z) : list Z := fold_right insert_sorted [] l.

(** [Series.median()] of integer labels, NaN skipped; [None] is NaN. *)
Definition median (xs : list (option Z)) : option Q :=
  let vs := sort_Z (flat_map (fun o => match o with Some z => [z] | None => [] end) xs) in
  let n := length vs in
  match n with
  | O => None
  | S _ =>
      if Nat.even n
      then Some (Qred ((inject_Z (nth (n / 2 - 1) vs 0) + inject_Z (nth (n / 2) vs 0)) / 2))
      else Some (inject_Z (nth (n / 2) vs 0))
  end.

(** [index.min()] and [index.max()] *)
Definition index_min (df : frame) : result Z :=
  match index df with
  | [] => raise (NotModelled "min of an empty index")
  | i :: rest => ok (fold_left Z.min rest i)
  end.

Definition index_max (df : frame) : result Z :=
  match index df with
  | [] => raise (NotModelled "max of an empty index")
  | i :: rest => ok (fold_left Z.max rest i)
  end.

(** The rows of a frame at the given positions. *)
Definition select_rows (df : frame) (ps : list nat) : frame :=
  mkFrame (map (fun p => nth p (index df) 0) ps)
          (map (fun c => (fst c, take_rows ps (snd c))) (columns df)).

(** [df.loc[start:stop, :]] on an increasing integer index: the rows whose
    label lies in the closed interval. *)
Definition loc_rows (df : frame) (start stop : Q) : frame :=
  select_rows df
    (map fst
         (filter (fun ip => Qle_bool start (inject_Z (snd ip))
                            && Qle_bool (inject_Z (snd ip)) stop)
                 (enumerate (index df)))).

(** [df.iloc[a:b, :]] *)
Definition iloc_rows (df : frame) (a b : Z) : frame :=
  mkFrame (py_slice (index df) a b)
          (map (fun c => (fst c, py_slice (snd c) a b)) (columns df)).

(** [df.reset_index(drop=True)] *)
Definition reset_index (df : frame) : frame :=
  mkFrame (range (nrows df)) (columns df).

(** [a > b] and [a < b] on floats *)
Definition Qgtb (a b : Q) : bool := negb (Qle_bool a b).
Definition Qltb (a b : Q) : bool := negb (Qle_bool b a).

(** A run of consecutive integers starting at [lo]. *)
Definition run_from (lo : Z) (n : nat) : list Z :=
  map (fun k => lo + Z.of_nat k) (seq 0 n).

(** Every frame of a template carries the index [0 .. k-1]. *)
Definition indexed_from_zero (k : nat) (sta_mu : sta_mu_dict) : Prop :=
  Forall (fun kv => index (snd kv) = range k) sta_mu.

(** ** align_by_xcorr *)

Section Align.

(** [openhdemg.library.mathtools.norm_twod_xcorr]: the normalised 2-D
    cross-correlation table and its maximum.  The function lives outside
    the translated module and is taken as a parameter. *)
Variable norm_twod_xcorr :
  frame -> frame -> xcorr_mode -> result (frame * sample).

(** Everything [align_by_xcorr] knows once the lag has been chosen. *)
Record alignment : Type := mkAlignment {
  al_df1 : frame;
  al_df2 : frame;
  al_keys : list string;
  al_corr_lags : list Z;
  al_normxcorr : frame;
  al_finalduration_samples : Z;
  al_lag : Q
}.

(** The first half of [align_by_xcorr], up to and including the bound on
    the lag. *)
Definition align_lag (sta_mu1 sta_mu2 : sta_mu_dict) (finalduration : Q)
  : result alignment :=
  ('(df1, d_keys) <- unpack_sta sta_mu1 ;;
   let no_nan_sta1 := dropna_cols df1 in
   '(df2, d_keys) <- unpack_sta sta_mu2 ;;
   let no_nan_sta2 := dropna_cols df2 in
   '(normxcorr_df, _) <- norm_twod_xcorr no_nan_sta1 no_nan_sta2 ModeSame ;;
   let corr_lags :=
     correlation_lags_same (nrows no_nan_sta1) (nrows no_nan_sta2) in
   normxcorr_df <- set_index normxcorr_df corr_lags ;;
   maxima <- idxmax normxcorr_df ;;
   match median maxima with
   | None => raise (NotModelled "NaN lag")
   | Some lag =>
       let finalduration_samples :=
         py_round (inject_Z (Z.of_nat (nrows df1)) * finalduration) in
       let lag :=
         if Qgtb lag (inject_Z finalduration_samples / 2)
         then (inject_Z finalduration_samples / 2)%Q
         else lag in
       ok (mkAlignment df1 df2 d_keys corr_lags normxcorr_df
                       finalduration_samples lag)
   end)%result.

(** The second half: shift, trim, reindex and repack. *)
Definition align_cut (a : alignment) : result (sta_mu_dict * sta_mu_dict) :=
  let lag := al_lag a in
  let finalduration_samples := al_finalduration_samples a in
  (dfmin <- index_min (al_normxcorr a) ;;
   dfmax <- index_max (al_normxcorr a) ;;
   let start1 := if Qgtb lag 0 then (inject_Z dfmin + Qabs lag)%Q
                 else inject_Z dfmin in
   let stop1 := if Qgtb lag 0 then inject_Z dfmax
                else (inject_Z dfmax - Qabs lag)%Q in
   let start2 := if Qltb lag 0 then (inject_Z dfmin + Qabs lag)%Q
                 else inject_Z dfmin in
   let stop2 := if Qltb lag 0 then inject_Z dfmax
                else (inject_Z dfmax - Qabs lag)%Q in
   df1i <- set_index (al_df1 a) (al_corr_lags a) ;;
   let df1cut := loc_rows df1i start1 stop1 in
   df2i <- set_index (al_df2 a) (al_corr_lags a) ;;
   let df2cut := loc_rows df2i start2 stop2 in
   let tocutstart :=
     py_round ((inject_Z (Z.of_nat (nrows df1cut))
                - inject_Z finalduration_samples) / 2) in
   let tocutend :=
     py_round (inject_Z (Z.of_nat (nrows df1cut) - tocutstart)) in
   let df1cut := iloc_rows df1cut tocutstart tocutend in
   let df2cut := iloc_rows df2cut tocutstart tocutend in
   let df1cut := reset_index df1cut in
   let df2cut := reset_index df2cut in
   aligned_sta1 <- pack_sta df1cut (al_keys a) ;;
   aligned_sta2 <- pack_sta df2cut (al_keys a) ;;
   ok (aligned_sta1, aligned_sta2))%result.

Definition align_by_xcorr (sta_mu1 sta_mu2 : sta_mu_dict) (finalduration : Q)
  : result (sta_mu_dict * sta_mu_dict) :=
  (a <- align_lag sta_mu1 sta_mu2 finalduration ;; align_cut a)%result.

(** The lag [align_by_xcorr] shifts by. *)
Definition chosen_lag (sta_mu1 sta_mu2 : sta_mu_dict) (finalduration : Q)
  : result Q :=
  (a <- align_lag sta_mu1 sta_mu2 finalduration ;; ok (al_lag a))%result.

End Align.

(** ** A model of norm_twod_xcorr *)

Module XcorrModel.

(** Entry [t, u] of a table, zero outside of it (zero padding). *)
Definition entry (f : frame) (t u : Z) : Q :=
  if (t <? 0) || (u <? 0) then 0%Q
  else match nth_error (columns f) (Z.to_nat u) with
       | Some c => match nth_error (snd c) (Z.to_nat t) with
                   | Some (Val q) => q
                   | _ => 0%Q
                   end
       | None => 0%Q
       end.

Definition Qsum (l : list Q) : Q := fold_right Qplus 0%Q l.

Definition ncols (f : frame) : nat := length (columns f).

(** The sliding product of [a] against [b] at row lag [i], column lag [j]:
    the sum over [t, u] of [a[t + i, u + j] * b[t, u]]. *)
Definition corr_at (a b : frame) (i j : Z) : Q :=
  Qred (Qsum (flat_map
                (fun t => map (fun u => (entry a (t + i) (u + j) * entry b t u)%Q)
                              (range (ncols b)))
                (range (nrows b)))).

(** Sum of squares of a table. *)
Definition energy (a : frame) : Q :=
  Qred (Qsum (flat_map
                (fun t => map (fun u => (entry a t u * entry a t u)%Q)
                              (range (ncols a)))
                (range (nrows a)))).

(** Square root of a rational whose reduced numerator and denominator are
    perfect squares; [None] otherwise. *)
Definition Qsqrt_exact (q : Q) : option Q :=
  let r := Qred q in
  let s := (Z.sqrt (Qnum r) # Pos.sqrt (Qden r))%Q in
  if Qeq_bool (s * s) r then Some s else None.

(** Row and column lags covered by the output, per mode.  Mode "full"
    runs over every overlap; mode "same" has the shape of the first input
    and, as [scipy.signal.correlate2d] centres it, starts at the lag
    [-((n2 - 1) // 2)] for a second input of [n2] rows (columns). *)
Definition row_lags (a b : frame) (mode : xcorr_mode) : list Z :=
  match mode with
  | ModeFull => arange (- Z.of_nat (nrows b) + 1) (Z.of_nat (nrows a))
  | ModeSame =>
      let first := - ((Z.of_nat (nrows b) - 1) / 2) in
      arange first (first + Z.of_nat (nrows a))
  end.

Definition col_lags (a b : frame) (mode : xcorr_mode) : list Z :=
  match mode with
  | ModeFull => arange (- Z.of_nat (ncols b) + 1) (Z.of_nat (ncols a))
  | ModeSame =>
      let first := - ((Z.of_nat (ncols b) - 1) / 2) in
      arange first (first + Z.of_nat (ncols a))
  end.

Definition has_nan (f : frame) : bool :=
  existsb (fun c => existsb isnan (snd c)) (columns f).

(** Maximum of a list of samples, NaN skipped; NaN when nothing is left. *)
Definition sample_max (l : list sample) : sample :=
  fold_left (fun best s =>
               match best, s with
               | _, NaN => best
               | NaN, Val _ => s
               | Val b, Val v => if Qle_bool v b then best else s
               end) l NaN.

(** Modelled from the spec: [norm_twod_xcorr] of
    [openhdemg.library.mathtools], absent from the translated sources.  The
    spec (4.4) describes it as the standard sliding-window cross-correlation
    of two 2-D tables normalised by the product of their L2 norms, with
    mode "same" aligned to the first input and mode "full" the complete
    sequence; the second component is the maximum of the table.  Empty
    inputs are refused; with a zero norm the table and its maximum are 0.
    The norm is computed exactly, so inputs with an irrational norm fall
    outside of the model. *)
Definition norm_twod_xcorr (a b : frame) (mode : xcorr_mode)
  : result (frame * sample) :=
  if has_nan a || has_nan b then raise (NotModelled "NaN input")
  else if (Nat.eqb (ncols a) 0 || Nat.eqb (ncols b) 0
           || Nat.eqb (nrows a) 0 || Nat.eqb (nrows b) 0)%bool
  then raise (ValueError "empty input")
  else
    match Qsqrt_exact (energy a * energy b) with
    | None => raise (NotModelled "irrational norm")
    | Some norm =>
        let cell i j :=
          if Qeq_bool norm 0 then Val 0
          else Val (Qred (corr_at a b i j / norm)) in
        let rl := row_lags a b mode in
        let cl := col_lags a b mode in
        let cols :=
          map (fun jp => (Chan (Z.of_nat (fst jp)),
                          map (fun i => cell i (snd jp)) rl))
              (enumerate cl) in
        ok (mkFrame (range (length rl)) cols,
            sample_max (flat_map snd cols))
    end.

End XcorrModel.

(** ** diff and double_diff *)

(** [row - k] on a column label: only integer labels support it. *)
Definition label_minus (l : label) (k : Z) : result label :=
  match l with
  | Chan z => ok (Chan (z - k))
  | Suffixed _ _ =>
      raise (TypeError "unsupported operand type(s) for -: 'str' and 'int'")
  end.

(** [df.loc[:, l]] *)
Fixpoint loc_col_in (cols : list (label * list sample)) (l : label)
  : result (list sample) :=
  match cols with
  | [] => raise (KeyError "column label")
  | (l', v) :: cols' => if label_eqb l' l then ok v else loc_col_in cols' l
  end.

Definition loc_col (df : frame) (l : label) : result (list sample) :=
  loc_col_in (columns df) l.

Fixpoint zip_with {A B C} (f : A -> B -> C) (a : list A) (b : list B) : list C :=
  match a, b with
  | x :: a', y :: b' => f x y :: zip_with f a' b'
  | _, _ => []
  end.

(** [pd.DataFrame(d)] for a dict of Series sharing the index [idx]. *)
Definition DataFrame_of_series (idx : list Z) (d : dict label (list sample))
  : frame :=
  match d with
  | [] => mkFrame [] []
  | _ :: _ => mkFrame idx d
  end.

Fixpoint diff_rows (df : frame) (rows : list (nat * label))
  (acc : dict label (list sample)) : result (dict label (list sample)) :=
  match rows with
  | [] => ok acc
  | (pos, row) :: rows' =>
      if (0 <? pos)%nat
      then (prev <- label_minus row 1 ;;
            a <- loc_col df prev ;;
            b <- loc_col df row ;;
            diff_rows df rows'
                      (dict_set label_eqb acc row (zip_with sample_sub a b)))%result
      else diff_rows df rows' acc
  end.

Fixpoint double_diff_rows (df : frame) (rows : list (nat * label))
  (acc : dict label (list sample)) : result (dict label (list sample)) :=
  match rows with
  | [] => ok acc
  | (pos, row) :: rows' =>
      if (1 <? pos)%nat
      then (prev2 <- label_minus row 2 ;;
            a <- loc_col df prev2 ;;
            prev1 <- label_minus row 1 ;;
            b <- loc_col df prev1 ;;
            c <- loc_col df row ;;
            let res :=
              zip_with sample_sub
                (zip_with sample_add (map (sample_scale (-1)) a)
                          (map (sample_scale 2) b))
                c in
            double_diff_rows df rows' (dict_set label_eqb acc row res))%result
      else double_diff_rows df rows' acc
  end.

(** The loop over matrix columns shared by [diff] and [double_diff]. *)
Fixpoint derive_loop
  (rows_fn : frame -> list (nat * label) -> dict label (list sample)
             -> result (dict label (list sample)))
  (g : grid) (acc : grid) : result grid :=
  match g with
  | [] => ok acc
  | (col, df) :: g' =>
      (d <- rows_fn df (enumerate (column_labels df)) [] ;;
       derive_loop rows_fn g'
                   (dict_set String.eqb acc col (DataFrame_of_series (index df) d)))%result
  end.

Definition diff (sorted_rawemg : grid) : result grid :=
  derive_loop diff_rows sorted_rawemg [].

Definition double_diff (sorted_rawemg : grid) : result grid :=
  derive_loop double_diff_rows sorted_rawemg [].

(** ** Calls and their trace *)

(** The stages a call goes through, in the order they are entered. *)
Inductive event : Type :=
| EvSortRawemg
| EvDerivation
| EvSta
| EvCompare (mu_file1 mu_file2 : nat)
| EvFindMleTeta
| EvMleCvEst.

(** A computation that records the stages it entered and then returns or
    raises. *)
Definition traced (A : Type) : Type := (list event * result A)%type.

Definition tret {A} (a : A) : traced A := ([], ok a).

Definition tbind {A B} (m : traced A) (k : A -> traced B) : traced B :=
  match m with
  | (t, inl e) => (t, inl e)
  | (t, inr a) => let '(t', r) := k a in (t ++ t', r)
  end.

(** A pure step that may raise. *)
Definition tlift {A} (r : result A) : traced A := ([], r).

(** Entering a stage. *)
Definition tlog {A} (ev : event) (r : result A) : traced A := ([ev], r).

Declare Scope traced_scope.
Delimit Scope traced_scope with traced.
Notation "x <- m ;; k" := (tbind m (fun x => k))
  (at level 61, m at next level, right associativity) : traced_scope.
Notation "' pat <- m ;; k" := (tbind m (fun x => match x with pat => k end))
  (at level 61, pat pattern, m at next level, right associativity) : traced_scope.

Fixpoint tmapM {A B} (f : A -> traced B) (xs : list A) : traced (list B) :=
  match xs with
  | [] => tret []
  | x :: xs' => (y <- f x ;; ys <- tmapM f xs' ;; tret (y :: ys))%traced
  end.

Fixpoint tsequence {A} (ms : list (traced A)) : traced (list A) :=
  match ms with
  | [] => tret []
  | m :: ms' => (y <- m ;; ys <- tsequence ms' ;; tret (y :: ys))%traced
  end.

(** The stages the specification calls heavy: template extraction and the
    pairwise comparison. *)
Definition heavy (ev : event) : bool :=
  match ev with
  | EvSta | EvCompare _ _ => true
  | _ => false
  end.

(** ** tracking *)

(** The values a caller may pass as [custom_muaps]. *)
#[local] Unset Elimination Schemes.
Inductive pyval : Type :=
| PyNone
| PyDict (d : sta_dict)
| PyList (items : list pyval)
| PyTuple (items : list pyval)
| PyStr (s : string).
#[local] Set Elimination Schemes.

(** [isinstance(v, list)] and [isinstance(v, dict)] *)
Definition is_list (v : pyval) : bool :=
  match v with PyList _ => true | _ => false end.

Definition is_dict (v : pyval) : bool :=
  match v with PyDict _ => true | _ => false end.

(** The [Inclusion] column added by the GUI. *)
Inductive inclusion : Type := Included | Excluded.

(** A row of the tracking table. *)
Record row : Type := mkRow {
  MU_file1 : nat;
  MU_file2 : nat;
  XCC : sample;
  Inclusion : option inclusion
}.

Definition table : Type := list row.

(** The arguments [sort_rawemg] receives from [tracking]. *)
Record sort_args : Type := mkSortArgs {
  matrixcode : string;
  orientation : Z;
  n_rows : option Z;
  n_cols : option Z;
  custom_sorting_order : option (list (list (option Z)))
}.

(** The arguments of [tracking].  [show] only drives plotting and the
    [gui_*] options only the layout of the GUI; they are left out. *)
Record tracking_args : Type := mkTrackingArgs {
  firings : firings_arg;
  derivation : string;
  timewindow : Q;
  threshold : sample;
  sorting : sort_args;
  custom_muaps : pyval;
  exclude_belowthreshold : bool;
  filter_results : bool;
  multiprocessing : bool;
  gui : bool
}.

(** [sta_dict[mu]] *)
Fixpoint sta_get (d : sta_dict) (mu : nat) : result sta_mu_dict :=
  match d with
  | [] => raise (KeyError "MU")
  | (k, v) :: d' => if Nat.eqb k mu then ok v else sta_get d' mu
  end.

(** The branch of the threshold phase: [if exclude_belowthreshold is False]
    append, [elif exclude_belowthreshold and normxcorr_max >= threshold]
    append. *)
Definition retained (exclude_belowthreshold : bool) (normxcorr_max threshold : sample)
  : bool :=
  if negb exclude_belowthreshold then true
  else if exclude_belowthreshold && sample_geb normxcorr_max threshold then true
  else false.

(** [df.empty] for a table with its three columns. *)
Definition is_empty (t : table) : bool :=
  match t with [] => true | _ :: _ => false end.

(** One round of the loop converting [res] into a single DataFrame. *)
Definition collect_step (tracking_res new_tracking_res : table) : table :=
  let tracking_res :=
    if is_empty tracking_res && negb (is_empty new_tracking_res)
    then new_tracking_res else tracking_res in
  if negb (is_empty tracking_res) && negb (is_empty new_tracking_res)
  then tracking_res ++ new_tracking_res
  else tracking_res.

Definition collect (res : list table) : result table :=
  match res with
  | [] => raise (UnboundLocalError "tracking_res")
  | i :: rest => ok (fold_left collect_step rest i)
  end.

(** Descending order on XCC with NaN last, as [sort_values] places it. *)
Definition xcc_desc_leb (a b : sample) : bool :=
  match a, b with
  | Val x, Val y => Qle_bool y x
  | Val _, NaN => true
  | NaN, Val _ => false
  | NaN, NaN => true
  end.

(** Row orders of the four [sort_values] calls: [a] may stand before [b]. *)
Definition by_mu1_xcc_desc (a b : row) : bool :=
  if (MU_file1 b <? MU_file1 a)%nat then true
  else if (MU_file1 a <? MU_file1 b)%nat then false
  else xcc_desc_leb (XCC a) (XCC b).

Definition by_mu2_xcc_desc (a b : row) : bool :=
  if (MU_file2 b <? MU_file2 a)%nat then true
  else if (MU_file2 a <? MU_file2 b)%nat then false
  else xcc_desc_leb (XCC a) (XCC b).

Definition by_mu1_asc (a b : row) : bool := (MU_file1 a <=? MU_file1 b)%nat.

Definition by_mu1_asc_xcc_desc (a b : row) : bool :=
  if (MU_file1 a <? MU_file1 b)%nat then true
  else if (MU_file1 b <? MU_file1 a)%nat then false
  else xcc_desc_leb (XCC a) (XCC b).

(** The relation decided by a row order. *)
Definition le_rel (le : row -> row -> bool) (a b : row) : Prop := le a b = true.

(** [sort_values]: a stable sort, rows with equal keys keep their order. *)
Fixpoint insert_by (le : row -> row -> bool) (x : row) (l : table) : table :=
  match l with
  | [] => [x]
  | y :: l' => if le x y then x :: l else y :: insert_by le x l'
  end.

Definition sort_values (le : row -> row -> bool) (t : table) : table :=
  fold_right (insert_by le) [] t.

(** [Series.unique()]: the values in order of first appearance. *)
Fixpoint unique (l : list nat) : list nat :=
  match l with
  | [] => []
  | x :: l' => x :: filter (fun y => negb (Nat.eqb y x)) (unique l')
  end.

(** The loop filling [res_unique]: for every unique key, the first row of
    the sorted table carrying it. *)
Definition first_rows (key : row -> nat) (t : table) : result table :=
  mapM (fun mu =>
          match filter (fun r => Nat.eqb (key r) mu) t with
          | [] => raise (IndexError "single positional indexer is out-of-bounds")
          | r :: _ => ok r
          end)
       (unique (map key t)).

(** The [if filter:] branch. *)
Definition filter_phase (tracking_res : table) : result table :=
  (let tracking_res := sort_values by_mu1_xcc_desc tracking_res in
   res_unique <- first_rows MU_file1 tracking_res ;;
   let tracking_res := sort_values by_mu2_xcc_desc res_unique in
   res_unique <- first_rows MU_file2 tracking_res ;;
   ok (sort_values by_mu1_asc res_unique))%result.

(** [derivation] is one of the three recognised modes. *)
Definition derivation_known (d : string) : bool :=
  String.eqb d "mono" || String.eqb d "sd" || String.eqb d "dd".

Section Tracking.

(** [openhdemg.library.electrodes.sort_rawemg] and
    [openhdemg.library.mathtools.norm_twod_xcorr] live outside the
    translated module. *)
Variable sort_rawemg : emgfile -> sort_args -> result grid.
Variable norm_twod_xcorr :
  frame -> frame -> xcorr_mode -> result (frame * sample).

(** [joblib.Parallel(n_jobs=-1)(tasks)]: runs the delayed calls on a pool
    of workers and returns their results as a list. *)
Variable Parallel : forall A : Type, list (unit -> A) -> list A.

(** What the reviewer decides in [Tracking_gui] for the pair shown at a
    given table position. *)
Variable gui_decision : nat -> inclusion.

Variables emgfile1 emgfile2 : emgfile.
Variable args : tracking_args.

(** The first block of [tracking]: the STAs of the two files, computed or
    taken from [custom_muaps]. *)
Definition obtain_stas : traced (sta_dict * sta_dict) :=
  if negb (is_list (custom_muaps args))
  then
    (emgfile1_sorted <- tlog EvSortRawemg (sort_rawemg emgfile1 (sorting args)) ;;
     emgfile2_sorted <- tlog EvSortRawemg (sort_rawemg emgfile2 (sorting args)) ;;
     '(emgfile1_sorted, emgfile2_sorted) <-
        (if String.eqb (derivation args) "mono"
         then tret (emgfile1_sorted, emgfile2_sorted)
         else if String.eqb (derivation args) "sd"
         then (s1 <- tlog EvDerivation (diff emgfile1_sorted) ;;
               s2 <- tlog EvDerivation (diff emgfile2_sorted) ;;
               tret (s1, s2))
         else if String.eqb (derivation args) "dd"
         then (s1 <- tlog EvDerivation (double_diff emgfile1_sorted) ;;
               s2 <- tlog EvDerivation (double_diff emgfile2_sorted) ;;
               tret (s1, s2))
         else tlift (raise (ValueError
                "derivation can be one of 'mono', 'sd', 'dd'."))) ;;
     sta_emgfile1 <- tlog EvSta (Sta.sta emgfile1 emgfile1_sorted (firings args)
                                         (timewindow args * 2)) ;;
     sta_emgfile2 <- tlog EvSta (Sta.sta emgfile2 emgfile2_sorted (firings args)
                                         (timewindow args * 2)) ;;
     tret (sta_emgfile1, sta_emgfile2))%traced
  else
    match custom_muaps args with
    | PyList [sta_emgfile1; sta_emgfile2] =>
        match sta_emgfile1, sta_emgfile2 with
        | PyDict d1, PyDict d2 => tret (d1, d2)
        | PyDict _, _ =>
            tlift (raise (ValueError "custom_muaps[1] is not a dictionary"))
        | _, _ =>
            tlift (raise (ValueError "custom_muaps[0] is not a dictionary"))
        end
    | _ => tlift (raise (ValueError
                    "custom_muaps is not a list of two dictionaries"))
    end.

Variables sta_emgfile1 sta_emgfile2 : sta_dict.

(** The body of the inner loop of [parallel] up to the score: align the
    two STAs (unless custom MUAPs were given) and take the maximum of
    their normalised 2-D cross-correlation. *)
Definition pair_xcc (mu_file1 mu_file2 : nat) : result sample :=
  ('(aligned_sta1, aligned_sta2) <-
      (if negb (is_list (custom_muaps args))
       then (s1 <- sta_get sta_emgfile1 mu_file1 ;;
             s2 <- sta_get sta_emgfile2 mu_file2 ;;
             align_by_xcorr norm_twod_xcorr s1 s2 (1 # 2))
       else (s1 <- sta_get sta_emgfile1 mu_file1 ;;
             s2 <- sta_get sta_emgfile2 mu_file2 ;;
             ok (s1, s2))) ;;
   '(df1, _) <- unpack_sta aligned_sta1 ;;
   let df1 := dropna_cols df1 in
   '(df2, _) <- unpack_sta aligned_sta2 ;;
   let df2 := dropna_cols df2 in
   '(_, normxcorr_max) <- norm_twod_xcorr df1 df2 ModeFull ;;
   ok normxcorr_max)%result.

(** The loop of [parallel] over the MUs of file 2, filling [res]. *)
Fixpoint parallel_loop (mu_file1 : nat) (mus2 : list nat) (res : table)
  : traced table :=
  match mus2 with
  | [] => tret res
  | mu_file2 :: mus2' =>
      (normxcorr_max <- tlog (EvCompare mu_file1 mu_file2)
                             (pair_xcc mu_file1 mu_file2) ;;
       parallel_loop mu_file1 mus2'
         (if retained (exclude_belowthreshold args) normxcorr_max (threshold args)
          then res ++ [mkRow mu_file1 mu_file2 normxcorr_max None]
          else res))%traced
  end.

Definition parallel (mu_file1 : nat) : traced table :=
  parallel_loop mu_file1 (seq 0 (NUMBER_OF_MUS emgfile2)) [].

(** The serial loop: [res.append(parallel(mu_file1))]. *)
Fixpoint serial_loop (mus1 : list nat) (res : list table) : traced (list table) :=
  match mus1 with
  | [] => tret res
  | mu_file1 :: mus1' =>
      (r <- parallel mu_file1 ;; serial_loop mus1' (res ++ [r]))%traced
  end.

(** The comparison phase, on the pool or serially. *)
Definition compare_all : traced (list table) :=
  if multiprocessing args
  then tsequence (Parallel _ (map (fun mu_file1 (_ : unit) => parallel mu_file1)
                                  (seq 0 (NUMBER_OF_MUS emgfile1))))
  else serial_loop (seq 0 (NUMBER_OF_MUS emgfile1)) [].

(** [Tracking_gui(...).get_results()]: the table with the reviewer's
    inclusion labels. *)
Definition Tracking_gui (tracking_res : table) : table :=
  map (fun ir => mkRow (MU_file1 (snd ir)) (MU_file2 (snd ir)) (XCC (snd ir))
                       (Some (gui_decision (fst ir))))
      (enumerate tracking_res).

(** Everything after the STAs are known. *)
Definition track_from_stas : traced table :=
  (res <- compare_all ;;
   tracking_res <- tlift (collect res) ;;
   tracking_res <-
     (if filter_results args
      then tlift (filter_phase tracking_res)
      else tret (sort_values by_mu1_asc_xcc_desc tracking_res)) ;;
   if gui args
   then if is_empty tracking_res then tret tracking_res
        else tret (Tracking_gui tracking_res)
   else tret tracking_res)%traced.

End Tracking.

Definition tracking
  (sort_rawemg : emgfile -> sort_args -> result grid)
  (norm_twod_xcorr : frame -> frame -> xcorr_mode -> result (frame * sample))
  (Parallel : forall A : Type, list (unit -> A) -> list A)
  (gui_decision : nat -> inclusion)
  (emgfile1 emgfile2 : emgfile) (args : tracking_args) : traced table :=
  ('(sta_emgfile1, sta_emgfile2) <-
      obtain_stas sort_rawemg emgfile1 emgfile2 args ;;
   track_from_stas norm_twod_xcorr Parallel gui_decision emgfile1 emgfile2 args
                   sta_emgfile1 sta_emgfile2)%traced.

(** joblib's contract: the results come back in the order the calls were
    submitted. *)
Definition ordered_pool (Parallel : forall A : Type, list (unit -> A) -> list A)
  : Prop :=
  forall (A : Type) (tasks : list (unit -> A)),
    Parallel A tasks = map (fun task => task tt) tasks.

(** The same call with [multiprocessing] set to [b]. *)
Definition with_multiprocessing (b : bool) (a : tracking_args) : tracking_args :=
  mkTrackingArgs (firings a) (derivation a) (timewindow a) (threshold a)
                 (sorting a) (custom_muaps a) (exclude_belowthreshold a)
                 (filter_results a) b (gui a).

(** The configurations [tracking] refuses: a list that is not made of two
    dicts, or, when no list is given, an unknown derivation. *)
Definition rejected_config (custom_muaps : pyval) (derivation : string) : bool :=
  match custom_muaps with
  | PyList [PyDict _; PyDict _] => false
  | PyList _ => true
  | _ => negb (derivation_known derivation)
  end.

(** A row without the column added by the GUI. *)
Definition drop_inclusion (r : row) : row :=
  mkRow (MU_file1 r) (MU_file2 r) (XCC r) None.

(** [r] belongs to [pool] and no row of [pool] with the same key has a
    better XCC. *)
Definition group_best (key : row -> nat) (pool : table) (r : row) : Prop :=
  In r pool
  /\ forall r', In r' pool -> key r' = key r ->
                xcc_desc_leb (XCC r) (XCC r') = true.

(** [r] is the row a greedy pass keeps for its key out of [pool]: no row
    of [pool] with the same key has a better XCC, and of the rows that tie
    with it [r] is the one that comes first. *)
Definition first_best (key : row -> nat) (pool : table) (r : row) : Prop :=
  exists pre post,
    pool = pre ++ r :: post
    /\ (forall r', In r' pre -> key r' = key r ->
                   xcc_desc_leb (XCC r') (XCC r) = false)
    /\ (forall r', In r' post -> key r' = key r ->
                   xcc_desc_leb (XCC r) (XCC r') = true).

(** One greedy pass over [pool]: [picks] holds the kept row of every key,
    and nothing else, by decreasing key. *)
Definition greedy_pass (key : row -> nat) (pool picks : table) : Prop :=
  StronglySorted gt (map key picks)
  /\ forall r, In r picks <-> first_best key pool r.

(** The rows of [t] are what the two greedy passes leave of [candidates]:
    the first pass keeps the best row of every MU_file1 group, the second
    the best row of every MU_file2 group of what the first has kept. *)
Definition two_pass_survivors (candidates t : table) : Prop :=
  exists pass1,
    greedy_pass MU_file1 candidates pass1
    /\ forall r, In r t <-> first_best MU_file2 pass1 r.

(** ** estimate_cv_via_mle *)

Section ConductionVelocity.

(** [find_mle_teta] and [mle_cv_est] of [openhdemg.library.mathtools]. *)
Variable find_mle_teta :
  list sample -> list sample -> Q -> Q -> result sample.
Variable mle_cv_est :
  list (list sample) -> sample -> Q -> Q -> result (sample * sample).

(** [sig[k, :]] on the transposed array. *)
Definition sig_row (sig : list (list sample)) (k : nat) : result (list sample) :=
  match nth_error sig k with
  | Some r => ok r
  | None => raise (IndexError "index is out of bounds for axis 0")
  end.

Definition sample_abs (s : sample) : sample :=
  match s with
  | Val q => Val (Qabs q)
  | NaN => NaN
  end.

Definition estimate_cv_via_mle (e : emgfile) (signal : frame) : traced sample :=
  let ied := IED e in
  let fsamp := FSAMP e in
  let sig := map snd (columns signal) in
  ('(sig1, sig2) <-
      tlift (if (3 <? length sig)%nat
             then (s1 <- sig_row sig 1 ;; s2 <- sig_row sig 2 ;; ok (s1, s2))%result
             else (s1 <- sig_row sig 0 ;; s2 <- sig_row sig 1 ;; ok (s1, s2))%result) ;;
   teta <- tlog EvFindMleTeta (find_mle_teta sig1 sig2 ied fsamp) ;;
   '(cv, teta) <- tlog EvMleCvEst (mle_cv_est sig teta ied fsamp) ;;
   tret (sample_abs cv))%traced.

End ConductionVelocity.

(** ** Example recordings *)

Module Examples.

Open Scope string_scope.

(** A channel of [n] samples, zero except at the listed positions. *)
Definition channel (n : nat) (vals : list (nat * Q)) : list sample :=
  map (fun i => match find (fun kv => Nat.eqb (fst kv) i) vals with
                | Some kv => Val (snd kv)
                | None => Val 0
                end)
      (seq 0 n).

(** One matrix column with a single channel of 64 samples. *)
Definition edge_grid : grid :=
  [("col0", mkFrame (range 64) [(Chan 0, channel 64 [(5%nat, 1%Q)])])].

(** A recording sampled at 1000 Hz whose only MU fires once, at sample 3. *)
Definition edge_emgfile : emgfile :=
  mkEmgfile 1000 8 1 [[3]] (mkFrame (range 64) [(Chan 0, channel 64 [(5%nat, 1%Q)])]).

(** A one-channel template of [n] samples with a unit impulse at [k]. *)
Definition impulse_template (n k : nat) : sta_mu_dict :=
  [("col0", mkFrame (range n) [(Chan 0, channel n [(k, 1%Q)])])].

(** Two recordings of 128 samples at 1000 Hz, two MUs each, channel 0
    carrying the action potentials and channel 1 empty. *)
Definition raw_A : frame :=
  mkFrame (range 128)
          [(Chan 0, channel 128 [(31%nat, 1%Q); (91%nat, 3%Q); (92%nat, 4%Q)]);
           (Chan 1, repeat NaN 128)].

Definition raw_B : frame :=
  mkFrame (range 128)
          [(Chan 0, channel 128 [(31%nat, 3%Q); (32%nat, 4%Q); (91%nat, 1%Q)]);
           (Chan 1, repeat NaN 128)].

Definition emgfile_A : emgfile := mkEmgfile 1000 8 2 [[30]; [90]] raw_A.
Definition emgfile_B : emgfile := mkEmgfile 1000 8 2 [[30]; [90]] raw_B.

(** A sorter for a one-column matrix: the raw channels as they are. *)
Definition one_column_sorter (e : emgfile) (_ : sort_args) : result grid :=
  ok [("col0", RAW_SIGNAL e)].

(** A pool that runs the calls one after the other. *)
Definition in_order_pool : forall A : Type, list (unit -> A) -> list A :=
  fun A tasks => map (fun task => task tt) tasks.

Definition no_sorting : sort_args := mkSortArgs "None" 180 (Some 2) (Some 1) None.

Definition example_args (derivation : string) (threshold : sample)
  (custom_muaps : pyval) (exclude_belowthreshold filter multiprocessing : bool)
  : tracking_args :=
  mkTrackingArgs FiringsAll derivation 20 threshold no_sorting custom_muaps
                 exclude_belowthreshold filter multiprocessing false.

(** The STAs of the two recordings over a window of 40 samples. *)
Definition stas_of (e : emgfile) : sta_dict :=
  match Sta.sta e [("col0", RAW_SIGNAL e)] FiringsAll 40 with
  | inr d => d
  | inl _ => []
  end.

Definition stas_A : sta_dict := stas_of emgfile_A.
Definition stas_B : sta_dict := stas_of emgfile_B.

(** A signal with a single channel. *)
Definition one_channel_signal : frame :=
  mkFrame (range 4) [(Chan 0, [Val 0; Val 1; Val 0; Val 0])].

(** Two channels of four samples; the second one stops after two samples
    and is padded with NaN. *)
Definition padded_signal : frame :=
  mkFrame (range 4) [(Chan 0, [Val 0; Val 1; Val 0; Val 0]);
                     (Chan 1, [Val 0; Val 1; NaN; NaN])].

(** Stand-ins for the two MLE routines. *)
Definition stub_find_mle_teta (sig1 sig2 : list sample) (ied fsamp : Q)
  : result sample := ok (Val 0).

Definition stub_mle_cv_est (sig : list (list sample)) (teta : sample)
  (ied fsamp : Q) : result (sample * sample) := ok (Val (-4), teta).

Definition example_tracking (a : tracking_args) : traced table :=
  tracking one_column_sorter XcorrModel.norm_twod_xcorr in_order_pool
           (fun _ => Included) emgfile_A emgfile_B a.

End Examples.

(** ** Further notions used by the properties below *)

(** What [sta] fills the window of a channel with when the MU has no
    firing: NaN for an empty channel, zero otherwise. *)
Definition empty_fill (emg_array : list sample) : sample :=
  if forallb isnan emg_array then NaN else Val 0.

(** The template [sta] builds for a matrix column when the MU has no
    firing. *)
Definition empty_template (tottime : Z) (df : frame) : frame :=
  match columns df with
  | [] => mkFrame [] []
  | _ :: _ =>
      mkFrame (range (Z.to_nat tottime))
              (map (fun c => (fst c, repeat (empty_fill (snd c)) (Z.to_nat tottime)))
                   (columns df))
  end.

(** A frame whose channel labels are pairwise distinct. *)
Definition distinct_labels (df : frame) : Prop := NoDup (column_labels df).

(** The firings [sta] averages over: [emgfile["MUPULSES"][mu][firings[0]:
    firings[1]]], the whole train for ["all"]. *)
Definition selected_firings (firings : firings_arg) (pulses : list Z) : list Z :=
  match firings with
  | FiringsAll => py_slice pulses 0 (Z.of_nat (length pulses))
  | FiringsRange lo hi => py_slice pulses lo hi
  end.

(** A grid whose matrix columns have distinct keys and whose frames have
    distinct channel labels. *)
Definition grid_wf (g : grid) : Prop :=
  NoDup (dict_keys g) /\ Forall (fun kv => distinct_labels (snd kv)) g.

(** A firing whose whole window lies inside a recording of [n] samples. *)
Definition inside_window (n : nat) (halftime : Z) (pulse : Z) : bool :=
  (halftime <=? pulse) && (pulse + halftime <=? Z.of_nat n).

(** All channels of a frame hold [n] samples. *)
Definition channels_of_length (n : nat) (df : frame) : Prop :=
  Forall (fun c => length (snd c) = n) (columns df).

(** The two shapes of a mean: the scalar of an empty list, or an array of
    [t] samples. *)
Definition is_scalar (m : mean_result) : Prop :=
  match m with MeanScalar _ => True | MeanArray _ => False end.

Definition is_array_of (t : Z) (m : mean_result) : Prop :=
  match m with MeanScalar _ => False | MeanArray a => Z.of_nat (length a) = t end.

(** The firings of a train, with their positions, whose window lies inside
    a recording of [n] samples. *)
Definition inner_firings (n : nat) (halftime : Z) (thismups : list Z)
  : list (nat * Z) :=
  filter (fun pp => inside_window n halftime (snd pp)) (enumerate thismups).

(** The DataFrame [st_muap] builds for a channel: one column per firing
    with a complete window, labelled by the position of the firing. *)
Definition trials_frame (emg_array : list sample) (halftime : Z)
  (thismups : list Z) : frame :=
  match inner_firings (length emg_array) halftime thismups with
  | [] => mkFrame [] []
  | kept =>
      mkFrame (range (Z.to_nat (halftime * 2)))
              (map (fun pp => (Chan (Z.of_nat (fst pp)),
                               py_slice emg_array (snd pp - halftime)
                                        (snd pp + halftime)))
                   kept)
  end.

(** The symmetric cut at the end of [align_by_xcorr]:
    [tocutstart = round((len(df1cut.index) - finalduration_samples) / 2)],
    [tocutend = round(len(df1cut.index) - tocutstart)] and
    [df.iloc[tocutstart:tocutend, :]]. *)
Definition trim_rows (df : frame) (finalduration_samples : Z) : frame :=
  let tocutstart :=
    py_round ((inject_Z (Z.of_nat (nrows df)) - inject_Z finalduration_samples) / 2) in
  let tocutend := py_round (inject_Z (Z.of_nat (nrows df) - tocutstart)) in
  iloc_rows df tocutstart tocutend.

(** The pair of MUs a row reports. *)
Definition pair_of (r : row) : nat * nat := (MU_file1 r, MU_file2 r).

(** [r] has a strictly higher XCC than [r'] (a NaN is below every value). *)
Definition beats (r r' : row) : Prop := xcc_desc_leb (XCC r') (XCC r) = false.

(** [r] belongs to [pool] and beats every other row of its group. *)
Definition clear_winner (key : row -> nat) (pool : table) (r : row) : Prop :=
  In r pool
  /\ forall r', In r' pool -> key r' = key r -> r' = r \/ beats r r'.

(** The channels of a matrix column are numbered consecutively. *)
Definition consecutive_channels (df : frame) : Prop :=
  exists lo, column_labels df = map Chan (run_from lo (length (columns df))).

(** Every channel but the first, paired with its predecessor. *)
Fixpoint adjacent_pairs (f : list sample -> list sample -> list sample)
  (cols : list (label * list sample)) : dict label (list sample) :=
  match cols with
  | [] => []
  | (_, a) :: rest =>
      match rest with
      | [] => []
      | (l, b) :: _ => (l, f a b) :: adjacent_pairs f rest
      end
  end.

(** Every channel but the first two, with its two predecessors. *)
Fixpoint adjacent_triples
  (f : list sample -> list sample -> list sample -> list sample)
  (cols : list (label * list sample)) : dict label (list sample) :=
  match cols with
  | [] => []
  | (_, a) :: rest =>
      match rest with
      | [] => []
      | (_, b) :: rest' =>
          match rest' with
          | [] => []
          | (l, c) :: _ => (l, f a b c) :: adjacent_triples f rest
          end
      end
  end.

(** [-a + 2 * b - c] on three channels. *)
Definition second_difference (a b c : list sample) : list sample :=
  zip_with sample_sub
    (zip_with sample_add (map (sample_scale (-1)) a) (map (sample_scale 2) b)) c.

Module MoreExamples.
(** Recording A with no motor unit identified. *)
Definition silent_emgfile : emgfile := mkEmgfile 1000 8 0 [] Examples.raw_A.

(** One matrix column of three channels, numbered 4, 5 and 6. *)
Definition three_channel_grid : grid :=
  [("col0"%string,
    mkFrame (range 2) [(Chan 4, [Val 1; Val 5]); (Chan 5, [Val 3; NaN]);
                       (Chan 6, [Val 6; Val 2])])].

(** Four channels of three samples. *)
Definition four_channel_signal : frame :=
  mkFrame (range 3) [(Chan 0, [Val 0; Val 1; Val 0]); (Chan 1, [Val 0; Val 0; Val 1]);
                     (Chan 2, [Val 1; Val 0; Val 0]); (Chan 3, [Val 0; Val 0; Val 0])].

(** The binary firings of two MUs over four samples. *)
Definition two_mu_binary : frame :=
  mkFrame (range 4) [(Chan 0, [Val 0; Val 1; Val 0; Val 1]);
                     (Chan 1, [Val 1; Val 0; Val 0; Val 0])].
End MoreExamples.

(** ** tools: the binary representation of the firings *)

(** What a file may hold under MUPULSES: a list of arrays of firing
    samples, or something else (NaN when no decomposition is there). *)
Inductive mupulses_arg : Type :=
| MupulsesList (mupulses : list (list Z))
| MupulsesOther.

(** [l[k] = v] for a position inside the list. *)
Fixpoint set_at {A} (l : list A) (k : nat) (v : A) : list A :=
  match l, k with
  | [], _ => []
  | _ :: l', O => v :: l'
  | x :: l', S k' => x :: set_at l' k' v
  end.

(** A positional index on an axis of [n] entries: negative positions count
    from the end, anything outside [-n, n) is out of bounds. *)
Definition position (n : nat) (p : Z) : option nat :=
  if (0 <=? p) && (p <? Z.of_nat n) then Some (Z.to_nat p)
  else if (- Z.of_nat n <=? p) && (p <? 0) then Some (Z.to_nat (p + Z.of_nat n))
  else None.

Definition iloc_position (n : nat) (p : Z) : result nat :=
  match position n p with
  | Some k => ok k
  | None => raise (IndexError "index is out of bounds for axis 0")
  end.

(** [df.iloc[rows, col] = v] for an array of row positions and the
    position [col] of an existing column. *)
Definition iloc_set (df : frame) (rows : list Z) (col : nat) (v : sample)
  : result frame :=
  match nth_error (columns df) col with
  | None => raise (IndexError "iloc cannot enlarge its target object")
  | Some (l, data) =>
      (ps <- mapM (iloc_position (length data)) rows ;;
       ok (mkFrame (index df)
                   (set_at (columns df) col
                           (l, fold_left (fun c p => set_at c p v) ps data))))%result
  end.

(** [pd.DataFrame(np.zeros((emg_length, number_of_mus), dtype=int))] *)
Definition zeros_frame (emg_length number_of_mus : nat) : frame :=
  mkFrame (range emg_length)
          (map (fun mu => (Chan (Z.of_nat mu), repeat (Val 0) emg_length))
               (seq 0 number_of_mus)).

(** The loop of [create_binary_firings] over the MUs. *)
Fixpoint binary_loop (mupulses : list (list Z)) (mus : list nat)
  (binary_MUs_firing : frame) : result frame :=
  match mus with
  | [] => ok binary_MUs_firing
  | mu :: mus' =>
      match nth_error mupulses mu with
      | None => raise (IndexError "list index out of range")
      | Some pulses =>
          if (0 <? length pulses)%nat
          then (b <- iloc_set binary_MUs_firing pulses mu (Val 1) ;;
                binary_loop mupulses mus' b)%result
          else binary_loop mupulses mus' binary_MUs_firing
      end
  end.

Definition create_binary_firings (emg_length number_of_mus : nat)
  (mupulses : mupulses_arg) : result frame :=
  match mupulses with
  | MupulsesOther => raise (ValueError "mupulses is not a list of ndarrays")
  | MupulsesList mupulses =>
      binary_loop mupulses (seq 0 number_of_mus)
                  (zeros_frame emg_length number_of_mus)
  end.

(** [x > 0] on a cell; a comparison with NaN is false. *)
Definition sample_pos (x : sample) : bool :=
  match x with
  | Val q => Qgtb q 0
  | NaN => false
  end.

(** [MUPULSES[mu] = v] on a list, [mu] being a column label. *)
Definition list_setitem {A} (l : list A) (mu : label) (v : A) : result (list A) :=
  match mu with
  | Chan z =>
      match position (length l) z with
      | Some k => ok (set_at l k v)
      | None => raise (IndexError "list assignment index out of range")
      end
  | Suffixed _ _ =>
      raise (TypeError "list indices must be integers or slices, not str")
  end.

(** No label occurs twice. *)
Fixpoint labels_distinct (ls : list label) : bool :=
  match ls with
  | [] => true
  | l :: ls' => negb (existsb (label_eqb l) ls') && labels_distinct ls'
  end.

(** The inner loop of [mupulses_from_binary]: the index labels of the
    positive cells of a column, [for idx, x in column.items(): if x > 0]. *)
Definition firing_times (idx : list Z) (column : list sample) : list Z :=
  map fst (filter (fun ix => sample_pos (snd ix)) (combine idx column)).

(** The loop of [mupulses_from_binary] over the columns. *)
Fixpoint mupulses_loop (binarymusfiring : frame) (mus : list label)
  (MUPULSES : list (list Z)) : result (list (list Z)) :=
  match mus with
  | [] => ok MUPULSES
  | mu :: mus' =>
      (column <- loc_col binarymusfiring mu ;;
       let my_ndarray := firing_times (index binarymusfiring) column in
       MUPULSES <- list_setitem MUPULSES mu my_ndarray ;;
       mupulses_loop binarymusfiring mus' MUPULSES)%result
  end.

(** [binarymusfiring[mu]] is a column only when the label [mu] occurs
    once; frames with a repeated label are left out. *)
Definition mupulses_from_binary (binarymusfiring : frame) : result (list (list Z)) :=
  if labels_distinct (column_labels binarymusfiring)
  then
    let numberofMUs := length (columns binarymusfiring) in
    mupulses_loop binarymusfiring (column_labels binarymusfiring)
                  (repeat [] numberofMUs)
  else raise (NotModelled "repeated column label").

(** The samples [position] maps onto row [i]. *)
Definition lands_on (n : nat) (i : nat) (p : Z) : bool :=
  match position n p with
  | Some k => Nat.eqb k i
  | None => false
  end.

(** A column of [n] cells, 1 where a firing lands and 0 elsewhere. *)
Definition marks (n : nat) (pulses : list Z) : list sample :=
  map (fun i => if existsb (lands_on n i) pulses then Val 1 else Val 0) (seq 0 n).

(** [p] is a valid position on an axis of [n] entries. *)
Definition in_bounds (n : nat) (p : Z) : bool :=
  (- Z.of_nat n <=? p) && (p <? Z.of_nat n).

(** Every MU below [number_of_mus] has an array of firings, all of them
    valid row positions. *)
Definition firings_in_bounds (n number_of_mus : nat) (mupulses : list (list Z)) : bool :=
  forallb (fun mu => match nth_error mupulses mu with
                     | Some pulses => forallb (in_bounds n) pulses
                     | None => false
                     end)
          (seq 0 number_of_mus).

(** The frame with a 1 wherever a firing lands. *)
Definition binary_frame (n number_of_mus : nat) (mupulses : list (list Z)) : frame :=
  mkFrame (range n)
          (map (fun mu => (Chan (Z.of_nat mu), marks n (nth mu mupulses [])))
               (seq 0 number_of_mus)).

(** The columns are labelled [0 .. N-1], as a RangeIndex does. *)
Definition range_labelled (df : frame) : Prop :=
  column_labels df = map Chan (range (length (columns df))).

(** A frame of [n] rows indexed [0 .. n-1] whose cells are all 0 or 1. *)
Definition binary_cells (n : nat) (df : frame) : Prop :=
  index df = range n
  /\ Forall (fun c => length (snd c) = n
                      /\ Forall (fun x => x = Val 0 \/ x = Val 1) (snd c))
            (columns df).

(** The firings of an MU are listed in increasing order, without
    repetition, and lie inside the recording. *)
Definition increasing_within (n : nat) (pulses : list Z) : Prop :=
  StronglySorted Z.lt pulses /\ Forall (fun p => 0 <= p < Z.of_nat n) pulses.

(** ** xcc_sta *)

(** [l[k]] on a list. *)
Definition list_getitem {A} (l : list A) (k : nat) : result A :=
  match nth_error l k with
  | Some x => ok x
  | None => raise (IndexError "list index out of range")
  end.

(** [df[col] = v] for a scalar [v]: the column labelled [col] is filled
    with [v], or appended when no column carries the label. *)
Definition set_column_scalar (df : frame) (col : label) (v : sample) : frame :=
  if mem_label col (column_labels df)
  then mkFrame (index df)
               (map (fun c => if label_eqb (fst c) col
                              then (fst c, repeat v (nrows df)) else c)
                    (columns df))
  else mkFrame (index df) (columns df ++ [(col, repeat v (nrows df))]).

(** Equality of two cells as [duplicated] sees it: NaN equals NaN. *)
Definition sample_same (a b : sample) : bool :=
  match a, b with
  | Val x, Val y => Qeq_bool x y
  | NaN, NaN => true
  | _, _ => false
  end.

(** Row [i] of a frame. *)
Definition row_at (df : frame) (i : nat) : list sample :=
  map (fun c => nth i (snd c) NaN) (columns df).

Fixpoint rows_same (a b : list sample) : bool :=
  match a, b with
  | [], [] => true
  | x :: a', y :: b' => sample_same x y && rows_same a' b'
  | _, _ => false
  end.

(** [df.drop_duplicates()]: of every group of equal rows the first one is
    kept.  A frame with rows but no column is left out. *)
Definition drop_duplicates (df : frame) : result frame :=
  match columns df, index df with
  | [], _ :: _ => raise (NotModelled "rows without columns")
  | _, _ =>
      ok (select_rows df
            (filter (fun i => negb (existsb (fun j => rows_same (row_at df j) (row_at df i))
                                            (seq 0 i)))
                    (seq 0 (nrows df))))
  end.

Section XccSta.

(** [openhdemg.library.mathtools.norm_xcorr] with [out="max"]. *)
Variable norm_xcorr : list sample -> list sample -> result sample.

(** The loop over the reversed channels of one frame. *)
Fixpoint xcc_loop (df : frame) (reversed_col : list label)
  (items : list (nat * label)) (out : frame) : result frame :=
  match items with
  | [] => ok out
  | (pos, col) :: items' =>
      (xcc <- (if negb (Z.of_nat pos =? Z.of_nat (length reversed_col) - 1)
               then (this_l <- list_getitem reversed_col pos ;;
                     this_c <- loc_col df this_l ;;
                     next_l <- list_getitem reversed_col (pos + 1) ;;
                     next_c <- loc_col df next_l ;;
                     norm_xcorr this_c next_c)
               else ok NaN) ;;
       xcc_loop df reversed_col items' (set_column_scalar out col xcc))%result
  end.

(** The body of the two outer loops.  [df.loc[:, label]] is a column only
    when the label occurs once; frames with a repeated label are left
    out. *)
Definition xcc_frame (df : frame) : result frame :=
  if labels_distinct (column_labels df)
  then
    (let reversed_col := rev (column_labels df) in
     out <- xcc_loop df reversed_col (enumerate reversed_col) df ;;
     drop_duplicates out)%result
  else raise (NotModelled "repeated column label").

Definition xcc_sta (sta : sta_dict) : result sta_dict :=
  mapM (fun mu_sta =>
          (cols <- mapM (fun kv => (f <- xcc_frame (snd kv) ;; ok (fst kv, f))%result)
                        (snd mu_sta) ;;
           ok (fst mu_sta, cols))%result)
       sta.

(** What [xcc_sta] leaves of a frame: the labels, at most the first row,
    NaN on the first channel and on every other channel the
    cross-correlation with the channel before. *)
Definition adjacent_xcc (df out : frame) : Prop :=
  index out = firstn 1 (index df)
  /\ column_labels out = column_labels df
  /\ forall k l v,
      nth_error (columns out) k = Some (l, v) ->
      exists x,
        v = repeat x (length (firstn 1 (index df)))
        /\ match k with
           | O => x = NaN
           | S k' =>
               exists a b l',
                 nth_error (columns df) k = Some (l, a)
                 /\ nth_error (columns df) k' = Some (l', b)
                 /\ norm_xcorr a b = inr x
           end.

End XccSta.

(** A stand-in for [norm_xcorr], and the template of one MU on two
    channels. *)
Definition stub_norm_xcorr (sig1 sig2 : list sample) : result sample :=
  ok (Val (1 # 2)).

Definition two_channel_sta : sta_dict :=
  [(0%nat, [("col0"%string,
             mkFrame (range 3) [(Chan 0, [Val 0; Val 1; Val 0]);
                                (Chan 1, [Val 0; Val 2; Val 1])])])].

From Stdlib Require DecimalString.

(** ** tools: deleting motor units *)

(** A DataFrame whose columns are named by strings, as the EXTRAS of a
    Delsys file. *)
Record named_frame : Type := mkNamed {
  n_index : list Z;
  n_columns : list (string * list sample)
}.

(** The emgfile with the entries a decomposition adds to the recording. *)
Record decomposition : Type := mkDecomposition {
  recording : emgfile;
  SOURCE : string;
  ACCURACY : frame;
  IPTS : frame;
  BINARY_MUS_FIRING : frame;
  EXTRAS : named_frame
}.

(** The [munumber] argument: an int or a list of int. *)
Inductive munumber_arg : Type :=
| MuInt (mu : Z)
| MuList (mus : list Z).

Definition munumber_labels (munumber : munumber_arg) : list Z :=
  match munumber with
  | MuInt mu => [mu]
  | MuList mus => mus
  end.

(** [df.drop(labels)]: the rows whose index label is listed are removed;
    a listed label that is not in the index is a KeyError. *)
Definition drop_rows (df : frame) (labels : list Z) : result frame :=
  if forallb (fun l => existsb (Z.eqb l) (index df)) labels
  then ok (select_rows df
             (map fst (filter (fun ix => negb (existsb (Z.eqb (snd ix)) labels))
                              (enumerate (index df)))))
  else raise (KeyError "not found in axis").

(** [df.drop(labels, axis=1)] *)
Definition drop_cols (df : frame) (labels : list Z) : result frame :=
  if forallb (fun l => mem_label (Chan l) (column_labels df)) labels
  then ok (mkFrame (index df)
             (filter (fun c => negb (existsb (fun l => label_eqb (fst c) (Chan l)) labels))
                     (columns df)))
  else raise (KeyError "not found in axis").

(** [df.columns = range(df.shape[1])] *)
Definition relabel_columns (df : frame) : frame :=
  mkFrame (index df)
          (map (fun kc => (Chan (Z.of_nat (fst kc)), snd (snd kc)))
               (enumerate (columns df))).

(** [del l[k]] *)
Definition list_delitem {A} (l : list A) (k : Z) : result (list A) :=
  match position (length l) k with
  | Some p => ok (firstn p l ++ skipn (S p) l)
  | None => raise (IndexError "list assignment index out of range")
  end.

(** [NUMBER_OF_MUS - k]; the count is a natural number here, a negative
    result is left out. *)
Definition number_minus (n k : nat) : result nat :=
  if (k <=? n)%nat then ok (n - k)%nat
  else raise (NotModelled "negative NUMBER_OF_MUS").

(** [pd.DataFrame(columns=[0])] *)
Definition empty_column_frame : frame := mkFrame [] [(Chan 0, [])].

(** [f"{mu}"] for an int. *)
Definition string_of_Z (z : Z) : string :=
  DecimalString.NilZero.string_of_int (Z.to_int z).

(** [data[names]]: for every name, the columns carrying it. *)
Definition select_named (data : named_frame) (names : list string) : named_frame :=
  mkNamed (n_index data)
          (flat_map (fun nm => filter (fun c => String.eqb (fst c) nm) (n_columns data))
                    names).

(** The four channel names of every MU below [n]. *)
Definition delsys_names (n : nat) : list string :=
  flat_map (fun mu =>
              map (fun ch => ("MU_" ++ string_of_Z (Z.of_nat mu) ++ "_CH_" ++ ch)%string)
                  ["0"; "1"; "2"; "3"]%string)
           (seq 0 n).

(** The Delsys branch of [delete_mus]: drop the MUAPs of the deleted MUs
    and renumber the others. *)
Definition delete_delsys (data : named_frame) (munumber : list Z) (n : nat)
  : result named_frame :=
  let data :=
    fold_left
      (fun data mu =>
         let mu_id := ("MU_" ++ string_of_Z mu ++ "_")%string in
         select_named data
           (filter (fun col => negb (String.prefix mu_id col))
                   (map fst (n_columns data))))
      munumber data in
  let col_list := map fst (n_columns data) in
  if negb (Nat.eqb (length col_list mod 4) 0)
  then raise (ValueError "Unexpected number of channels in Delsys MUAPS")
  else
    let new_col_list := delsys_names n in
    if Nat.eqb (length new_col_list) (length col_list)
    then ok (mkNamed (n_index data)
                     (combine new_col_list (map snd (n_columns data))))
    else raise (ValueError "Length mismatch").

Definition delete_mus (e : decomposition) (munumber : munumber_arg)
  (if_single_mu : string) (delete_delsys_muaps : bool) : result decomposition :=
  let n := NUMBER_OF_MUS (recording e) in
  if String.eqb if_single_mu "ignore" && (n <=? 1)%nat then ok e
  else if negb (String.eqb if_single_mu "ignore" || String.eqb if_single_mu "remove")
  then raise (ValueError "if_single_mu must be one of 'ignore' or 'remove'")
  else
    let labels := munumber_labels munumber in
    (accuracy <- drop_rows (ACCURACY e) labels ;;
     let accuracy := reset_index accuracy in
     ipts <- drop_cols (IPTS e) labels ;;
     let ipts := relabel_columns ipts in
     binary <- drop_cols (BINARY_MUS_FIRING e) labels ;;
     let binary := relabel_columns binary in
     '(mupulses, n') <-
        match munumber with
        | MuInt mu =>
            (m <- list_delitem (MUPULSES (recording e)) mu ;;
             n' <- number_minus n 1 ;;
             ok (m, n'))
        | MuList mus =>
            (m <- mapM (list_getitem (MUPULSES (recording e)))
                       (filter (fun mu => negb (existsb (Z.eqb (Z.of_nat mu)) mus))
                               (seq 0 n)) ;;
             n' <- number_minus n (length mus) ;;
             ok (m, n'))
        end ;;
     let '(ipts, binary, mupulses) :=
       if Nat.eqb n' 0
       then (empty_column_frame, empty_column_frame, [[]])
       else (ipts, binary, mupulses) in
     extras <-
       (if String.eqb (SOURCE e) "DELSYS" && delete_delsys_muaps
        then delete_delsys (EXTRAS e) labels n'
        else ok (EXTRAS e)) ;;
     ok (mkDecomposition
           (mkEmgfile (FSAMP (recording e)) (IED (recording e)) n' mupulses
                      (RAW_SIGNAL (recording e)))
           (SOURCE e) accuracy ipts binary extras))%result.

(** [delete_empty_mus]: the positions of the MUs without firings go to
    [delete_mus]. *)
Definition delete_empty_mus (e : decomposition) : result decomposition :=
  (ind <- mapM (fun i_mu =>
                  (pulses <- list_getitem (MUPULSES (recording e)) (snd i_mu) ;;
                   ok (if Nat.eqb (length pulses) 0 then [Z.of_nat (fst i_mu)] else []))%result)
               (enumerate (seq 0 (NUMBER_OF_MUS (recording e)))) ;;
   delete_mus e (MuList (concat ind)) "remove" true)%result.

(** The MUs that are not listed in [mus]. *)
Definition kept_mus (n : nat) (mus : list Z) : list nat :=
  filter (fun mu => negb (existsb (Z.eqb (Z.of_nat mu)) mus)) (seq 0 n).

(** The entries of a file agree on the number of MUs; a file without MUs
    holds the placeholders [delete_mus] writes. *)
Definition consistent (e : decomposition) : Prop :=
  let n := NUMBER_OF_MUS (recording e) in
  if Nat.eqb n 0
  then MUPULSES (recording e) = [[]]
       /\ index (ACCURACY e) = []
       /\ IPTS e = empty_column_frame
       /\ BINARY_MUS_FIRING e = empty_column_frame
  else length (MUPULSES (recording e)) = n
       /\ index (ACCURACY e) = range n
       /\ column_labels (IPTS e) = map Chan (range n)
       /\ column_labels (BINARY_MUS_FIRING e) = map Chan (range n).

(** The call is not stopped by the single-MU rule. *)
Definition goes_ahead (if_single_mu : string) (n : nat) : Prop :=
  if_single_mu = "remove"%string \/ (if_single_mu = "ignore"%string /\ (1 < n)%nat).

(** The Delsys branch is not taken. *)
Definition extras_untouched (e : decomposition) (delete_delsys_muaps : bool) : Prop :=
  SOURCE e <> "DELSYS"%string \/ delete_delsys_muaps = false.

Module ToolExamples.

(** A file of three MUs, the second of which never fires. *)
Definition three_mu_file : decomposition :=
  mkDecomposition
    (mkEmgfile 1000 8 3 [[1; 2]; []; [5]] Examples.raw_A)
    "OTB"
    (mkFrame (range 3) [(Chan 0, [Val (9 # 10); Val (8 # 10); Val (7 # 10)])])
    (mkFrame (range 2) [(Chan 0, [Val 1; Val 2]); (Chan 1, [Val 3; Val 4]);
                        (Chan 2, [Val 5; Val 6])])
    (mkFrame (range 2) [(Chan 0, [Val 1; Val 0]); (Chan 1, [Val 0; Val 0]);
                        (Chan 2, [Val 0; Val 1])])
    (mkNamed [] []).

End ToolExamples.

(** ** remove_duplicates_between *)

(** The arguments [remove_duplicates_between] hands to [tracking]:
    its own, with [exclude_belowthreshold=True]. *)
Definition with_exclusion (a : tracking_args) : tracking_args :=
  mkTrackingArgs (firings a) (derivation a) (timewindow a) (threshold a)
                 (sorting a) (custom_muaps a) true
                 (filter_results a) (multiprocessing a) (gui a).

(** [tracking_res["Inclusion"] == "Included"] on a row. *)
Definition is_included (r : row) : bool :=
  match Inclusion r with
  | Some Included => true
  | _ => false
  end.

(** [tracking_res[tracking_res["Inclusion"] == "Included"]]: a table
    without rows comes back from [tracking] without the column. *)
Definition included_pairs (tracking_res : table) : result table :=
  if is_empty tracking_res then raise (KeyError "Inclusion")
  else ok (filter is_included tracking_res).

(** [emgfile["ACCURACY"].loc[mu][0]]: the cell of the row labelled [mu] in
    the column labelled 0.  Repeated labels are left out. *)
Definition accuracy_of (e : decomposition) (mu : nat) : result sample :=
  match filter (fun ip => snd ip =? Z.of_nat mu) (enumerate (index (ACCURACY e))) with
  | [] => raise (KeyError "MU")
  | [(pos, _)] =>
      match filter (fun c => label_eqb (fst c) (Chan 0)) (columns (ACCURACY e)) with
      | [] => raise (KeyError "0")
      | [(_, data)] => ok (nth pos data NaN)
      | _ => raise (NotModelled "repeated column label")
      end
  | _ => raise (NotModelled "repeated index label")
  end.

(** [a <= b] on floats; a comparison with NaN is false. *)
Definition sample_leb (a b : sample) : bool :=
  match a, b with
  | Val x, Val y => Qle_bool x y
  | _, _ => false
  end.

(** The loop of the ["accuracy"] branch over the rows of the table. *)
Fixpoint accuracy_loop (emgfile1 emgfile2 : decomposition) (rows : table)
  (to_remove1 to_remove2 : list Z) : result (list Z * list Z) :=
  match rows with
  | [] => ok (to_remove1, to_remove2)
  | r :: rows' =>
      (acc1 <- accuracy_of emgfile1 (MU_file1 r) ;;
       acc2 <- accuracy_of emgfile2 (MU_file2 r) ;;
       if sample_leb acc1 acc2
       then accuracy_loop emgfile1 emgfile2 rows'
                          (to_remove1 ++ [Z.of_nat (MU_file1 r)]) to_remove2
       else accuracy_loop emgfile1 emgfile2 rows'
                          to_remove1 (to_remove2 ++ [Z.of_nat (MU_file2 r)]))%result
  end.

Section RemoveDuplicates.

Variable sort_rawemg : emgfile -> sort_args -> result grid.
Variable norm_twod_xcorr :
  frame -> frame -> xcorr_mode -> result (frame * sample).
Variable Parallel : forall A : Type, list (unit -> A) -> list A.
Variable gui_decision : nat -> inclusion.

Definition remove_duplicates_between (emgfile1 emgfile2 : decomposition)
  (args : tracking_args) (which : string)
  : traced (decomposition * decomposition * table) :=
  (tracking_res <-
     tracking sort_rawemg norm_twod_xcorr Parallel gui_decision
              (recording emgfile1) (recording emgfile2) (with_exclusion args) ;;
   tracking_res_cleaned <-
     tlift (if gui args then included_pairs tracking_res else ok tracking_res) ;;
   if String.eqb which "munumber"
   then
     if (NUMBER_OF_MUS (recording emgfile2) <=? NUMBER_OF_MUS (recording emgfile1))%nat
     then
       (let mus_to_remove :=
          map (fun r => Z.of_nat (MU_file1 r)) tracking_res_cleaned in
        emgfile1 <- tlift (delete_mus emgfile1 (MuList mus_to_remove) "remove" true) ;;
        tret (emgfile1, emgfile2, tracking_res))
     else
       (let mus_to_remove :=
          map (fun r => Z.of_nat (MU_file2 r)) tracking_res_cleaned in
        emgfile2 <- tlift (delete_mus emgfile2 (MuList mus_to_remove) "remove" true) ;;
        tret (emgfile1, emgfile2, tracking_res))
   else if String.eqb which "accuracy"
   then
     ('(to_remove1, to_remove2) <-
        tlift (accuracy_loop emgfile1 emgfile2 tracking_res_cleaned [] []) ;;
      emgfile1' <- tlift (delete_mus emgfile1 (MuList to_remove1) "remove" true) ;;
      emgfile2' <- tlift (delete_mus emgfile2 (MuList to_remove2) "remove" true) ;;
      tret (emgfile1', emgfile2', tracking_res))
   else tlift (raise (ValueError "which can be one of 'munumber' or 'accuracy'.")))%traced.

End RemoveDuplicates.

Module DuplicateExamples.

(** The two example recordings with the entries of a decomposition. *)
Definition with_entries (e : emgfile) : decomposition :=
  mkDecomposition e "OTB"
    (mkFrame (range 2) [(Chan 0, [Val (9 # 10); Val (8 # 10)])])
    (mkFrame (range 2) [(Chan 0, [Val 1; Val 2]); (Chan 1, [Val 3; Val 4])])
    (mkFrame (range 2) [(Chan 0, [Val 1; Val 0]); (Chan 1, [Val 0; Val 1])])
    (mkNamed [] []).

Definition file_A : decomposition := with_entries Examples.emgfile_A.
Definition file_B : decomposition := with_entries Examples.emgfile_B.

Definition filtered_args : tracking_args :=
  Examples.example_args "mono" (Val (4 # 5)) PyNone true true false.

End DuplicateExamples.

(** * Properties *)

(** ** Rounding *)

Lemma py_round_proper (x y : Q) : (x == y)%Q -> py_round x = py_round y.
Proof.
  intros E. unfold py_round.
  rewrite (Qfloor_comp _ _ E).
  assert (C : ((x - inject_Z (Qfloor y) ?= 1 # 2) = (y - inject_Z (Qfloor y) ?= 1 # 2))%Q).
  { apply Qcompare_comp; [rewrite E|]; reflexivity. }
  rewrite C. reflexivity.
Qed.

Lemma py_round_inject_Z (k : Z) : py_round (inject_Z k) = k.
Proof.
  unfold py_round. rewrite Qfloor_Z.
  assert (C : ((inject_Z k - inject_Z k ?= 1 # 2) = Lt)%Q).
  { rewrite <- Qlt_alt. lra. }
  rewrite C. reflexivity.
Qed.

Lemma Qle_bool_total (x y : Q) : Qle_bool x y = false -> Qle_bool y x = true.
Proof.
  intros H. apply Qle_bool_iff.
  destruct (Qlt_le_dec y x) as [L|L].
  - now apply Qlt_le_weak.
  - apply Qle_bool_iff in L. congruence.
Qed.

(** [round] moves its argument by at most one half. *)
Lemma py_round_close (x : Q) :
  (x - (1 # 2) <= inject_Z (py_round x) <= x + (1 # 2))%Q.
Proof.
  unfold py_round.
  pose proof (Qfloor_le x) as Hlo.
  pose proof (Qlt_floor x) as Hhi.
  rewrite inject_Z_plus in Hhi.
  change (inject_Z 1) with 1%Q in Hhi.
  destruct (Qcompare_spec (x - inject_Z (Qfloor x)) (1 # 2)) as [E|L|G].
  - destruct (Z.even (Qfloor x)).
    + lra.
    + rewrite inject_Z_plus. change (inject_Z 1) with 1%Q. lra.
  - lra.
  - rewrite inject_Z_plus. change (inject_Z 1) with 1%Q. lra.
Qed.

(** [round] of a half of an integer: exact for an even integer, the even
    neighbour for an odd one. *)
Lemma py_round_half (s : Z) :
  py_round (inject_Z s / 2) =
  if Z.even s then s / 2 else if Z.even (s / 2) then s / 2 else s / 2 + 1.
Proof.
  assert (Hf : Qfloor (inject_Z s / 2) = s / 2).
  { unfold Qdiv, Qmult, Qinv, inject_Z. cbn [Qnum Qden]. unfold Qfloor.
    rewrite Z.mul_1_r. reflexivity. }
  unfold py_round. rewrite Hf.
  pose proof (Z.div_mod s 2 ltac:(lia)) as Hdm.
  pose proof (Z.mod_pos_bound s 2 ltac:(lia)) as Hb.
  destruct (Z.even s) eqn:He.
  - apply Z.even_spec in He. destruct He as [k ->].
    replace (2 * k / 2) with k by (rewrite Z.mul_comm, Z.div_mul; lia).
    destruct (Qcompare_spec (inject_Z (2 * k) / 2 - inject_Z k) (1 # 2)) as [H|H|H].
    + exfalso. rewrite inject_Z_mult in H. unfold Qdiv in H.
      change (/ 2)%Q with (1 # 2)%Q in H. change (inject_Z 2) with 2%Q in H. lra.
    + reflexivity.
    + exfalso. rewrite inject_Z_mult in H. unfold Qdiv in H.
      change (/ 2)%Q with (1 # 2)%Q in H. change (inject_Z 2) with 2%Q in H. lra.
  - assert (Ho : Z.odd s = true) by (rewrite <- Z.negb_even, He; reflexivity).
    apply Z.odd_spec in Ho. destruct Ho as [k ->].
    replace ((2 * k + 1) / 2) with k
      by (apply Z.div_unique with 1; lia).
    destruct (Qcompare_spec (inject_Z (2 * k + 1) / 2 - inject_Z k) (1 # 2)) as [H|H|H].
    + reflexivity.
    + exfalso. rewrite inject_Z_plus, inject_Z_mult in H. unfold Qdiv in H.
      change (/ 2)%Q with (1 # 2)%Q in H. change (inject_Z 2) with 2%Q in H.
      change (inject_Z 1) with 1%Q in H. lra.
    + exfalso. rewrite inject_Z_plus, inject_Z_mult in H. unfold Qdiv in H.
      change (/ 2)%Q with (1 # 2)%Q in H. change (inject_Z 2) with 2%Q in H.
      change (inject_Z 1) with 1%Q in H. lra.
Qed.

(** ** Floats *)

Lemma Qscale_pos (x : Q) (k : Z) : (0 < x)%Q -> (0 < Qscale x k)%Q.
Proof.
  intros Hx. unfold Qscale.
  destruct (0 <=? k) eqn:E.
  - apply Z.leb_le in E.
    assert (H : (0 < inject_Z (2 ^ k))%Q).
    { change 0%Q with (inject_Z 0). rewrite <- Zlt_Qlt.
      apply Z.pow_pos_nonneg; lia. }
    nra.
  - apply Z.leb_gt in E.
    assert (H : (0 < inject_Z (2 ^ (- k)))%Q).
    { change 0%Q with (inject_Z 0). rewrite <- Zlt_Qlt.
      apply Z.pow_pos_nonneg; lia. }
    apply Qlt_shift_div_l; [exact H | lra].
Qed.

Lemma Qscale_back (x : Q) (k : Z) : (Qscale (Qscale x (- k)) k == x)%Q.
Proof.
  unfold Qscale.
  destruct (0 <=? k) eqn:E1; destruct (0 <=? - k) eqn:E2.
  - apply Z.leb_le in E1, E2. assert (k = 0) as -> by lia.
    cbn. unfold Qmult, Qeq; cbn. lia.
  - apply Z.leb_le in E1. rewrite Z.opp_involutive.
    assert (H : (0 < inject_Z (2 ^ k))%Q).
    { change 0%Q with (inject_Z 0). rewrite <- Zlt_Qlt.
      apply Z.pow_pos_nonneg; lia. }
    field. lra.
  - apply Z.leb_le in E2.
    assert (H : (0 < inject_Z (2 ^ (- k)))%Q).
    { change 0%Q with (inject_Z 0). rewrite <- Zlt_Qlt.
      apply Z.pow_pos_nonneg; lia. }
    field. lra.
  - apply Z.leb_gt in E1, E2. lia.
Qed.

Lemma Qscale_unit (x : Q) (k : Z) : (Qscale x k == x * Qscale 1 k)%Q.
Proof.
  unfold Qscale. destruct (0 <=? k) eqn:E.
  - ring.
  - apply Z.leb_gt in E.
    assert (H : (0 < inject_Z (2 ^ (- k)))%Q).
    { change 0%Q with (inject_Z 0). rewrite <- Zlt_Qlt.
      apply Z.pow_pos_nonneg; lia. }
    field. lra.
Qed.

(** [binary64] rounds to nearest: the result is a multiple of the unit of
    its grid and lies within half a unit of the argument. *)
Lemma binary64_nearest (x : Q) :
  exists m : Z,
    (binary64 x == Qscale (inject_Z m) (ulp_exponent x))%Q
    /\ (Qabs (binary64 x - x) <= Qscale (1 # 2) (ulp_exponent x))%Q.
Proof.
  unfold binary64.
  set (q := ulp_exponent x).
  assert (Hu : (0 < Qscale 1 q)%Q) by (apply Qscale_pos; reflexivity).
  destruct (Qeq_bool x 0) eqn:Ez.
  - apply Qeq_bool_iff in Ez. exists 0. split.
    + rewrite Qscale_unit. change (inject_Z 0) with 0%Q. ring.
    + setoid_replace (0 - x)%Q with 0%Q by (rewrite Ez; ring).
      apply Qlt_le_weak. apply Qscale_pos. reflexivity.
  - set (a := Qabs x).
    set (m := py_round (Qscale a (- q))).
    pose proof (py_round_close (Qscale a (- q))) as Hc. fold m in Hc.
    pose proof (Qscale_unit (inject_Z m) q) as Hm.
    pose proof (Qscale_unit (Qscale a (- q)) q) as Ha.
    rewrite Qscale_back in Ha.
    pose proof (Qscale_unit (1 # 2) q) as Hh.
    assert (Hd : (Qabs (Qscale (inject_Z m) q - a) <= Qscale (1 # 2) q)%Q).
    { rewrite Hh, Hm. apply Qabs_Qle_condition.
      set (u := Qscale 1 q) in *. set (s := Qscale a (- q)) in *.
      destruct Hc as [Hc1 Hc2].
      assert (H1 : (0 <= (inject_Z m - (s - (1 # 2))) * u)%Q)
        by (apply Qmult_le_0_compat; lra).
      assert (H2 : (0 <= (s + (1 # 2) - inject_Z m) * u)%Q)
        by (apply Qmult_le_0_compat; lra).
      split; lra. }
    destruct (Qle_bool 0 x) eqn:Es.
    + apply Qle_bool_iff in Es. exists m. split.
      * rewrite Qred_correct. reflexivity.
      * rewrite Qred_correct.
        assert (Hx : (x == a)%Q) by (unfold a; rewrite Qabs_pos; [reflexivity|exact Es]).
        rewrite Hx at 1. exact Hd.
    + apply Qle_bool_total in Es. apply Qle_bool_iff in Es.
      exists (- m). split.
      * rewrite !Qred_correct.
        rewrite (Qscale_unit (inject_Z (- m)) q), Hm, inject_Z_opp. ring.
      * rewrite !Qred_correct.
        assert (Hx : (x == - a)%Q).
        { unfold a. rewrite Qabs_neg; [ring | exact Es]. }
        rewrite Hx at 1.
        setoid_replace (- Qscale (inject_Z m) q - - a)%Q
          with (- (Qscale (inject_Z m) q - a))%Q by ring.
        rewrite Qabs_opp. exact Hd.
Qed.

(** The product of 71 ms and 2500 Hz falls just short of 177.5 in floats:
    177 samples, 88 on either side of a firing. *)
Lemma window_71_ms_2500_Hz :
  (Window.product 71 2500 < 355 # 2)%Q
  /\ Window.timewindow_samples 71 2500 = 177
  /\ Window.halftime 71 2500 = 88
  /\ Window.tottime 71 2500 = 176.
Proof. repeat split. Qed.

(** ** C9: conversion of the time window into samples *)

(** C9, as stated, fails: at 30 ms and 2048 Hz the code rounds 61.44 to 61
    samples and then 30.5 to 30, while the one-step formula of the
    specification rounds 30.72 to 31. *)
Lemma window_two_step_differs :
  Window.halftime 30 2048 = 30
  /\ Window.spec_halfwindow 30 2048 = 31
  /\ Window.halftime 30 2048 <> Window.spec_halfwindow 30 2048.
Proof. repeat split; vm_compute; congruence. Qed.

(** C9 (amended): for every time window and sampling rate, [sta] and
    [st_muap] convert in two rounding steps.  With [P] the float product
    [(timewindow / 1000) * fsamp],
    [timewindow_samples = round(P)],
    [halftime = round(timewindow_samples / 2)] and
    [tottime = 2 * halftime].  An even [timewindow_samples] is kept as
    [tottime]; an odd one moves by one sample to the multiple of 4 next to
    it.  [halftime] is within one sample of [round(P / 2)] and equals it
    whenever [P] is a whole number; it is within one sample of the
    one-step formula of the specification,
    [round(timewindow/1000 * fsamp / 2)] over the reals, as long as [P]
    is within a sample and a half of the real product. *)
Theorem window_conversion (timewindow fsamp : Q) :
  Window.halftime timewindow fsamp
  = py_round (inject_Z (py_round (Window.product timewindow fsamp)) / 2)
  /\ Window.tottime timewindow fsamp = 2 * Window.halftime timewindow fsamp
  /\ (Z.even (Window.timewindow_samples timewindow fsamp) = true ->
      Window.tottime timewindow fsamp
      = Window.timewindow_samples timewindow fsamp)
  /\ (Z.even (Window.timewindow_samples timewindow fsamp) = false ->
      Z.abs (Window.tottime timewindow fsamp
             - Window.timewindow_samples timewindow fsamp) = 1
      /\ Window.tottime timewindow fsamp mod 4 = 0)
  /\ Z.abs (Window.halftime timewindow fsamp
            - py_round (Window.product timewindow fsamp / 2)) <= 1
  /\ (forall k : Z,
         (Window.product timewindow fsamp == inject_Z k)%Q ->
         Window.halftime timewindow fsamp
         = py_round (Window.product timewindow fsamp / 2))
  /\ ((Qabs (Window.product timewindow fsamp - timewindow / 1000 * fsamp)
       < 3 # 2)%Q ->
      Z.abs (Window.halftime timewindow fsamp
             - Window.spec_halfwindow timewindow fsamp) <= 1).
Proof.
  split; [reflexivity|].
  split; [unfold Window.tottime; lia|].
  split; [|split; [|split; [|split]]].
  - intros He. unfold Window.tottime, Window.halftime.
    rewrite py_round_half, He.
    set (s := Window.timewindow_samples timewindow fsamp) in *.
    apply Z.even_spec in He. destruct He as [k Hk].
    assert (Hd : s / 2 = k) by (symmetry; apply Z.div_unique with 0; lia).
    lia.
  - intros He. unfold Window.tottime, Window.halftime.
    rewrite py_round_half, He.
    set (s := Window.timewindow_samples timewindow fsamp) in *.
    assert (Ho : Z.odd s = true) by (rewrite <- Z.negb_even, He; reflexivity).
    apply Z.odd_spec in Ho. destruct Ho as [k Hk].
    assert (Hd : s / 2 = k) by (symmetry; apply Z.div_unique with 1; lia).
    rewrite Hd.
    destruct (Z.even k) eqn:Ek.
    + apply Z.even_spec in Ek. destruct Ek as [j ->].
      split; [lia|]. replace (2 * j * 2) with (j * 4) by lia.
      apply Z.mod_mul. lia.
    + assert (Hok : Z.odd k = true) by (rewrite <- Z.negb_even, Ek; reflexivity).
      apply Z.odd_spec in Hok. destruct Hok as [j ->].
      split; [lia|]. replace ((2 * j + 1 + 1) * 2) with ((j + 1) * 4) by lia.
      apply Z.mod_mul. lia.
  - unfold Window.halftime, Window.timewindow_samples.
    set (x := Window.product timewindow fsamp).
    pose proof (py_round_close x) as H1.
    pose proof (py_round_close (inject_Z (py_round x) / 2)) as H2.
    pose proof (py_round_close (x / 2)) as H3.
    set (a := py_round (inject_Z (py_round x) / 2)) in *.
    set (b := py_round (x / 2)) in *.
    unfold Qdiv in H2, H3. change (/ 2)%Q with (1 # 2)%Q in H2, H3.
    assert (Ha : (inject_Z a < inject_Z (b + 2))%Q).
    { rewrite inject_Z_plus. change (inject_Z 2) with 2%Q. lra. }
    assert (Hb : (inject_Z b < inject_Z (a + 2))%Q).
    { rewrite inject_Z_plus. change (inject_Z 2) with 2%Q. lra. }
    rewrite <- Zlt_Qlt in Ha, Hb. lia.
  - intros k Hk.
    unfold Window.halftime, Window.timewindow_samples.
    rewrite (py_round_proper _ _ Hk), py_round_inject_Z.
    apply py_round_proper. rewrite Hk. reflexivity.
  - intros He.
    unfold Window.halftime, Window.spec_halfwindow, Window.timewindow_samples.
    set (p := Window.product timewindow fsamp) in *.
    set (x := (timewindow / 1000 * fsamp)%Q) in *.
    apply Qabs_Qlt_condition in He.
    pose proof (py_round_close p) as H1.
    pose proof (py_round_close (inject_Z (py_round p) / 2)) as H2.
    pose proof (py_round_close (x / 2)) as H3.
    set (a := py_round (inject_Z (py_round p) / 2)) in *.
    set (b := py_round (x / 2)) in *.
    unfold Qdiv in H2, H3. change (/ 2)%Q with (1 # 2)%Q in H2, H3.
    assert (Ha : (inject_Z a < inject_Z (b + 2))%Q).
    { rewrite inject_Z_plus. change (inject_Z 2) with 2%Q. lra. }
    assert (Hb : (inject_Z b < inject_Z (a + 2))%Q).
    { rewrite inject_Z_plus. change (inject_Z 2) with 2%Q. lra. }
    rewrite <- Zlt_Qlt in Ha, Hb. lia.
Qed.

Lemma window_conversion_witness :
  (Window.product 50 2000 == inject_Z 100)%Q
  /\ Window.halftime 50 2000 = py_round (Window.product 50 2000 / 2)
  /\ Z.even (Window.timewindow_samples 50 2000) = true
  /\ Window.tottime 50 2000 = Window.timewindow_samples 50 2000
  /\ Z.even (Window.timewindow_samples 71 2500) = false
  /\ Z.abs (Window.tottime 71 2500 - Window.timewindow_samples 71 2500) = 1
  /\ Window.tottime 71 2500 mod 4 = 0
  /\ (Qabs (Window.product 71 2500 - 71 / 1000 * 2500) < 3 # 2)%Q
  /\ Z.abs (Window.halftime 71 2500 - Window.spec_halfwindow 71 2500) <= 1.
Proof.
  assert (H1 : (Window.product 50 2000 == inject_Z 100)%Q)
    by (vm_compute; reflexivity).
  assert (H2 : Z.even (Window.timewindow_samples 50 2000) = true)
    by (vm_compute; reflexivity).
  assert (H3 : Z.even (Window.timewindow_samples 71 2500) = false)
    by (vm_compute; reflexivity).
  assert (H4 : (Qabs (Window.product 71 2500 - 71 / 1000 * 2500) < 3 # 2)%Q)
    by (vm_compute; reflexivity).
  destruct (window_conversion 50 2000) as (_ & _ & Ev & _ & _ & Wh & _).
  destruct (window_conversion 71 2500) as (_ & _ & _ & Od & _ & _ & Sp).
  destruct (Od H3) as [Od1 Od2].
  split; [exact H1|].
  split; [exact (Wh 100 H1)|].
  split; [exact H2|].
  split; [exact (Ev H2)|].
  split; [exact H3|].
  split; [exact Od1|].
  split; [exact Od2|].
  split; [exact H4|].
  exact (Sp H4).
Defined.

(** ** Generic facts on the error monad and on dicts *)

Lemma rbind_inr {A B} (m : result A) (k : A -> result B) (b : B) :
  rbind m k = inr b -> exists a, m = inr a /\ k a = inr b.
Proof.
  destruct m as [e|a]; simpl; intros H; [discriminate|eauto].
Qed.

Lemma mapM_inr {A B} (f : A -> result B) (xs : list A) (ys : list B) :
  mapM f xs = inr ys -> Forall2 (fun x y => f x = inr y) xs ys.
Proof.
  revert ys. induction xs as [|x xs IH]; simpl; intros ys H.
  - inversion H. constructor.
  - apply rbind_inr in H. destruct H as (y & Hy & H).
    apply rbind_inr in H. destruct H as (ys' & Hys & H).
    inversion H; subst. constructor; auto.
Qed.

Lemma dict_set_Forall {K V} (eqb : K -> K -> bool) (P : K * V -> Prop)
  (d : dict K V) (k : K) (v : V) :
  Forall P d -> (forall k', P (k', v)) -> Forall P (dict_set eqb d k v).
Proof.
  intros Hd Hv. induction d as [|[k' v'] d IH]; simpl.
  - constructor; auto.
  - inversion Hd; subst. destruct (eqb k' k); constructor; auto.
Qed.

(** ** sta: shape of the templates *)

Module StaFacts.

Import Sta.

Lemma complete_windows_span emg_array thismups halftime tottime :
  Forall (fun ls => Z.of_nat (length ls) = tottime)
         (complete_windows emg_array thismups halftime tottime).
Proof.
  unfold complete_windows. apply Forall_forall. intros ls H.
  apply filter_In in H. destruct H as [_ H]. now apply Z.eqb_eq in H.
Qed.

Lemma np_full_span t v a :
  np_full t v = inr a -> Z.of_nat (length a) = t.
Proof.
  unfold np_full. destruct (t <? 0) eqn:E; [discriminate|].
  intros H. inversion H. rewrite repeat_length. apply Z.ltb_ge in E. lia.
Qed.

Lemma sta_values_span emg_array thismups halftime tottime vs :
  sta_values emg_array thismups halftime tottime = inr vs ->
  Forall (fun ls => Z.of_nat (length ls) = tottime) vs.
Proof.
  unfold sta_values. destruct (0 <? length thismups)%nat.
  - intros H. inversion H. apply complete_windows_span.
  - destruct (forallb isnan emg_array); intros H;
      apply rbind_inr in H; destruct H as (a & Ha & H); inversion H;
      constructor; eauto using np_full_span.
Qed.

Lemma zip_add_length a b :
  length a = length b -> length (zip_add a b) = length a.
Proof.
  revert b. induction a as [|x a IH]; intros [|y b]; simpl; intros H;
    try reflexivity; try discriminate.
  f_equal. apply IH. now inversion H.
Qed.

Lemma fold_zip_add_length rest v :
  Forall (fun w => length w = length v) rest ->
  length (fold_left zip_add rest v) = length v.
Proof.
  revert v. induction rest as [|w rest IH]; intros v H; simpl.
  - reflexivity.
  - inversion H as [|? ? Hw Hrest]; subst.
    assert (L : length (zip_add v w) = length v) by (apply zip_add_length; auto).
    rewrite IH; [exact L|].
    eapply Forall_impl; [|exact Hrest]. simpl. intros u Hu. congruence.
Qed.

Lemma np_mean_spans t vs m :
  Forall (fun ls => Z.of_nat (length ls) = t) vs ->
  np_mean_axis0 vs = inr m -> mean_spans t m.
Proof.
  destruct vs as [|v rest]; simpl; intros Hvs H.
  - inversion H. exact I.
  - destruct (forallb _ rest) eqn:E; [|discriminate].
    inversion H. simpl. rewrite length_map.
    apply Forall_inv in Hvs.
    rewrite fold_zip_add_length; [assumption|].
    apply Forall_forall. intros w Hw.
    rewrite forallb_forall in E. specialize (E w Hw).
    now apply Nat.eqb_eq in E.
Qed.

Lemma row_loop_spans cols thismups halftime tottime acc d :
  Forall (fun kv => mean_spans tottime (snd kv)) acc ->
  row_loop cols thismups halftime tottime acc = inr d ->
  Forall (fun kv => mean_spans tottime (snd kv)) d.
Proof.
  revert acc. induction cols as [|[row emg_array] cols IH]; simpl; intros acc Hacc H.
  - inversion H; subst; assumption.
  - apply rbind_inr in H. destruct H as (vs & Hvs & H).
    apply rbind_inr in H. destruct H as (m & Hm & H).
    eapply IH; [|exact H].
    apply dict_set_Forall; [assumption|]. intros ?. simpl.
    eapply np_mean_spans; [|exact Hm]. eapply sta_values_span; eauto.
Qed.

Lemma mean_lengths_span t d :
  Forall (fun kv => mean_spans t (snd kv)) d ->
  Forall (fun n => Z.of_nat n = t) (mean_lengths d).
Proof.
  induction 1 as [|[k m] d Hm Hd IH]; simpl.
  - constructor.
  - destruct m; simpl; [assumption|]. constructor; assumption.
Qed.

Lemma DataFrame_of_dict_spans t d fr :
  Forall (fun kv => mean_spans t (snd kv)) d ->
  DataFrame_of_dict d = inr fr -> frame_spans t fr.
Proof.
  intros Hd. unfold DataFrame_of_dict, frame_spans.
  destruct d as [|kv d']; [intros H; inversion H; constructor|].
  pose proof (mean_lengths_span _ _ Hd) as Hl.
  destruct (mean_lengths (kv :: d')) as [|n ns]; [discriminate|].
  destruct (forallb (Nat.eqb n) ns); [|discriminate].
  intros H. unfold ok in H. injection H as <-. cbn [columns].
  change (Forall (fun c : label * list sample => Z.of_nat (length (snd c)) = t)
                 (map (fun kv => (fst kv, broadcast n (snd kv))) (kv :: d'))).
  apply Forall_map. apply Forall_inv in Hl.
  eapply Forall_impl; [|exact Hd]. intros [k m] Hm. simpl in *.
  destruct m; simpl; [now rewrite repeat_length|assumption].
Qed.

Lemma sta_column_spans df thismups halftime tottime fr :
  sta_column df thismups halftime tottime = inr fr -> frame_spans tottime fr.
Proof.
  unfold sta_column. intros H.
  apply rbind_inr in H. destruct H as (d & Hd & H).
  eapply DataFrame_of_dict_spans; [|exact H].
  eapply row_loop_spans; [|exact Hd]. constructor.
Qed.

Lemma col_loop_spans g thismups halftime tottime acc d :
  Forall (fun kv => frame_spans tottime (snd kv)) acc ->
  col_loop g thismups halftime tottime acc = inr d ->
  Forall (fun kv => frame_spans tottime (snd kv)) d.
Proof.
  revert acc. induction g as [|[col df] g IH]; simpl; intros acc Hacc H.
  - inversion H; subst; assumption.
  - apply rbind_inr in H. destruct H as (fr & Hfr & H).
    eapply IH; [|exact H].
    apply dict_set_Forall; [assumption|]. intros ?. simpl.
    eapply sta_column_spans; eauto.
Qed.

(** Whenever [sta] returns, every template row of every MU and matrix
    column has [tottime] samples. *)
Lemma sta_rows_span e sorted_rawemg firings timewindow d :
  sta e sorted_rawemg firings timewindow = inr d ->
  Forall (fun mu_sta =>
            Forall (fun kv => frame_spans (Window.tottime timewindow (FSAMP e))
                                          (snd kv))
                   (snd mu_sta))
         d.
Proof.
  unfold sta. intros H.
  destruct (Window.overflow timewindow (FSAMP e)); [discriminate|].
  apply mapM_inr in H.
  induction H as [|mu [mu' cols] mus d' Hmu _ IH]; constructor; [|exact IH].
  unfold sta_one_mu in Hmu.
  apply rbind_inr in Hmu. destruct Hmu as (pulses & _ & Hmu).
  destruct firings as [|lo hi];
    apply rbind_inr in Hmu; destruct Hmu as (s & Hs & Hmu);
    inversion Hmu; subst; simpl;
    eapply col_loop_spans; try exact Hs; constructor.
Qed.

End StaFacts.

(** C2: [sta] does not deliver a row of [tottime] samples when the firing
    train is not empty and none of its windows is complete.  With a single
    firing at sample 3 and a window of 20 samples the only slice,
    [emg_array[-7:13]], is empty and is discarded; [np.mean] of the empty
    list is a scalar and [pd.DataFrame] refuses a dict of scalars. *)
Theorem sta_all_windows_discarded :
  Window.tottime 20 (FSAMP Examples.edge_emgfile) = 20
  /\ Sta.complete_windows (Examples.channel 64 [(5%nat, 1%Q)]) [3] 10 20 = []
  /\ Sta.sta Examples.edge_emgfile Examples.edge_grid FiringsAll 20
     = inl (ValueError "If using all scalar values, you must pass an index").
Proof. repeat split; vm_compute; reflexivity. Qed.

(** ** unpack_sta and pack_sta *)

Module PackFacts.

Lemma label_eqb_eq (a b : label) : label_eqb a b = true <-> a = b.
Proof.
  revert b. induction a as [x|a IH s]; intros [y|b t]; simpl;
    try (split; [discriminate|congruence]).
  - rewrite Z.eqb_eq. split; congruence.
  - rewrite andb_true_iff, IH. split.
    + intros [-> H]. destruct s, t; simpl in H; congruence.
    + intros H. inversion H; subst. split; [reflexivity|now destruct t].
Qed.

Lemma mem_label_false (l : label) (ls : list label) :
  ~ In l ls -> mem_label l ls = false.
Proof.
  intros H. unfold mem_label. apply not_true_is_false. intros E.
  apply existsb_exists in E. destruct E as (x & Hx & E).
  apply label_eqb_eq in E. subst. contradiction.
Qed.

Lemma flat_map_singleton {A B} (f : A -> list B) (g : A -> B) (l : list A) :
  (forall x, In x l -> f x = [g x]) -> flat_map f l = map g l.
Proof.
  induction l as [|x l IH]; simpl; intros H; [reflexivity|].
  rewrite (H x (or_introl eq_refl)). simpl. f_equal. apply IH. auto.
Qed.

Lemma In_combine_seq {A} (l : list A) (s i : nat) (x : A) :
  In (i, x) (combine (seq s (length l)) l) ->
  (s <= i)%nat /\ nth_error l (i - s) = Some x.
Proof.
  revert s. induction l as [|y l IH]; simpl; intros s H; [contradiction|].
  destruct H as [H|H].
  - inversion H; subst. split; [lia|]. now rewrite Nat.sub_diag.
  - apply IH in H. destruct H as [Hle Hn]. split; [lia|].
    replace (i - s)%nat with (S (i - S s)) by lia. exact Hn.
Qed.

Lemma filter_none {A} (f : A -> bool) (l : list A) :
  (forall x, In x l -> f x = false) -> filter f l = [].
Proof.
  induction l as [|x l IH]; simpl; intros H; [reflexivity|].
  rewrite (H x (or_introl eq_refl)). apply IH. auto.
Qed.

Lemma filter_combine_seq_NoDup (l : list Z) (s i : nat) (x : Z) :
  NoDup l -> nth_error l i = Some x ->
  filter (fun jq : nat * Z => snd jq =? x) (combine (seq s (length l)) l)
  = [((s + i)%nat, x)].
Proof.
  revert s i. induction l as [|y l IH]; intros s i Hnd Hn.
  - destruct i; discriminate.
  - inversion Hnd as [|? ? Hy Hl]; subst. simpl.
    destruct i as [|i]; simpl in Hn.
    + inversion Hn; subst. rewrite Z.eqb_refl, Nat.add_0_r. f_equal.
      apply filter_none. intros [j z] Hj. simpl.
      apply Z.eqb_neq. intros ->.
      apply in_combine_r in Hj. contradiction.
    + assert (Hyx : y <> x).
      { intros ->. apply Hy. eapply nth_error_In; eauto. }
      apply Z.eqb_neq in Hyx. rewrite Hyx.
      rewrite (IH (S s) i Hl Hn). f_equal. f_equal. lia.
Qed.

Lemma map_fst_combine_seq {A} (l : list A) (s : nat) :
  map fst (combine (seq s (length l)) l) = seq s (length l).
Proof.
  revert s. induction l as [|x l IH]; simpl; intros s; [reflexivity|].
  now rewrite IH.
Qed.

Lemma map_snd_combine_seq {A} (l : list A) (s : nat) :
  map snd (combine (seq s (length l)) l) = l.
Proof.
  revert s. induction l as [|x l IH]; simpl; intros s; [reflexivity|].
  now rewrite IH.
Qed.

(** On a duplicate-free index joined with itself every row meets itself. *)
Lemma join_positions_same (idx : list Z) :
  NoDup idx ->
  join_positions idx idx = map (fun i => (i, i)) (seq 0 (length idx)).
Proof.
  intros Hnd. unfold join_positions, enumerate.
  rewrite (flat_map_singleton _ (fun ip : nat * Z => (fst ip, fst ip))).
  - rewrite <- (map_fst_combine_seq idx 0) at 2. now rewrite map_map.
  - intros [i x] Hin. simpl.
    apply In_combine_seq in Hin. destruct Hin as [_ Hn].
    rewrite Nat.sub_0_r in Hn.
    now rewrite (filter_combine_seq_NoDup idx 0 i x Hnd Hn).
Qed.

Lemma map_nth_seq_id {A} (l : list A) (d : A) :
  map (fun p => nth p l d) (seq 0 (length l)) = l.
Proof.
  apply (nth_ext _ _ d d).
  - now rewrite length_map, length_seq.
  - intros n Hn. rewrite length_map, length_seq in Hn.
    rewrite (nth_indep _ d (nth 0 l d)) by now rewrite length_map, length_seq.
    rewrite (map_nth (fun p => nth p l d) (seq 0 (length l)) 0%nat n).
    now rewrite seq_nth.
Qed.

(** Two frames over one duplicate-free index and with disjoint labels
    merge into that index with the columns side by side. *)
Lemma pd_merge_same_index (left right : frame) (idx : list Z) :
  NoDup idx ->
  index left = idx -> index right = idx ->
  frame_wf left -> frame_wf right ->
  (forall l, In l (column_labels left) -> ~ In l (column_labels right)) ->
  pd_merge left right = mkFrame idx (columns left ++ columns right).
Proof.
  intros Hnd Hl Hr Wl Wr Hdisj. unfold pd_merge.
  rewrite Hl, Hr, (join_positions_same idx Hnd). f_equal.
  - rewrite map_map. simpl. apply map_nth_seq_id.
  - rewrite !map_map. simpl. rewrite map_id. f_equal.
    + rewrite <- (map_id (columns left)) at 2.
      apply map_ext_in. intros [l v] Hin. simpl. f_equal.
      * unfold merge_rename. rewrite mem_label_false; [reflexivity|].
        apply Hdisj. unfold column_labels. now apply (in_map fst) in Hin.
      * unfold frame_wf in Wl. rewrite Forall_forall in Wl.
        specialize (Wl _ Hin). simpl in Wl. rewrite Hl in Wl.
        unfold take_rows. rewrite <- Wl. apply map_nth_seq_id.
    + rewrite <- (map_id (columns right)) at 2.
      apply map_ext_in. intros [l v] Hin. simpl. f_equal.
      * unfold merge_rename. rewrite mem_label_false; [reflexivity|].
        intros Hc. apply (Hdisj l Hc). unfold column_labels.
        now apply (in_map fst) in Hin.
      * unfold frame_wf in Wr. rewrite Forall_forall in Wr.
        specialize (Wr _ Hin). simpl in Wr. rewrite Hr in Wr.
        unfold take_rows. rewrite <- Wr. apply map_nth_seq_id.
Qed.

Lemma fold_pd_merge (idx : list Z) (dfs : list frame) (df : frame) :
  NoDup idx ->
  aligned_frames idx (df :: dfs) ->
  NoDup (all_labels (df :: dfs)) ->
  fold_left pd_merge dfs df
  = mkFrame idx (concat (map columns (df :: dfs))).
Proof.
  intros Hnd. revert df. induction dfs as [|d dfs IH]; intros df Hal Hlab.
  - simpl. rewrite app_nil_r. inversion Hal as [|? ? [Hi _] _]; subst.
    now destruct df.
  - inversion Hal as [|? ? [Hi Hw] Hal']; subst.
    inversion Hal' as [|? ? [Hi' Hw'] Hal'']; subst.
    simpl fold_left.
    unfold all_labels in Hlab. simpl in Hlab.
    rewrite (pd_merge_same_index df d (index df)); auto.
    + rewrite IH.
      * simpl. now rewrite app_assoc.
      * constructor; [|assumption]. split; [reflexivity|].
        unfold frame_wf. simpl. apply Forall_app. split; [exact Hw|].
        unfold frame_wf in Hw'. now rewrite Hi' in Hw'.
      * unfold all_labels. simpl. unfold column_labels at 1. simpl.
        rewrite map_app. fold (column_labels df) (column_labels d).
        now rewrite <- app_assoc.
    + intros l Hl Hr. rewrite app_assoc in Hlab.
      apply NoDup_app_remove_r in Hlab.
      revert Hl Hr. clear - Hlab. revert Hlab.
      generalize (column_labels df) as a, (column_labels d) as b.
      induction a as [|x a IHa]; simpl; intros b Hnd Hl Hr; [contradiction|].
      inversion Hnd as [|? ? Hx Hnd']; subst.
      destruct Hl as [->|Hl].
      * apply Hx. apply in_or_app. now right.
      * eapply IHa; eauto.
Qed.

Lemma dict_get_In {V} (d : dict string V) (k : string) (v : V) :
  NoDup (dict_keys d) -> In (k, v) d -> dict_get d k = inr v.
Proof.
  unfold dict_keys. induction d as [|[k' v'] d IH]; simpl; intros Hnd Hin.
  - contradiction.
  - inversion Hnd as [|? ? Hk Hnd']; subst.
    destruct Hin as [Hin|Hin].
    + inversion Hin; subst. now rewrite String.eqb_refl.
    + destruct (String.eqb_spec k' k) as [->|Hne].
      * exfalso. apply Hk. now apply (in_map fst) in Hin.
      * auto.
Qed.

Lemma mapM_keys {V} (f : string -> result V) (d : dict string V) :
  (forall k v, In (k, v) d -> f k = inr v) ->
  mapM f (dict_keys d) = inr (dict_values d).
Proof.
  unfold dict_keys, dict_values.
  induction d as [|[k v] d IH]; simpl; intros H; [reflexivity|].
  rewrite (H k v (or_introl eq_refl)). simpl.
  rewrite IH by auto. reflexivity.
Qed.

(** What [unpack_sta] returns on a non-empty template whose frames are
    aligned and labelled apart. *)
Lemma unpack_sta_aligned (idx : list Z) (sta_mu : sta_mu_dict) :
  sta_mu <> [] ->
  NoDup (dict_keys sta_mu) -> NoDup idx ->
  aligned_frames idx (dict_values sta_mu) ->
  NoDup (all_labels (dict_values sta_mu)) ->
  unpack_sta sta_mu
  = inr (mkFrame idx (concat (map columns (dict_values sta_mu))),
         dict_keys sta_mu).
Proof.
  intros Hne Hk Hnd Hal Hlab. unfold unpack_sta.
  rewrite (mapM_keys (dict_get sta_mu) sta_mu)
    by (intros k v Hin; now apply dict_get_In).
  simpl. destruct (dict_values sta_mu) as [|df dfs] eqn:E.
  - destruct sta_mu; [contradiction|discriminate].
  - simpl. now rewrite (fold_pd_merge idx dfs df Hnd Hal Hlab).
Qed.

Lemma length_concat_const {A} (ls : list (list A)) (c : nat) :
  Forall (fun l => length l = c) ls ->
  length (concat ls) = (length ls * c)%nat.
Proof.
  induction 1 as [|l ls Hl _ IH]; simpl; [reflexivity|].
  rewrite length_app, IH, Hl. reflexivity.
Qed.

Lemma pack_slice_exact (k c : nat) :
  (0 < k)%nat -> pack_slice (k * c) k = inr (Z.of_nat c).
Proof.
  intros Hk. unfold pack_slice. destruct k as [|k']; [lia|].
  set (k := S k') in *. unfold ok. f_equal.
  rewrite <- (Qceiling_Z (Z.of_nat c)). apply Qceiling_comp.
  rewrite Nat2Z.inj_mul, inject_Z_mult.
  field. intros H.
  unfold Qeq in H. simpl in H. subst k. lia.
Qed.

Lemma dict_set_fresh {V} (d : dict string V) (k : string) (v : V) :
  ~ In k (dict_keys d) -> dict_set String.eqb d k v = d ++ [(k, v)].
Proof.
  unfold dict_keys. induction d as [|[k' v'] d IH]; simpl; intros H.
  - reflexivity.
  - destruct (String.eqb_spec k' k) as [->|Hne].
    + exfalso. apply H. now left.
    + f_equal. apply IH. tauto.
Qed.

(** A dict comprehension over distinct keys lists its items in order. *)
Lemma fold_dict_set {V} (g : nat * string -> V) (l : list (nat * string))
  (acc : dict string V) :
  NoDup (dict_keys acc ++ map snd l) ->
  fold_left (fun packed pk => dict_set String.eqb packed (snd pk) (g pk)) l acc
  = acc ++ map (fun pk => (snd pk, g pk)) l.
Proof.
  revert acc. induction l as [|pk l IH]; simpl; intros acc Hnd.
  - now rewrite app_nil_r.
  - rewrite dict_set_fresh.
    + rewrite IH.
      * now rewrite <- app_assoc.
      * unfold dict_keys in *. rewrite map_app. simpl.
        now rewrite <- app_assoc.
    + intros Hin. apply NoDup_remove_2 in Hnd. apply Hnd.
      apply in_or_app. now left.
Qed.

Lemma py_slice_middle {A} (pre mid post : list A) (a b : Z) :
  a = Z.of_nat (length pre) -> b = a + Z.of_nat (length mid) ->
  py_slice (pre ++ mid ++ post) a b = mid.
Proof.
  intros -> ->. unfold py_slice, py_slice_bound.
  rewrite !length_app.
  destruct (Z.of_nat (length pre) <? 0) eqn:E1; [apply Z.ltb_lt in E1; lia|].
  destruct (Z.of_nat (length pre) + Z.of_nat (length mid) <? 0) eqn:E2;
    [apply Z.ltb_lt in E2; lia|].
  rewrite !Nat2Z.inj_add.
  rewrite Z.min_l by lia. rewrite Z.min_l by lia.
  rewrite Nat2Z.id.
  replace (Z.to_nat (Z.of_nat (length pre) + Z.of_nat (length mid)
                     - Z.of_nat (length pre))) with (length mid) by lia.
  rewrite skipn_app, Nat.sub_diag, skipn_all. simpl.
  rewrite firstn_app, Nat.sub_diag, firstn_all. simpl.
  now rewrite app_nil_r.
Qed.

(** Slicing the merged frame key by key gives the template back. *)
Lemma pack_loop_id (idx : list Z) (c : nat) (d : sta_mu_dict)
  (pre post : list (label * list sample)) (s : nat) :
  length pre = (s * c)%nat ->
  Forall (fun fr => index fr = idx /\ length (columns fr) = c) (dict_values d) ->
  map (fun pk : nat * string =>
         (snd pk,
          iloc_cols (mkFrame idx (pre ++ concat (map columns (dict_values d)) ++ post))
                    (Z.of_nat c * Z.of_nat (fst pk))
                    (Z.of_nat c * (Z.of_nat (fst pk) + 1))))
      (combine (seq s (length (dict_keys d))) (dict_keys d))
  = d.
Proof.
  revert pre s. unfold dict_keys, dict_values.
  induction d as [|[k fr] d IH]; simpl; intros pre s Hpre Hall; [reflexivity|].
  inversion Hall as [|? ? [Hi Hc] Hall']; subst. f_equal.
  - f_equal. unfold iloc_cols. simpl.
    rewrite <- app_assoc.
    rewrite py_slice_middle by lia.
    now destruct fr.
  - specialize (IH (pre ++ columns fr) (S s)).
    rewrite <- !app_assoc in IH. rewrite <- app_assoc. apply IH.
    + rewrite length_app, Hpre. simpl. lia.
    + assumption.
Qed.

End PackFacts.

(** C10, as stated, fails in two ways: frames that agree in the number of
    channels and carry distinct labels but differ in length are cut to
    the shortest by the inner join, and the empty template makes
    [reduce] raise. *)
Lemma pack_unpack_not_identity :
  let sta_mu : sta_mu_dict :=
    [("col0"%string, mkFrame [0; 1] [(Chan 0, [Val 1; Val 2])]);
     ("col1"%string, mkFrame [0] [(Chan 1, [Val 3])])] in
  (exists df keys packed,
      unpack_sta sta_mu = inr (df, keys)
      /\ pack_sta df keys = inr packed
      /\ packed <> sta_mu)
  /\ unpack_sta []
     = inl (TypeError "reduce() of empty iterable with no initial value").
Proof.
  split.
  - eexists. eexists. eexists. split; [vm_compute; reflexivity|].
    split; [vm_compute; reflexivity|]. discriminate.
  - reflexivity.
Qed.

(** C10 (amended): for every non-empty STA dict whose frames share one
    duplicate-free sample index, are rectangular, have the same number of
    channel columns and carry labels that are pairwise distinct across the
    whole dict, [pack_sta] applied to the result of [unpack_sta] returns
    the dict itself: same keys, same order, same frames. *)
Theorem pack_unpack_identity (idx : list Z) (c : nat) (sta_mu : sta_mu_dict) :
  sta_mu <> [] ->
  NoDup (dict_keys sta_mu) ->
  NoDup idx ->
  Forall (fun fr => index fr = idx /\ frame_wf fr) (dict_values sta_mu) ->
  Forall (fun fr => length (columns fr) = c) (dict_values sta_mu) ->
  NoDup (concat (map column_labels (dict_values sta_mu))) ->
  exists df keys,
    unpack_sta sta_mu = inr (df, keys)
    /\ keys = dict_keys sta_mu
    /\ pack_sta df keys = inr sta_mu.
Proof.
  intros Hne Hk Hnd Hal Hc Hlab.
  eexists. eexists. split; [|split; [reflexivity|]].
  - apply (PackFacts.unpack_sta_aligned idx); assumption.
  - unfold pack_sta. cbn [columns].
    assert (Hcols : Forall (fun l => length l = c)
                           (map columns (dict_values sta_mu))).
    { apply Forall_map. exact Hc. }
    rewrite (PackFacts.length_concat_const _ c Hcols), length_map.
    replace (length (dict_values sta_mu)) with (length (dict_keys sta_mu))
      by (unfold dict_keys, dict_values; now rewrite !length_map).
    rewrite PackFacts.pack_slice_exact.
    + simpl. unfold ok. f_equal. unfold enumerate.
      rewrite PackFacts.fold_dict_set.
      * simpl.
        pose proof (PackFacts.pack_loop_id idx c sta_mu [] [] 0) as H.
        simpl in H. rewrite app_nil_r in H. apply H; [reflexivity|].
        rewrite Forall_forall in *. intros fr Hfr.
        split; [apply Hal|apply Hc]; assumption.
      * simpl. now rewrite PackFacts.map_snd_combine_seq.
    + destruct sta_mu; [contradiction|simpl; lia].
Qed.

Lemma pack_unpack_identity_witness :
  exists df keys,
    unpack_sta (Examples.impulse_template 4 1) = inr (df, keys)
    /\ keys = dict_keys (Examples.impulse_template 4 1)
    /\ pack_sta df keys = inr (Examples.impulse_template 4 1).
Proof.
  apply (pack_unpack_identity [0; 1; 2; 3] 1 (Examples.impulse_template 4 1)).
  - discriminate.
  - repeat constructor; simpl; tauto.
  - repeat constructor; simpl; intuition lia.
  - repeat constructor.
  - repeat constructor.
  - repeat constructor; simpl; tauto.
Defined.

(** ** align_by_xcorr *)



Module AlignFacts.

Lemma firstn_seq (k s n : nat) : firstn k (seq s n) = seq s (Nat.min k n).
Proof.
  revert s n. induction k as [|k IH]; intros s [|n]; simpl; try reflexivity.
  now rewrite IH.
Qed.

Lemma map_seq_offset (lo : Z) (s n : nat) :
  map (fun k => lo + Z.of_nat k) (seq s n) = run_from (lo + Z.of_nat s) n.
Proof.
  unfold run_from. rewrite <- (Nat.add_0_r s) at 1.
  generalize 0%nat as o. induction n as [|n IH]; intros o; simpl.
  - reflexivity.
  - f_equal; [lia|]. rewrite <- Nat.add_succ_r. apply IH.
Qed.

Lemma firstn_skipn_run (lo : Z) (n j k : nat) :
  firstn k (skipn j (run_from lo n))
  = run_from (lo + Z.of_nat j) (Nat.min k (n - j)).
Proof.
  unfold run_from at 1.
  rewrite skipn_map, firstn_map, skipn_seq, firstn_seq. apply map_seq_offset.
Qed.

(** A slice of a run is a run. *)
Lemma py_slice_run (lo : Z) (n : nat) (a b : Z) :
  exists lo' n', py_slice (run_from lo n) a b = run_from lo' n'.
Proof.
  unfold py_slice. cbv zeta. rewrite firstn_skipn_run. eauto.
Qed.

Lemma correlation_lags_run (n1 n2 : nat) :
  exists lo n, correlation_lags_same n1 n2 = run_from lo n.
Proof.
  unfold correlation_lags_same.
  change (arange (- Z.of_nat n2 + 1) (Z.of_nat n1))
    with (run_from (- Z.of_nat n2 + 1)
                   (Z.to_nat (Z.of_nat n1 - (- Z.of_nat n2 + 1)))).
  destruct (Z.even (Z.of_nat n1)); apply py_slice_run.
Qed.

Lemma run_from_S_last (lo : Z) (n : nat) :
  run_from lo (S n) = run_from lo n ++ [lo + Z.of_nat n].
Proof. unfold run_from. now rewrite seq_S, map_app. Qed.

Lemma run_from_shift (lo : Z) (n : nat) :
  map (fun x => x + 1) (run_from lo n) = run_from (lo + 1) n.
Proof. unfold run_from. rewrite map_map. apply map_ext. intros k. lia. Qed.

Lemma run_from_S_first (lo : Z) (n : nat) :
  run_from lo (S n) = lo :: run_from (lo + 1) n.
Proof.
  unfold run_from. cbn [seq map]. f_equal; [lia|].
  rewrite <- seq_shift, !map_map. apply map_ext. intros k. lia.
Qed.

Lemma fold_min_run (lo acc : Z) (n : nat) :
  acc <= lo -> fold_left Z.min (run_from lo n) acc = acc.
Proof.
  revert acc. induction n as [|n IH]; intros acc H; [reflexivity|].
  rewrite run_from_S_last, fold_left_app. cbn [fold_left].
  rewrite IH by lia. lia.
Qed.

Lemma fold_max_run (lo acc : Z) (n : nat) :
  acc <= lo -> fold_left Z.max (run_from lo (S n)) acc = lo + Z.of_nat n.
Proof.
  revert acc. induction n as [|n IH]; intros acc H.
  - cbn. lia.
  - rewrite run_from_S_last, fold_left_app. cbn [fold_left].
    rewrite IH by lia. lia.
Qed.

(** The bounds of a frame indexed by a run. *)
Lemma index_bounds_run (cols : list (label * list sample)) (lo dfmin dfmax : Z)
  (n : nat) :
  index_min (mkFrame (run_from lo n) cols) = inr dfmin ->
  index_max (mkFrame (run_from lo n) cols) = inr dfmax ->
  dfmin = lo /\ dfmax = lo + Z.of_nat n - 1.
Proof.
  unfold index_min, index_max. cbn [index].
  destruct n as [|n]; [discriminate|].
  rewrite run_from_S_first. intros Hmin Hmax.
  unfold ok in *. injection Hmin as <-. injection Hmax as <-.
  split.
  - apply fold_min_run. lia.
  - destruct n as [|n]; [cbn; lia|].
    rewrite fold_max_run by lia. lia.
Qed.

Lemma rev_run (lo : Z) (n : nat) :
  rev (run_from lo n)
  = map (fun x => lo + (lo + Z.of_nat n - 1) - x) (run_from lo n).
Proof.
  induction n as [|n IH]; [reflexivity|].
  rewrite run_from_S_last at 1. rewrite rev_app_distr. cbn [rev app].
  rewrite run_from_S_first. cbn [map]. f_equal; [lia|].
  rewrite IH, <- run_from_shift, map_map. apply map_ext. intros x. lia.
Qed.

(** Two tests that mirror each other over a run select equally many of
    its members. *)
Lemma count_mirror (lo : Z) (n : nat) (p q : Z -> bool) :
  (forall x, q x = p (lo + (lo + Z.of_nat n - 1) - x)) ->
  length (filter q (run_from lo n)) = length (filter p (run_from lo n)).
Proof.
  intros H.
  rewrite (filter_ext q (fun x => p (lo + (lo + Z.of_nat n - 1) - x)) H).
  rewrite <- (length_map (fun x => lo + (lo + Z.of_nat n - 1) - x)).
  rewrite <- filter_map_swap, <- rev_run, filter_rev. apply length_rev.
Qed.

Lemma length_filter_enumerate {A} (p : A -> bool) (l : list A) (s : nat) :
  length (filter (fun ip : nat * A => p (snd ip)) (combine (seq s (length l)) l))
  = length (filter p l).
Proof.
  revert s. induction l as [|x l IH]; intros s; simpl; [reflexivity|].
  destruct (p x); simpl; now rewrite IH.
Qed.

Lemma nrows_loc_rows (df : frame) (start stop : Q) :
  nrows (loc_rows df start stop)
  = length (filter (fun x => Qle_bool start (inject_Z x)
                             && Qle_bool (inject_Z x) stop)
                   (index df)).
Proof.
  unfold nrows, loc_rows, select_rows, enumerate. cbn [index].
  rewrite !length_map.
  apply (length_filter_enumerate
           (fun x => Qle_bool start (inject_Z x) && Qle_bool (inject_Z x) stop)).
Qed.

Lemma Qle_bool_eq (a b c d : Q) :
  ((a <= b)%Q <-> (c <= d)%Q) -> Qle_bool a b = Qle_bool c d.
Proof.
  intros H. apply eq_true_iff_eq. now rewrite !Qle_bool_iff.
Qed.

(** Cutting the lag off the head or off the tail of a run keeps equally
    many labels. *)
Lemma shifted_windows_agree (lo : Z) (n : nat) (d : Q) :
  let hi := lo + Z.of_nat n - 1 in
  length (filter (fun x => Qle_bool (inject_Z lo + d) (inject_Z x)
                           && Qle_bool (inject_Z x) (inject_Z hi))
                 (run_from lo n))
  = length (filter (fun x => Qle_bool (inject_Z lo) (inject_Z x)
                             && Qle_bool (inject_Z x) (inject_Z hi - d))
                   (run_from lo n)).
Proof.
  intros hi. symmetry. apply count_mirror. intros x. fold hi.
  rewrite andb_comm. f_equal; apply Qle_bool_eq;
    unfold Z.sub; rewrite !inject_Z_plus, inject_Z_opp; split; intros; lra.
Qed.

Lemma length_py_slice {A B} (l : list A) (l' : list B) (a b : Z) :
  length l = length l' -> length (py_slice l a b) = length (py_slice l' a b).
Proof.
  intros H. unfold py_slice. rewrite !length_firstn, !length_skipn, H.
  reflexivity.
Qed.

Lemma fold_dict_set_Forall {V} (P : string * V -> Prop) (g : nat * string -> V)
  (l : list (nat * string)) (acc : dict string V) :
  Forall P acc -> (forall pk k, P (k, g pk)) ->
  Forall P (fold_left (fun packed pk => dict_set String.eqb packed (snd pk) (g pk))
                      l acc).
Proof.
  revert acc. induction l as [|pk l IH]; simpl; intros acc Ha Hg; [exact Ha|].
  apply IH; [|exact Hg]. apply dict_set_Forall; auto.
Qed.

Lemma pack_sta_index (df : frame) (keys : list string) (d : sta_mu_dict) :
  pack_sta df keys = inr d -> Forall (fun kv => index (snd kv) = index df) d.
Proof.
  unfold pack_sta. intros H. apply rbind_inr in H.
  destruct H as (slice & _ & H). unfold ok in H. injection H as <-.
  apply fold_dict_set_Forall; [constructor|]. reflexivity.
Qed.

Lemma set_index_index (df df' : frame) (labels : list Z) :
  set_index df labels = inr df' -> index df' = labels.
Proof.
  unfold set_index. destruct (Nat.eqb _ _); [|discriminate].
  intros H. unfold ok in H. now injection H as <-.
Qed.

(** The lags found by [align_lag] form a run, and index the correlation
    table. *)
Lemma align_lag_shape
  (norm_twod_xcorr : frame -> frame -> xcorr_mode -> result (frame * sample))
  (sta_mu1 sta_mu2 : sta_mu_dict) (finalduration : Q) (a : alignment) :
  align_lag norm_twod_xcorr sta_mu1 sta_mu2 finalduration = inr a ->
  index (al_normxcorr a) = al_corr_lags a
  /\ exists lo n, al_corr_lags a = run_from lo n.
Proof.
  unfold align_lag. intros H.
  apply rbind_inr in H. destruct H as ([df1 k1] & _ & H).
  apply rbind_inr in H. destruct H as ([df2 k2] & _ & H).
  apply rbind_inr in H. destruct H as ([tbl mx] & _ & H).
  apply rbind_inr in H. destruct H as (tbl' & Hset & H).
  apply rbind_inr in H. destruct H as (maxima & _ & H).
  destruct (median maxima) as [lag|]; [|discriminate].
  unfold ok in H. injection H as <-. cbn [al_normxcorr al_corr_lags].
  split; [now apply set_index_index in Hset|].
  apply correlation_lags_run.
Qed.

Lemma align_cut_share_index (a : alignment) (lo : Z) (n : nat)
  (aligned_sta1 aligned_sta2 : sta_mu_dict) :
  index (al_normxcorr a) = al_corr_lags a ->
  al_corr_lags a = run_from lo n ->
  align_cut a = inr (aligned_sta1, aligned_sta2) ->
  exists k, indexed_from_zero k aligned_sta1 /\ indexed_from_zero k aligned_sta2.
Proof.
  intros Hidx Hrun. unfold align_cut. intros H.
  apply rbind_inr in H. destruct H as (dfmin & Hmin & H).
  apply rbind_inr in H. destruct H as (dfmax & Hmax & H).
  apply rbind_inr in H. destruct H as (df1i & H1 & H).
  apply rbind_inr in H. destruct H as (df2i & H2 & H).
  apply rbind_inr in H. destruct H as (s1 & Hp1 & H).
  apply rbind_inr in H. destruct H as (s2 & Hp2 & H).
  unfold ok in H. injection H as <- <-.
  apply set_index_index in H1, H2.
  apply pack_sta_index in Hp1, Hp2. cbn [reset_index index] in Hp1, Hp2.
  destruct (al_normxcorr a) as [nidx ncols] eqn:En. cbn [index] in Hidx.
  rewrite Hidx, Hrun in Hmin, Hmax.
  destruct (index_bounds_run _ _ _ _ _ Hmin Hmax) as [-> ->].
  eexists. split; [exact Hp1|].
  eapply Forall_impl; [|exact Hp2]. intros kv ->. f_equal.
  unfold nrows, iloc_rows. cbn [index].
  apply length_py_slice.
  change (nrows (loc_rows df2i
                   (if Qltb (al_lag a) 0
                    then inject_Z lo + Qabs (al_lag a) else inject_Z lo)
                   (if Qltb (al_lag a) 0
                    then inject_Z (lo + Z.of_nat n - 1)
                    else inject_Z (lo + Z.of_nat n - 1) - Qabs (al_lag a)))
          = nrows (loc_rows df1i
                     (if Qgtb (al_lag a) 0
                      then inject_Z lo + Qabs (al_lag a) else inject_Z lo)
                     (if Qgtb (al_lag a) 0
                      then inject_Z (lo + Z.of_nat n - 1)
                      else inject_Z (lo + Z.of_nat n - 1) - Qabs (al_lag a)))).
  rewrite !nrows_loc_rows, H1, H2, Hrun.
  pose proof (shifted_windows_agree lo n (Qabs (al_lag a))) as Hs.
  cbv zeta in Hs.
  unfold Qgtb, Qltb.
  destruct (Qle_bool (al_lag a) 0) eqn:E1, (Qle_bool 0 (al_lag a)) eqn:E2;
    cbn [negb].
  - reflexivity.
  - exact Hs.
  - symmetry. exact Hs.
  - apply Qle_bool_total in E1. congruence.
Qed.

(** Whenever [align_by_xcorr] returns, all frames of its two outputs carry
    one and the same zero-based index. *)
Lemma align_outputs_share_index
  (norm_twod_xcorr : frame -> frame -> xcorr_mode -> result (frame * sample))
  (sta_mu1 sta_mu2 : sta_mu_dict) (finalduration : Q)
  (aligned_sta1 aligned_sta2 : sta_mu_dict) :
  align_by_xcorr norm_twod_xcorr sta_mu1 sta_mu2 finalduration
  = inr (aligned_sta1, aligned_sta2) ->
  exists k, indexed_from_zero k aligned_sta1 /\ indexed_from_zero k aligned_sta2.
Proof.
  unfold align_by_xcorr. intros H.
  apply rbind_inr in H. destruct H as (a & Ha & H).
  destruct (align_lag_shape _ _ _ _ _ Ha) as (Hidx & lo & n & Hrun).
  eapply align_cut_share_index; eauto.
Qed.

End AlignFacts.



(** C1: the bound on the lag is enforced on one side only.  For two
    templates of 20 samples whose impulses sit at samples 3 and 12 the
    cross-correlation peaks in the first row of the table, which
    [correlation_lags] labels -10; with [finalduration = 0.5] the final
    duration is 10 samples, the test [lag > 5] is false and the lag stays
    at -10, beyond half of the final duration. *)
Theorem negative_lag_not_clamped :
  chosen_lag XcorrModel.norm_twod_xcorr
             (Examples.impulse_template 20 3) (Examples.impulse_template 20 12)
             (1 # 2)
  = inr (-10 # 1)%Q
  /\ py_round (inject_Z 20 * (1 # 2)) = 10
  /\ ~ (Qabs (-10 # 1) <= inject_Z 10 / 2)%Q.
Proof.
  split; [vm_compute; reflexivity|].
  split; [vm_compute; reflexivity|].
  vm_compute. intros H. apply H. reflexivity.
Qed.

(** C3: the two aligned templates agree in length and index, but the
    length is not always [round(original_length * finalduration)].  For
    two templates of 21 samples whose impulses sit at samples 12 and 10
    the lag is 2 and [round(21 * 0.5)] is 10; 19 rows survive the shift,
    [round((19 - 10) / 2)] is 4, [tocutend] is 15 and rows 4 to 14 are
    kept: 11 samples instead of 10. *)
Theorem aligned_length_off_by_one :
  exists f1 f2,
    chosen_lag XcorrModel.norm_twod_xcorr
               (Examples.impulse_template 21 12)
               (Examples.impulse_template 21 10) (1 # 2)
    = inr (2 # 1)%Q
    /\ align_by_xcorr XcorrModel.norm_twod_xcorr
                      (Examples.impulse_template 21 12)
                      (Examples.impulse_template 21 10) (1 # 2)
       = inr ([("col0"%string, f1)], [("col0"%string, f2)])
    /\ index f1 = range 11 /\ index f2 = range 11
    /\ nrows f1 = 11%nat /\ nrows f2 = 11%nat
    /\ py_round (inject_Z 21 * (1 # 2)) = 10.
Proof.
  eexists. eexists. split; [vm_compute; reflexivity|].
  split; [vm_compute; reflexivity|].
  repeat split.
Qed.

(** With 20 samples and impulses at samples 11 and 10 the peak of the
    table sits in the row labelled 0: nothing is shifted, the surplus of 10
    rows is even and both outputs have the 10 samples asked for. *)
Lemma aligned_length_even_surplus :
  chosen_lag XcorrModel.norm_twod_xcorr
             (Examples.impulse_template 20 11)
             (Examples.impulse_template 20 10) (1 # 2)
  = inr (0 # 1)%Q
  /\ exists f1 f2,
      align_by_xcorr XcorrModel.norm_twod_xcorr
                     (Examples.impulse_template 20 11)
                     (Examples.impulse_template 20 10) (1 # 2)
      = inr ([("col0"%string, f1)], [("col0"%string, f2)])
      /\ nrows f1 = 10%nat /\ nrows f2 = 10%nat.
Proof.
  split; [vm_compute; reflexivity|].
  eexists. eexists. split; [vm_compute; reflexivity|].
  split; reflexivity.
Qed.

(** Two templates without energy: the normalised table is 0 throughout. *)
Lemma xcorr_zero_norm :
  XcorrModel.norm_twod_xcorr
    (mkFrame (range 3) [(Chan 0, Examples.channel 3 [])])
    (mkFrame (range 3) [(Chan 0, Examples.channel 3 [])]) ModeSame
  = inr (mkFrame (range 3) [(Chan 0, [Val 0; Val 0; Val 0])], Val 0).
Proof. reflexivity. Qed.

(** ** tracking: the threshold phase *)

Lemma tbind_inr {A B} (m : traced A) (k : A -> traced B) (tr : list event) (b : B) :
  tbind m k = (tr, inr b) ->
  exists t1 a t2, m = (t1, inr a) /\ k a = (t2, inr b) /\ tr = t1 ++ t2.
Proof.
  destruct m as [t1 [e|a]]; simpl; [discriminate|].
  destruct (k a) as [t2 r] eqn:E. intros H. inversion H; subst.
  exists t1, a, t2. auto.
Qed.

Lemma retained_iff (exclude : bool) (x t : sample) :
  retained exclude x t = true <-> exclude = false \/ sample_geb x t = true.
Proof.
  unfold retained. destruct exclude; simpl; destruct (sample_geb x t);
    intuition congruence.
Qed.

Lemma sample_geb_refl (q : Q) : sample_geb (Val q) (Val q) = true.
Proof. simpl. apply Qle_bool_iff. apply Qle_refl. Qed.

Section ThresholdPhase.

Variable norm_twod_xcorr :
  frame -> frame -> xcorr_mode -> result (frame * sample).
Variable args : tracking_args.
Variables sta_emgfile1 sta_emgfile2 : sta_dict.

Lemma parallel_loop_rows (mu_file1 : nat) (mus2 : list nat) (res rows : table)
  (tr : list event) :
  parallel_loop norm_twod_xcorr args sta_emgfile1 sta_emgfile2 mu_file1 mus2 res
  = (tr, inr rows) ->
  forall r,
    In r rows <->
    In r res
    \/ exists mu_file2 x,
        In mu_file2 mus2 /\ pair_xcc norm_twod_xcorr args sta_emgfile1 sta_emgfile2 mu_file1 mu_file2 = inr x
        /\ retained (exclude_belowthreshold args) x (threshold args) = true
        /\ r = mkRow mu_file1 mu_file2 x None.
Proof.
  revert res tr. induction mus2 as [|mu2 mus2 IH]; intros res tr H r;
    cbn [parallel_loop] in H.
  - inversion H; subst. split; [auto|].
    intros [Hr|(m & x & [] & _)]. exact Hr.
  - apply tbind_inr in H. destruct H as (t1 & x & t2 & Hx & H & _).
    unfold tlog in Hx. inversion Hx as [[Ht Hxcc]]. clear Hx.
    rewrite (IH _ _ H r). clear IH H.
    pose proof Hxcc as Hhead.
    destruct (retained (exclude_belowthreshold args) x (threshold args)) eqn:E.
    + rewrite in_app_iff. split.
      * intros [[Hr|[Hr|[]]]|(m & y & Hm & Hy & Hret & Hrow)].
        -- now left.
        -- right. exists mu2, x. subst r.
           split; [now left|]. split; [exact Hhead|]. split; [exact E|reflexivity].
        -- right. exists m, y. split; [now right|]. auto.
      * intros [Hr|(m & y & [Hm|Hm] & Hy & Hret & Hrow)].
        -- left. now left.
        -- subst m. rewrite Hhead in Hy. inversion Hy; subst.
           left. right. now left.
        -- right. exists m, y. auto.
    + split.
      * intros [Hr|(m & y & Hm & Hy & Hret & Hrow)].
        -- now left.
        -- right. exists m, y. split; [now right|]. auto.
      * intros [Hr|(m & y & [Hm|Hm] & Hy & Hret & Hrow)].
        -- now left.
        -- subst m. rewrite Hhead in Hy. inversion Hy; subst. congruence.
        -- right. exists m, y. auto.
Qed.

End ThresholdPhase.

(** C4: in the threshold phase a compared pair [(i, j, xcc)] is kept if and
    only if [exclude_belowthreshold] is false or [xcc >= threshold]; the
    rows of [parallel(i)] are exactly the kept pairs, and a pair whose XCC
    equals the threshold is kept. *)
Theorem threshold_phase
  (norm_twod_xcorr : frame -> frame -> xcorr_mode -> result (frame * sample))
  (emgfile2 : emgfile) (args : tracking_args)
  (sta_emgfile1 sta_emgfile2 : sta_dict)
  (mu_file1 : nat) (tr : list event) (rows : table) :
  parallel norm_twod_xcorr emgfile2 args sta_emgfile1 sta_emgfile2 mu_file1
  = (tr, inr rows) ->
  (forall mu_file2 xcc,
      (mu_file2 < NUMBER_OF_MUS emgfile2)%nat ->
      pair_xcc norm_twod_xcorr args sta_emgfile1 sta_emgfile2 mu_file1 mu_file2
      = inr xcc ->
      (In (mkRow mu_file1 mu_file2 xcc None) rows
       <-> exclude_belowthreshold args = false
           \/ sample_geb xcc (threshold args) = true))
  /\ (forall r, In r rows ->
        exists mu_file2 xcc,
          (mu_file2 < NUMBER_OF_MUS emgfile2)%nat
          /\ pair_xcc norm_twod_xcorr args sta_emgfile1 sta_emgfile2
                      mu_file1 mu_file2 = inr xcc
          /\ r = mkRow mu_file1 mu_file2 xcc None)
  /\ (forall mu_file2 q,
        (mu_file2 < NUMBER_OF_MUS emgfile2)%nat ->
        threshold args = Val q ->
        pair_xcc norm_twod_xcorr args sta_emgfile1 sta_emgfile2 mu_file1 mu_file2
        = inr (Val q) ->
        In (mkRow mu_file1 mu_file2 (Val q) None) rows).
Proof.
  unfold parallel. intros H.
  pose proof (parallel_loop_rows _ _ _ _ _ _ _ _ _ H) as Hrows.
  assert (Hkept : forall mu_file2 xcc,
             (mu_file2 < NUMBER_OF_MUS emgfile2)%nat ->
             pair_xcc norm_twod_xcorr args sta_emgfile1 sta_emgfile2
                      mu_file1 mu_file2 = inr xcc ->
             (In (mkRow mu_file1 mu_file2 xcc None) rows
              <-> exclude_belowthreshold args = false
                  \/ sample_geb xcc (threshold args) = true)).
  { intros mu2 x Hlt Hx. rewrite Hrows, <- retained_iff. split.
    - intros [[]|(m & y & _ & Hy & Hret & Hrow)].
      inversion Hrow; subst. exact Hret.
    - intros Hret. right. exists mu2, x. repeat split; auto.
      apply in_seq. lia. }
  split; [exact Hkept|]. split.
  - intros r Hr. apply Hrows in Hr.
    destruct Hr as [[]|(m & y & Hm & Hy & _ & Hrow)].
    exists m, y. apply in_seq in Hm. repeat split; auto. lia.
  - intros mu2 q Hlt Hthr Hx. apply (Hkept mu2 (Val q) Hlt Hx).
    right. rewrite Hthr. apply sample_geb_refl.
Qed.

Lemma threshold_phase_witness :
  In (mkRow 0 0 (Val (4 # 5)) None)
     [mkRow 0 0 (Val (4 # 5)) None; mkRow 0 1 (Val 1) None]
  <-> exclude_belowthreshold
        (Examples.example_args "mono" (Val (4 # 5)) PyNone true true false) = false
      \/ sample_geb (Val (4 # 5))
           (threshold (Examples.example_args "mono" (Val (4 # 5)) PyNone
                                             true true false)) = true.
Proof.
  apply (proj1 (threshold_phase XcorrModel.norm_twod_xcorr Examples.emgfile_B
                  (Examples.example_args "mono" (Val (4 # 5)) PyNone true true false)
                  Examples.stas_A Examples.stas_B 0
                  [EvCompare 0 0; EvCompare 0 1]
                  [mkRow 0 0 (Val (4 # 5)) None; mkRow 0 1 (Val 1) None]
                  ltac:(vm_compute; reflexivity))
               0%nat (Val (4 # 5))).
  - simpl. lia.
  - vm_compute. reflexivity.
Defined.

(** ** tracking: the filter phase *)

Module FilterFacts.

Section SortValues.

Variable le : row -> row -> bool.
Hypothesis le_total : forall a b, le a b = false -> le b a = true.
Hypothesis le_trans : forall a b c, le a b = true -> le b c = true -> le a c = true.

Lemma insert_by_perm (x : row) (l : table) : Permutation (insert_by le x l) (x :: l).
Proof.
  induction l as [|y l IH]; simpl; [reflexivity|].
  destruct (le x y); [reflexivity|].
  rewrite IH. apply perm_swap.
Qed.

Lemma sort_values_perm (t : table) : Permutation (sort_values le t) t.
Proof.
  induction t as [|x t IH]; simpl; [reflexivity|].
  rewrite insert_by_perm. now constructor.
Qed.

Lemma insert_by_sorted (x : row) (l : table) :
  StronglySorted (le_rel le) l -> StronglySorted (le_rel le) (insert_by le x l).
Proof.
  induction 1 as [|y l Hs IH Hy]; simpl.
  - repeat constructor.
  - destruct (le x y) eqn:E.
    + constructor; [now constructor|].
      constructor; [exact E|].
      eapply Forall_impl; [|exact Hy]. intros z Hz. unfold le_rel in *. eauto.
    + constructor; [exact IH|].
      eapply Permutation_Forall; [symmetry; apply insert_by_perm|].
      constructor; [|exact Hy]. now apply le_total.
Qed.

Lemma sort_values_sorted (t : table) : StronglySorted (le_rel le) (sort_values le t).
Proof.
  induction t as [|x t IH]; simpl; [constructor|]. now apply insert_by_sorted.
Qed.

End SortValues.

Lemma xcc_desc_leb_refl (a : sample) : xcc_desc_leb a a = true.
Proof. destruct a; simpl; [|reflexivity]. apply Qle_bool_iff, Qle_refl. Qed.

Lemma xcc_desc_leb_total (a b : sample) :
  xcc_desc_leb a b = false -> xcc_desc_leb b a = true.
Proof.
  destruct a, b; simpl; try congruence. apply Qle_bool_total.
Qed.

Lemma xcc_desc_leb_trans (a b c : sample) :
  xcc_desc_leb a b = true -> xcc_desc_leb b c = true -> xcc_desc_leb a c = true.
Proof.
  destruct a, b, c; simpl; try congruence.
  rewrite !Qle_bool_iff. intros H1 H2. eapply Qle_trans; eauto.
Qed.

Ltac by_cases :=
  repeat match goal with
         | |- context [Nat.ltb ?a ?b] => destruct (Nat.ltb_spec a b)
         | H : context [Nat.ltb ?a ?b] |- _ => destruct (Nat.ltb_spec a b)
         end;
  try congruence; try lia.

Lemma by_mu1_xcc_desc_total a b :
  by_mu1_xcc_desc a b = false -> by_mu1_xcc_desc b a = true.
Proof. unfold by_mu1_xcc_desc. by_cases. apply xcc_desc_leb_total. Qed.

Lemma by_mu1_xcc_desc_trans a b c :
  by_mu1_xcc_desc a b = true -> by_mu1_xcc_desc b c = true ->
  by_mu1_xcc_desc a c = true.
Proof. unfold by_mu1_xcc_desc. by_cases. apply xcc_desc_leb_trans. Qed.

Lemma by_mu2_xcc_desc_total a b :
  by_mu2_xcc_desc a b = false -> by_mu2_xcc_desc b a = true.
Proof. unfold by_mu2_xcc_desc. by_cases. apply xcc_desc_leb_total. Qed.

Lemma by_mu2_xcc_desc_trans a b c :
  by_mu2_xcc_desc a b = true -> by_mu2_xcc_desc b c = true ->
  by_mu2_xcc_desc a c = true.
Proof. unfold by_mu2_xcc_desc. by_cases. apply xcc_desc_leb_trans. Qed.

Lemma by_mu1_asc_total a b : by_mu1_asc a b = false -> by_mu1_asc b a = true.
Proof.
  unfold by_mu1_asc. rewrite Nat.leb_gt, Nat.leb_le. lia.
Qed.

Lemma by_mu1_asc_trans a b c :
  by_mu1_asc a b = true -> by_mu1_asc b c = true -> by_mu1_asc a c = true.
Proof.
  unfold by_mu1_asc. rewrite !Nat.leb_le. lia.
Qed.

(** [unique] keeps every value once. *)
Lemma unique_In (x : nat) (l : list nat) : In x (unique l) <-> In x l.
Proof.
  induction l as [|y l IH]; simpl; [tauto|].
  rewrite filter_In, IH, negb_true_iff, Nat.eqb_neq.
  destruct (Nat.eq_dec y x); intuition congruence.
Qed.

Lemma unique_NoDup (l : list nat) : NoDup (unique l).
Proof.
  induction l as [|y l IH]; simpl; constructor.
  - rewrite filter_In, negb_true_iff, Nat.eqb_neq. tauto.
  - now apply NoDup_filter.
Qed.

(** The first element of a filtered list splits the list at its first
    match. *)
Lemma filter_head {A} (f : A -> bool) (l : list A) (r : A) (rest : list A) :
  filter f l = r :: rest ->
  exists pre post,
    l = pre ++ r :: post /\ (forall x, In x pre -> f x = false) /\ f r = true.
Proof.
  induction l as [|y l IH]; simpl; [discriminate|].
  destruct (f y) eqn:E; intros H.
  - inversion H; subst. exists [], l. simpl. intuition.
  - destruct (IH H) as (pre & post & -> & Hpre & Hr).
    exists (y :: pre), post. simpl. intuition. now subst.
Qed.

Section FirstRows.

Variable key : row -> nat.
Variables t res : table.
Hypothesis Hres : first_rows key t = inr res.

Lemma first_rows_heads :
  Forall2 (fun mu r => exists rest,
               filter (fun r' => Nat.eqb (key r') mu) t = r :: rest)
          (unique (map key t)) res.
Proof.
  unfold first_rows in Hres. apply mapM_inr in Hres.
  eapply Forall2_impl; [|exact Hres]. intros mu r H. simpl in H.
  destruct (filter _ t) as [|r' rest]; [discriminate|].
  inversion H; subst. eauto.
Qed.

Lemma first_rows_keys : map key res = unique (map key t).
Proof.
  pose proof first_rows_heads as H. clear Hres.
  induction H as [|mu r mus rs (rest & Hr) _ IH]; simpl; [reflexivity|].
  f_equal; [|exact IH].
  assert (Hin : In r (filter (fun r' => Nat.eqb (key r') mu) t))
    by (rewrite Hr; now left).
  apply filter_In in Hin. destruct Hin as [_ Hk]. now apply Nat.eqb_eq in Hk.
Qed.

Lemma first_rows_NoDup : NoDup (map key res).
Proof. rewrite first_rows_keys. apply unique_NoDup. Qed.

Lemma first_rows_In (r : row) : In r res -> In r t.
Proof.
  intros Hin. pose proof first_rows_heads as H. clear Hres.
  induction H as [|mu r0 mus rs (rest & Hr) _ IH]; [contradiction|].
  destruct Hin as [->|Hin]; [|auto].
  assert (Hf : In r (filter (fun r' => Nat.eqb (key r') mu) t))
    by (rewrite Hr; now left).
  now apply filter_In in Hf.
Qed.

(** In a table sorted by key and then by decreasing XCC, the first row of
    a key is a best row of its group. *)
Lemma first_rows_best (le : row -> row -> bool) (r : row) :
  StronglySorted (le_rel le) t ->
  (forall a b, le a b = true -> key a = key b ->
               xcc_desc_leb (XCC a) (XCC b) = true) ->
  In r res -> group_best key t r.
Proof.
  intros Hs Hle Hin. split; [now apply first_rows_In|].
  pose proof first_rows_heads as H. clear Hres.
  induction H as [|mu r0 mus rs (rest & Hr) _ IH]; [contradiction|].
  destruct Hin as [->|Hin]; [|auto].
  apply filter_head in Hr. destruct Hr as (pre & post & Ht & Hpre & Hk).
  apply Nat.eqb_eq in Hk.
  intros r' Hr' Hkey. rewrite Ht in Hr'. apply in_app_or in Hr'.
  destruct Hr' as [Hr'|[->|Hr']].
  - specialize (Hpre r' Hr'). apply Nat.eqb_neq in Hpre. congruence.
  - apply xcc_desc_leb_refl.
  - apply Hle; [|congruence].
    rewrite Ht in Hs. clear - Hs Hr'.
    induction pre as [|p pre IHp]; simpl in Hs.
    + inversion Hs as [|? ? _ Hall]; subst.
      rewrite Forall_forall in Hall. now apply Hall.
    + inversion Hs; subst. auto.
Qed.

End FirstRows.

Lemma NoDup_map_inj_on {A B} (f : A -> B) (l : list A) (a b : A) :
  NoDup (map f l) -> In a l -> In b l -> f a = f b -> a = b.
Proof.
  induction l as [|x l IH]; simpl; [contradiction|].
  intros Hnd Ha Hb E. inversion Hnd as [|? ? Hx Hl]; subst.
  destruct Ha as [->|Ha], Hb as [->|Hb]; auto.
  - exfalso. apply Hx. rewrite E. now apply in_map.
  - exfalso. apply Hx. rewrite <- E. now apply in_map.
Qed.

Lemma NoDup_map_sub {A B} (f : A -> B) (l1 l2 : list A) :
  NoDup (map f l1) -> NoDup l2 -> incl l2 l1 -> NoDup (map f l2).
Proof.
  intros H1. induction 1 as [|x l2 Hx Hl2 IH]; simpl; intros Hincl.
  - constructor.
  - constructor.
    + intros Hin. apply in_map_iff in Hin. destruct Hin as (y & E & Hy).
      assert (y = x).
      { apply (NoDup_map_inj_on f l1); auto.
        - apply Hincl. now right.
        - apply Hincl. now left. }
      subst. contradiction.
    + apply IH. intros z Hz. apply Hincl. now right.
Qed.

Lemma sorted_asc_strict (t : table) :
  StronglySorted (le_rel by_mu1_asc) t -> NoDup (map MU_file1 t) ->
  StronglySorted lt (map MU_file1 t).
Proof.
  induction 1 as [|x t Hs IH Hx]; simpl; intros Hnd; [constructor|].
  inversion Hnd as [|? ? Hnx Hnt]; subst.
  constructor; [auto|].
  apply Forall_map. rewrite Forall_forall in *. intros y Hy.
  specialize (Hx y Hy). unfold le_rel, by_mu1_asc in Hx.
  apply Nat.leb_le in Hx.
  assert (MU_file1 x <> MU_file1 y).
  { intros E. apply Hnx. rewrite E. now apply in_map. }
  lia.
Qed.

(** *** Stability of [sort_values] *)

Section Stability.

Variable le : row -> row -> bool.
Variable p : row -> bool.
Hypothesis p_class : forall x y, p x = true -> p y = true -> le x y = true.

Lemma insert_by_filter (x : row) (l : table) :
  filter p (insert_by le x l) = if p x then x :: filter p l else filter p l.
Proof.
  induction l as [|y l IH]; simpl; [reflexivity|].
  destruct (le x y) eqn:E; simpl; [reflexivity|].
  rewrite IH. destruct (p x) eqn:Px, (p y) eqn:Py; try reflexivity.
  rewrite (p_class x y Px Py) in E. discriminate.
Qed.

(** Rows that the order does not tell apart keep their relative order. *)
Lemma sort_values_filter (t : table) :
  filter p (sort_values le t) = filter p t.
Proof.
  induction t as [|x t IH]; simpl; [reflexivity|].
  rewrite insert_by_filter, IH. reflexivity.
Qed.

End Stability.

Lemma filter_all_false {A} (f : A -> bool) (l : list A) :
  (forall x, In x l -> f x = false) -> filter f l = [].
Proof.
  induction l as [|y l IH]; simpl; intros H; [reflexivity|].
  rewrite (H y (or_introl eq_refl)). apply IH. auto.
Qed.

(** *** The row a pass keeps *)

Lemma first_best_group_best (key : row -> nat) (pool : table) (r : row) :
  first_best key pool r -> group_best key pool r.
Proof.
  intros (pre & post & -> & Hpre & Hpost). split.
  - apply in_or_app. right. now left.
  - intros r' Hr' E. apply in_app_or in Hr'. destruct Hr' as [Hr'|[<-|Hr']].
    + apply xcc_desc_leb_total. auto.
    + apply xcc_desc_leb_refl.
    + auto.
Qed.

(** A group has one such row only. *)
Lemma first_best_unique (key : row -> nat) (pool : table) (r1 r2 : row) :
  first_best key pool r1 -> first_best key pool r2 -> key r1 = key r2 ->
  r1 = r2.
Proof.
  intros (pre1 & post1 & -> & Hpre1 & Hpost1) (pre2 & post2 & E & Hpre2 & Hpost2) K.
  revert pre2 E Hpre2. induction pre1 as [|x pre1 IH]; intros [|y pre2] E Hpre2.
  - simpl in E. congruence.
  - simpl in E. injection E as Ey Ep. subst y post1. exfalso.
    assert (H1 : xcc_desc_leb (XCC r1) (XCC r2) = false)
      by (apply Hpre2; [now left|exact K]).
    assert (H2 : xcc_desc_leb (XCC r1) (XCC r2) = true).
    { apply Hpost1; [|congruence]. apply in_or_app. right. now left. }
    congruence.
  - simpl in E. injection E as Ex Ep. subst x post2. exfalso.
    assert (H1 : xcc_desc_leb (XCC r2) (XCC r1) = false)
      by (apply Hpre1; [now left|congruence]).
    assert (H2 : xcc_desc_leb (XCC r2) (XCC r1) = true).
    { apply Hpost2; [|exact K]. apply in_or_app. right. now left. }
    congruence.
  - simpl in E. injection E as Ex E. subst y.
    apply (IH (fun r' H => Hpre1 r' (or_intror H)) pre2 E).
    intros r' H. apply Hpre2. now right.
Qed.

Section Pass.

Variable key : row -> nat.
Variable le : row -> row -> bool.
Hypothesis le_total : forall a b, le a b = false -> le b a = true.
Hypothesis le_trans :
  forall a b c, le a b = true -> le b c = true -> le a c = true.
Hypothesis le_group :
  forall a b, le a b = true -> key a = key b ->
              xcc_desc_leb (XCC a) (XCC b) = true.
Hypothesis le_tie :
  forall a b, key a = key b -> xcc_desc_leb (XCC a) (XCC b) = true ->
              le a b = true.
Hypothesis le_key : forall a b, le a b = true -> (key b <= key a)%nat.

Variables pool res : table.
Hypothesis Hres : first_rows key (sort_values le pool) = inr res.

Lemma pass_head (r : row) :
  In r res ->
  exists rest,
    filter (fun r' => Nat.eqb (key r') (key r)) (sort_values le pool) = r :: rest.
Proof.
  intros Hin. pose proof (first_rows_heads _ _ _ Hres) as H. clear Hres.
  induction H as [|mu r0 mus rs (rest & Hr) _ IH]; [contradiction|].
  destruct Hin as [->|Hin]; [|auto].
  assert (Hf : In r (filter (fun r' => Nat.eqb (key r') mu) (sort_values le pool)))
    by (rewrite Hr; now left).
  apply filter_In in Hf. destruct Hf as [_ Hk]. apply Nat.eqb_eq in Hk.
  rewrite Hk. eauto.
Qed.

Lemma pass_keeps_first_best (r : row) : In r res -> first_best key pool r.
Proof.
  intros Hin.
  assert (Hbest : group_best key pool r).
  { destruct (first_rows_best _ _ _ Hres le r) as [Hi Hb]; auto.
    - now apply sort_values_sorted.
    - split.
      + eapply Permutation_in; [apply sort_values_perm|exact Hi].
      + intros r' Hr'. apply Hb.
        eapply Permutation_in; [symmetry; apply sort_values_perm|exact Hr']. }
  destruct Hbest as [_ Hbest].
  destruct (pass_head r Hin) as (rest & Hhead).
  apply filter_head in Hhead. destruct Hhead as (pre' & post' & Hs & Hpre' & _).
  set (p := fun y => Nat.eqb (key y) (key r)
                     && xcc_desc_leb (XCC y) (XCC r)
                     && xcc_desc_leb (XCC r) (XCC y)).
  assert (Hclass : forall x y, p x = true -> p y = true -> le x y = true).
  { intros x y Px Py. unfold p in Px, Py.
    apply andb_prop in Px. destruct Px as [Px Px3].
    apply andb_prop in Px. destruct Px as [Px1 Px2].
    apply andb_prop in Py. destruct Py as [Py Py3].
    apply andb_prop in Py. destruct Py as [Py1 Py2].
    apply Nat.eqb_eq in Px1, Py1.
    apply le_tie; [congruence|].
    eapply xcc_desc_leb_trans; eauto. }
  assert (Hpr : p r = true).
  { unfold p. rewrite Nat.eqb_refl, xcc_desc_leb_refl. reflexivity. }
  pose proof (sort_values_filter le p Hclass pool) as Hst.
  rewrite Hs, filter_app in Hst.
  rewrite (filter_all_false p pre') in Hst.
  2:{ intros x Hx. unfold p. rewrite (Hpre' x Hx). reflexivity. }
  simpl in Hst. rewrite Hpr in Hst. symmetry in Hst.
  apply filter_head in Hst. destruct Hst as (pre & post & Hpool & Hpre & _).
  exists pre, post. split; [exact Hpool|]. split.
  - intros r' Hr' E. specialize (Hpre r' Hr'). unfold p in Hpre.
    rewrite E, Nat.eqb_refl in Hpre. simpl in Hpre.
    assert (Hb : xcc_desc_leb (XCC r) (XCC r') = true).
    { apply Hbest; [|exact E]. rewrite Hpool. apply in_or_app. now left. }
    rewrite Hb, andb_true_r in Hpre. exact Hpre.
  - intros r' Hr' E. apply Hbest; [|exact E].
    rewrite Hpool. apply in_or_app. right. now right.
Qed.

Lemma pass_first_best (r : row) : In r res <-> first_best key pool r.
Proof.
  split; [apply pass_keeps_first_best|].
  intros Hfb.
  assert (Hin : In r pool).
  { destruct Hfb as (pre & post & -> & _). apply in_or_app. right. now left. }
  assert (Hk : In (key r) (map key res)).
  { rewrite (first_rows_keys _ _ _ Hres). apply unique_In.
    apply in_map.
    eapply Permutation_in; [symmetry; apply sort_values_perm|exact Hin]. }
  apply in_map_iff in Hk. destruct Hk as (r0 & K & Hr0).
  pose proof (pass_keeps_first_best r0 Hr0) as Hfb0.
  rewrite (first_best_unique key pool r r0 Hfb Hfb0); auto.
Qed.

Lemma sorted_keys_desc (t : table) :
  StronglySorted (le_rel le) t -> StronglySorted ge (map key t).
Proof.
  induction 1 as [|x t Hs IH Hx]; simpl; constructor; [exact IH|].
  apply Forall_map. eapply Forall_impl; [|exact Hx].
  intros y Hy. unfold ge. now apply le_key.
Qed.

End Pass.

Lemma StronglySorted_filter {A} (R : A -> A -> Prop) (f : A -> bool) (l : list A) :
  StronglySorted R l -> StronglySorted R (filter f l).
Proof.
  induction 1 as [|x l Hs IH Hx]; simpl; [constructor|].
  destruct (f x); [|exact IH].
  constructor; [exact IH|].
  rewrite Forall_forall in *. intros y Hy. apply filter_In in Hy. now apply Hx.
Qed.

Lemma unique_sorted_desc (l : list nat) :
  StronglySorted ge l -> StronglySorted gt (unique l).
Proof.
  induction 1 as [|x l Hs IH Hx]; simpl; constructor.
  - now apply StronglySorted_filter.
  - rewrite Forall_forall in *. intros y Hy. apply filter_In in Hy.
    destruct Hy as [Hy Hne]. apply (proj1 (unique_In y l)) in Hy.
    specialize (Hx y Hy).
    apply negb_true_iff, Nat.eqb_neq in Hne. unfold ge, gt in *. lia.
Qed.

(** Two tables with the same rows, both in strict order of a key, are one
    table. *)
Lemma sorted_same_rows (R : nat -> nat -> Prop) (key : row -> nat)
  (l1 l2 : table) :
  (forall a b, R a b -> R b a -> False) ->
  StronglySorted R (map key l1) -> StronglySorted R (map key l2) ->
  (forall r, In r l1 <-> In r l2) -> l1 = l2.
Proof.
  intros Hasym. revert l2.
  induction l1 as [|x1 l1 IH]; intros [|x2 l2] S1 S2 Hin.
  - reflexivity.
  - exfalso. apply (proj2 (Hin x2)). now left.
  - exfalso. apply (proj1 (Hin x1)). now left.
  - simpl in S1, S2.
    inversion S1 as [|? ? S1' F1]; subst. inversion S2 as [|? ? S2' F2]; subst.
    rewrite Forall_forall in F1, F2.
    assert (E : x1 = x2).
    { destruct (proj1 (Hin x1) (or_introl eq_refl)) as [E|H1]; [now symmetry|].
      destruct (proj2 (Hin x2) (or_introl eq_refl)) as [E|H2]; [exact E|].
      exfalso. apply (Hasym (key x1) (key x2)).
      - apply F1. now apply in_map.
      - apply F2. now apply in_map. }
    subst x2. f_equal. apply IH; auto.
    intros r. split; intros Hr.
    + destruct (proj1 (Hin r) (or_intror Hr)) as [E|H]; [|exact H].
      exfalso. subst r. apply (Hasym (key x1) (key x1)); apply F1; now apply in_map.
    + destruct (proj2 (Hin r) (or_intror Hr)) as [E|H]; [|exact H].
      exfalso. subst r. apply (Hasym (key x1) (key x1)); apply F2; now apply in_map.
Qed.

(** The two passes leave one table only. *)
Lemma two_pass_survivors_unique (candidates t t' : table) :
  two_pass_survivors candidates t -> two_pass_survivors candidates t' ->
  StronglySorted lt (map MU_file1 t) -> StronglySorted lt (map MU_file1 t') ->
  t = t'.
Proof.
  intros (p1 & [S1 M1] & H1) (p2 & [S2 M2] & H2) St St'.
  assert (E : p1 = p2).
  { apply (sorted_same_rows gt MU_file1); auto.
    - unfold gt. intros a b. lia.
    - intros r. rewrite M1, M2. reflexivity. }
  subst p2.
  apply (sorted_same_rows lt MU_file1); auto.
  - intros a b. lia.
  - intros r. rewrite H1, H2. reflexivity.
Qed.

(** What the filter phase leaves: one row per MU of either file, ordered
    by the MU of file 1, the rows being those that the two greedy passes
    keep. *)
Lemma filter_phase_result (candidates t : table) :
  filter_phase candidates = inr t ->
  NoDup (map MU_file1 t)
  /\ NoDup (map MU_file2 t)
  /\ StronglySorted lt (map MU_file1 t)
  /\ two_pass_survivors candidates t.
Proof.
  unfold filter_phase. intros H.
  apply rbind_inr in H. destruct H as (pass1 & H1 & H).
  apply rbind_inr in H. destruct H as (pass2 & H2 & H).
  unfold ok in H. injection H as <-.
  pose proof (sort_values_perm by_mu1_asc pass2) as Hperm.
  pose proof (first_rows_NoDup _ _ _ H1) as Hk1.
  pose proof (first_rows_NoDup _ _ _ H2) as Hk2.
  assert (Hsub : NoDup (map MU_file1 pass2)).
  { apply (NoDup_map_sub MU_file1 pass1); auto.
    - eapply NoDup_map_inv; eauto.
    - intros r Hr. apply (first_rows_In _ _ _ H2) in Hr.
      eapply Permutation_in; [apply sort_values_perm|exact Hr]. }
  assert (Hn1 : NoDup (map MU_file1 (sort_values by_mu1_asc pass2))).
  { eapply Permutation_NoDup; [|exact Hsub].
    symmetry. now apply Permutation_map. }
  split; [exact Hn1|]. split.
  - eapply Permutation_NoDup; [|exact Hk2].
    symmetry. now apply Permutation_map.
  - split.
    + apply sorted_asc_strict; [|exact Hn1].
      apply sort_values_sorted; [apply by_mu1_asc_total|apply by_mu1_asc_trans].
    + exists pass1. split; [split|].
      * rewrite (first_rows_keys _ _ _ H1). apply unique_sorted_desc.
        apply (sorted_keys_desc MU_file1 by_mu1_xcc_desc).
        -- intros a b. unfold by_mu1_xcc_desc. by_cases.
        -- apply sort_values_sorted;
             [apply by_mu1_xcc_desc_total|apply by_mu1_xcc_desc_trans].
      * apply (pass_first_best MU_file1 by_mu1_xcc_desc).
        -- apply by_mu1_xcc_desc_total.
        -- apply by_mu1_xcc_desc_trans.
        -- intros a b. unfold by_mu1_xcc_desc. intros Hab E. rewrite E in Hab.
           now rewrite Nat.ltb_irrefl in Hab.
        -- intros a b E Hx. unfold by_mu1_xcc_desc. rewrite E.
           now rewrite Nat.ltb_irrefl.
        -- exact H1.
      * assert (Hp2 : forall r, In r pass2 <-> first_best MU_file2 pass1 r).
        { apply (pass_first_best MU_file2 by_mu2_xcc_desc).
          - apply by_mu2_xcc_desc_total.
          - apply by_mu2_xcc_desc_trans.
          - intros a b. unfold by_mu2_xcc_desc. intros Hab E. rewrite E in Hab.
            now rewrite Nat.ltb_irrefl in Hab.
          - intros a b E Hx. unfold by_mu2_xcc_desc. rewrite E.
            now rewrite Nat.ltb_irrefl.
          - exact H2. }
        intros r. rewrite <- Hp2. split; intros Hr.
        -- eapply Permutation_in; [exact Hperm|exact Hr].
        -- eapply Permutation_in; [symmetry; exact Hperm|exact Hr].
Qed.

End FilterFacts.

Lemma Tracking_gui_keys (gui_decision : nat -> inclusion) (t : table) :
  map MU_file1 (Tracking_gui gui_decision t) = map MU_file1 t
  /\ map MU_file2 (Tracking_gui gui_decision t) = map MU_file2 t
  /\ map drop_inclusion (Tracking_gui gui_decision t) = map drop_inclusion t.
Proof.
  unfold Tracking_gui, enumerate. rewrite !map_map. simpl.
  pose proof (PackFacts.map_snd_combine_seq t 0) as E.
  set (c := combine (seq 0 (length t)) t) in *.
  rewrite <- E. rewrite !map_map. auto.
Qed.

Lemma map_drop_inclusion_keys (t : table) :
  map MU_file1 (map drop_inclusion t) = map MU_file1 t
  /\ map MU_file2 (map drop_inclusion t) = map MU_file2 t.
Proof. rewrite !map_map. split; reflexivity. Qed.

Lemma first_best_drop (key : row -> nat) (pool : table) (r : row) :
  (forall x, key (drop_inclusion x) = key x) ->
  first_best key pool r ->
  first_best key (map drop_inclusion pool) (drop_inclusion r).
Proof.
  intros Hkey (pre & post & -> & Hpre & Hpost).
  exists (map drop_inclusion pre), (map drop_inclusion post).
  split; [rewrite map_app; reflexivity|]. split.
  - intros r' Hr' E. apply in_map_iff in Hr'. destruct Hr' as (r0 & <- & Hr0).
    rewrite !Hkey in E. simpl. now apply Hpre.
  - intros r' Hr' E. apply in_map_iff in Hr'. destruct Hr' as (r0 & <- & Hr0).
    rewrite !Hkey in E. simpl. now apply Hpost.
Qed.

Lemma first_best_of_drop (key : row -> nat) (pool : table) (r' : row) :
  (forall x, key (drop_inclusion x) = key x) ->
  first_best key (map drop_inclusion pool) r' ->
  exists r, drop_inclusion r = r' /\ first_best key pool r.
Proof.
  intros Hkey (pre' & post' & E & Hpre & Hpost).
  apply map_eq_app in E. destruct E as (pre & l2 & -> & <- & E).
  apply map_eq_cons in E. destruct E as (r & post & -> & <- & <-).
  exists r. split; [reflexivity|].
  exists pre, post. split; [reflexivity|]. split.
  - intros x Hx E. specialize (Hpre (drop_inclusion x) (in_map _ _ _ Hx)).
    rewrite !Hkey in Hpre. now apply Hpre.
  - intros x Hx E. specialize (Hpost (drop_inclusion x) (in_map _ _ _ Hx)).
    rewrite !Hkey in Hpost. now apply Hpost.
Qed.

Lemma first_best_drop_iff (key : row -> nat) (pool picks : table) :
  (forall x, key (drop_inclusion x) = key x) ->
  (forall r, In r picks <-> first_best key pool r) ->
  forall r, In r (map drop_inclusion picks)
            <-> first_best key (map drop_inclusion pool) r.
Proof.
  intros Hkey H r'. split.
  - intros Hr. apply in_map_iff in Hr. destruct Hr as (r & <- & Hr).
    apply first_best_drop; [exact Hkey|]. now apply H.
  - intros Hr. destruct (first_best_of_drop key pool r' Hkey Hr) as (r & <- & Hfb).
    apply in_map. now apply H.
Qed.

Lemma two_pass_survivors_drop (candidates t : table) :
  two_pass_survivors candidates t ->
  two_pass_survivors (map drop_inclusion candidates) (map drop_inclusion t).
Proof.
  intros (pass1 & [S1 M1] & H2). exists (map drop_inclusion pass1).
  split; [split|].
  - rewrite map_map. exact S1.
  - apply first_best_drop_iff; auto.
  - apply first_best_drop_iff; auto.
Qed.

(** C5: with [filter=True] the table returned by [tracking] has no MU of
    file 1 and no MU of file 2 in two rows, is sorted by MU_file1 in
    ascending order, and its rows are those that the two greedy passes
    keep of the collected candidates: the first pass keeps, for every MU
    of file 1, the row of best XCC (the earliest of them on a tie; NaN
    counts as the worst), the second does the same for every MU of file 2
    over the rows that the first has kept, and nothing else is returned.
    No other table sorted by MU_file1 meets this description. *)
Theorem filtered_matching_unique
  (sort_rawemg : emgfile -> sort_args -> result grid)
  (norm_twod_xcorr : frame -> frame -> xcorr_mode -> result (frame * sample))
  (Parallel : forall A : Type, list (unit -> A) -> list A)
  (gui_decision : nat -> inclusion)
  (emgfile1 emgfile2 : emgfile) (args : tracking_args)
  (tr : list event) (t : table) :
  filter_results args = true ->
  tracking sort_rawemg norm_twod_xcorr Parallel gui_decision
           emgfile1 emgfile2 args = (tr, inr t) ->
  NoDup (map MU_file1 t)
  /\ NoDup (map MU_file2 t)
  /\ StronglySorted lt (map MU_file1 t)
  /\ exists stas res candidates tr1 tr2,
      obtain_stas sort_rawemg emgfile1 emgfile2 args = (tr1, inr stas)
      /\ compare_all norm_twod_xcorr Parallel emgfile1 emgfile2 args
                     (fst stas) (snd stas) = (tr2, inr res)
      /\ collect res = inr candidates
      /\ two_pass_survivors (map drop_inclusion candidates)
                            (map drop_inclusion t)
      /\ forall t' : table,
           two_pass_survivors (map drop_inclusion candidates) t' ->
           StronglySorted lt (map MU_file1 t') ->
           t' = map drop_inclusion t.
Proof.
  intros Hf H. unfold tracking in H.
  apply tbind_inr in H. destruct H as (tr1 & [s1 s2] & tr' & Hs & H & _).
  unfold track_from_stas in H.
  apply tbind_inr in H. destruct H as (tr2 & res & tr3 & Hres & H & _).
  apply tbind_inr in H. destruct H as (tr4 & cand & tr5 & Hc & H & _).
  unfold tlift in Hc. injection Hc as _ Hc.
  rewrite Hf in H.
  apply tbind_inr in H. destruct H as (tr6 & t0 & tr7 & Ht0 & H & _).
  unfold tlift in Ht0. injection Ht0 as _ Ht0.
  destruct (FilterFacts.filter_phase_result _ _ Ht0) as (N1 & N2 & S1 & TP).
  apply two_pass_survivors_drop in TP.
  assert (Hkeys : map MU_file1 t = map MU_file1 t0
                  /\ map MU_file2 t = map MU_file2 t0
                  /\ map drop_inclusion t = map drop_inclusion t0).
  { destruct (gui args); [destruct (is_empty t0)|];
      unfold tret in H; injection H as _ <-;
      auto using Tracking_gui_keys. }
  destruct Hkeys as (K1 & K2 & K3). rewrite K1, K2, K3.
  repeat split; auto.
  exists (s1, s2), res, cand, tr1, tr2.
  repeat split; auto.
  intros t' TP' St'.
  apply (FilterFacts.two_pass_survivors_unique (map drop_inclusion cand)); auto.
  rewrite map_map. exact S1.
Qed.

(** The two candidates [(0, 0, 0.9)] and [(1, 0, 0.95)] share their MU of
    file 2: the filter keeps the second row only. *)
Lemma filter_phase_shared_mu :
  filter_phase [mkRow 0 0 (Val (9 # 10)) None; mkRow 1 0 (Val (95 # 100)) None]
  = inr [mkRow 1 0 (Val (95 # 100)) None].
Proof. reflexivity. Qed.

(** With these candidates no other sorted table passes for the survivors
    of the two passes. *)
Lemma shared_mu_only_survivor (t : table) :
  two_pass_survivors
    [mkRow 0 0 (Val (9 # 10)) None; mkRow 1 0 (Val (95 # 100)) None] t ->
  StronglySorted lt (map MU_file1 t) ->
  t = [mkRow 1 0 (Val (95 # 100)) None].
Proof.
  intros H S.
  destruct (FilterFacts.filter_phase_result _ _ filter_phase_shared_mu)
    as (_ & _ & S' & H').
  exact (FilterFacts.two_pass_survivors_unique _ _ _ H H' S S').
Qed.

Lemma filtered_matching_unique_witness :
  NoDup (map MU_file1 [mkRow 0 1 (Val 1) None; mkRow 1 0 (Val 1) None]).
Proof.
  apply (proj1 (filtered_matching_unique
                  Examples.one_column_sorter XcorrModel.norm_twod_xcorr
                  Examples.in_order_pool (fun _ => Included)
                  Examples.emgfile_A Examples.emgfile_B
                  (Examples.example_args "mono" (Val (4 # 5)) PyNone true true false)
                  [EvSortRawemg; EvSortRawemg; EvSta; EvSta;
                   EvCompare 0 0; EvCompare 0 1; EvCompare 1 0; EvCompare 1 1]
                  [mkRow 0 1 (Val 1) None; mkRow 1 0 (Val 1) None]
                  eq_refl ltac:(vm_compute; reflexivity))).
Defined.

(** ** tracking: pool against serial loop *)

Section PoolAndLoop.

Variable norm_twod_xcorr :
  frame -> frame -> xcorr_mode -> result (frame * sample).
Variable Parallel : forall A : Type, list (unit -> A) -> list A.
Hypothesis Parallel_ordered : ordered_pool Parallel.
Variables emgfile1 emgfile2 : emgfile.
Variable args : tracking_args.
Variables sta_emgfile1 sta_emgfile2 : sta_dict.

Abbreviation task :=
  (parallel norm_twod_xcorr emgfile2 args sta_emgfile1 sta_emgfile2).

Lemma serial_loop_tsequence (mus : list nat) (acc : list table) :
  serial_loop norm_twod_xcorr emgfile2 args sta_emgfile1 sta_emgfile2 mus acc
  = (rs <- tsequence (map task mus) ;; tret (acc ++ rs))%traced.
Proof.
  revert acc. induction mus as [|mu mus IH]; intros acc.
  - simpl. now rewrite app_nil_r.
  - cbn [serial_loop map tsequence].
    destruct (task mu) as [t1 [e|y]]; [reflexivity|].
    cbn [tbind]. rewrite IH.
    destruct (tsequence (map task mus)) as [t2 [e|ys]]; cbn.
    + reflexivity.
    + rewrite ?app_nil_r, <- ?app_assoc. reflexivity.
Qed.

Lemma parallel_with_multiprocessing (b : bool) (mu : nat) :
  parallel norm_twod_xcorr emgfile2 (with_multiprocessing b args)
           sta_emgfile1 sta_emgfile2 mu
  = task mu.
Proof. destruct args. reflexivity. Qed.

Lemma compare_all_pool_serial :
  compare_all norm_twod_xcorr Parallel emgfile1 emgfile2
              (with_multiprocessing true args) sta_emgfile1 sta_emgfile2
  = compare_all norm_twod_xcorr Parallel emgfile1 emgfile2
                (with_multiprocessing false args) sta_emgfile1 sta_emgfile2.
Proof.
  unfold compare_all. cbn [multiprocessing with_multiprocessing].
  rewrite Parallel_ordered, map_map.
  rewrite (map_ext _ task) by (intros mu; apply parallel_with_multiprocessing).
  transitivity (serial_loop norm_twod_xcorr emgfile2 args
                            sta_emgfile1 sta_emgfile2
                            (seq 0 (NUMBER_OF_MUS emgfile1)) []).
  - rewrite serial_loop_tsequence.
    destruct (tsequence (map task _)) as [t [e|rs]]; cbn; [reflexivity|].
    now rewrite app_nil_r.
  - generalize (seq 0 (NUMBER_OF_MUS emgfile1)), (@nil table).
    induction l as [|mu mus IH]; intros acc; [reflexivity|].
    cbn [serial_loop]. rewrite parallel_with_multiprocessing.
    destruct (task mu) as [t1 [e|y]]; [reflexivity|].
    cbn [tbind]. now rewrite IH.
Qed.

End PoolAndLoop.

(** C6: whatever the inputs and the remaining arguments, [tracking] with
    [multiprocessing=True] and with [multiprocessing=False] end alike, and
    when they return, their tables hold the same rows.  The pool is only
    known through joblib's contract that results come back in the order
    of submission. *)
Theorem parallel_serial_equivalence
  (sort_rawemg : emgfile -> sort_args -> result grid)
  (norm_twod_xcorr : frame -> frame -> xcorr_mode -> result (frame * sample))
  (Parallel : forall A : Type, list (unit -> A) -> list A)
  (gui_decision : nat -> inclusion)
  (emgfile1 emgfile2 : emgfile) (args : tracking_args) :
  ordered_pool Parallel ->
  snd (tracking sort_rawemg norm_twod_xcorr Parallel gui_decision
                emgfile1 emgfile2 (with_multiprocessing true args))
  = snd (tracking sort_rawemg norm_twod_xcorr Parallel gui_decision
                  emgfile1 emgfile2 (with_multiprocessing false args))
  /\ forall t1 t2,
      snd (tracking sort_rawemg norm_twod_xcorr Parallel gui_decision
                    emgfile1 emgfile2 (with_multiprocessing true args)) = inr t1 ->
      snd (tracking sort_rawemg norm_twod_xcorr Parallel gui_decision
                    emgfile1 emgfile2 (with_multiprocessing false args)) = inr t2 ->
      Permutation t1 t2.
Proof.
  intros Hpool.
  assert (E : tracking sort_rawemg norm_twod_xcorr Parallel gui_decision
                       emgfile1 emgfile2 (with_multiprocessing true args)
              = tracking sort_rawemg norm_twod_xcorr Parallel gui_decision
                         emgfile1 emgfile2 (with_multiprocessing false args)).
  { unfold tracking.
    replace (obtain_stas sort_rawemg emgfile1 emgfile2
                         (with_multiprocessing true args))
      with (obtain_stas sort_rawemg emgfile1 emgfile2
                        (with_multiprocessing false args))
      by (destruct args; reflexivity).
    destruct (obtain_stas _ _ _ _) as [t [e|[s1 s2]]]; [reflexivity|].
    cbn [tbind]. unfold track_from_stas.
    rewrite (compare_all_pool_serial norm_twod_xcorr Parallel Hpool).
    destruct args; reflexivity. }
  rewrite E. split; [reflexivity|].
  intros t1 t2 H1 H2. rewrite H1 in H2. inversion H2. reflexivity.
Qed.

Lemma parallel_serial_equivalence_witness :
  snd (Examples.example_tracking
         (with_multiprocessing true
            (Examples.example_args "mono" (Val (4 # 5)) PyNone true true false)))
  = snd (Examples.example_tracking
           (with_multiprocessing false
              (Examples.example_args "mono" (Val (4 # 5)) PyNone true true false))).
Proof.
  apply (proj1 (parallel_serial_equivalence
                  Examples.one_column_sorter XcorrModel.norm_twod_xcorr
                  Examples.in_order_pool (fun _ => Included)
                  Examples.emgfile_A Examples.emgfile_B
                  (Examples.example_args "mono" (Val (4 # 5)) PyNone true true false)
                  (fun A tasks => eq_refl))).
Defined.

(** ** tracking: configuration errors *)

(** C7, as stated, fails on both counts: an unknown derivation goes
    unnoticed when two custom MUAP dicts are given, and a custom input
    that is not a list, here a single dict, is not refused but ignored. *)
Lemma config_errors_not_always_raised :
  derivation_known "foo" = false
  /\ snd (Examples.example_tracking
            (Examples.example_args "foo" (Val (4 # 5))
               (PyList [PyDict Examples.stas_A; PyDict Examples.stas_B])
               true true false))
     = inr [mkRow 0 1 (Val 1) None; mkRow 1 0 (Val 1) None]
  /\ snd (Examples.example_tracking
            (Examples.example_args "mono" (Val (4 # 5))
               (PyDict Examples.stas_A) true true false))
     = inr [mkRow 0 1 (Val 1) None; mkRow 1 0 (Val 1) None].
Proof. repeat split; vm_compute; reflexivity. Qed.

Lemma derivation_unknown (d : string) :
  derivation_known d = false ->
  String.eqb d "mono" = false /\ String.eqb d "sd" = false
  /\ String.eqb d "dd" = false.
Proof.
  unfold derivation_known. intros H.
  apply orb_false_elim in H. destruct H as [H H3].
  apply orb_false_elim in H. destruct H as [H1 H2]. auto.
Qed.

(** C7 (amended): [tracking] raises before template extraction and before
    any comparison whenever [custom_muaps] is a list that does not hold
    exactly two dicts, and, when [custom_muaps] is not a list, whenever
    the derivation is none of 'mono', 'sd', 'dd'.  In the first case
    nothing has been started and the error is a ValueError; in the second
    only the sorting has been entered and the error is the ValueError on
    the derivation unless [sort_rawemg] itself failed. *)
Theorem config_errors_raised_early
  (sort_rawemg : emgfile -> sort_args -> result grid)
  (norm_twod_xcorr : frame -> frame -> xcorr_mode -> result (frame * sample))
  (Parallel : forall A : Type, list (unit -> A) -> list A)
  (gui_decision : nat -> inclusion)
  (emgfile1 emgfile2 : emgfile) (args : tracking_args) :
  rejected_config (custom_muaps args) (derivation args) = true ->
  exists tr e,
    tracking sort_rawemg norm_twod_xcorr Parallel gui_decision
             emgfile1 emgfile2 args = (tr, inl e)
    /\ existsb heavy tr = false
    /\ (is_list (custom_muaps args) = true ->
        tr = [] /\ exists msg, e = ValueError msg)
    /\ (is_list (custom_muaps args) = false ->
        forall g1 g2,
          sort_rawemg emgfile1 (sorting args) = inr g1 ->
          sort_rawemg emgfile2 (sorting args) = inr g2 ->
          e = ValueError "derivation can be one of 'mono', 'sd', 'dd'.").
Proof.
  intros Hrej. unfold tracking, obtain_stas.
  destruct (custom_muaps args) as [|d|items|items|s] eqn:Hc; cbn [is_list negb];
    try (simpl in Hrej; apply negb_true_iff in Hrej;
         apply derivation_unknown in Hrej; destruct Hrej as (E1 & E2 & E3);
         rewrite E1, E2, E3;
         destruct (sort_rawemg emgfile1 (sorting args)) as [e1|g1];
         [ eexists; eexists; cbn; repeat split; try discriminate;
           intros _ g1 g2 H; discriminate
         | destruct (sort_rawemg emgfile2 (sorting args)) as [e2|g2];
           [ eexists; eexists; cbn; repeat split; try discriminate;
             intros _ g1' g2 _ H; discriminate
           | eexists; eexists; cbn; repeat split; try discriminate ] ]).
  destruct items as [|a [|b [|c items]]];
    try (eexists; eexists; cbn; repeat split; eauto; discriminate).
  destruct a, b; simpl in Hrej; try discriminate;
    eexists; eexists; cbn; repeat split; eauto; discriminate.
Qed.

Lemma config_errors_raised_early_witness :
  exists tr e,
    Examples.example_tracking
      (Examples.example_args "foo" (Val (4 # 5)) PyNone true true false)
    = (tr, inl e)
    /\ existsb heavy tr = false
    /\ (is_list PyNone = true -> tr = [] /\ exists msg, e = ValueError msg)
    /\ (is_list PyNone = false ->
        forall g1 g2,
          Examples.one_column_sorter Examples.emgfile_A Examples.no_sorting = inr g1 ->
          Examples.one_column_sorter Examples.emgfile_B Examples.no_sorting = inr g2 ->
          e = ValueError "derivation can be one of 'mono', 'sd', 'dd'.").
Proof.
  apply (config_errors_raised_early
           Examples.one_column_sorter XcorrModel.norm_twod_xcorr
           Examples.in_order_pool (fun _ => Included)
           Examples.emgfile_A Examples.emgfile_B
           (Examples.example_args "foo" (Val (4 # 5)) PyNone true true false)).
  reflexivity.
Defined.

(** ** estimate_cv_via_mle *)

(** C8, as stated, fails: the function validates nothing.  With one
    channel the failure is the IndexError of the channel selection, not a
    validation error; and a channel that holds fewer samples than the
    others, which a DataFrame can only carry padded with NaN, is handed to
    the MLE search. *)
Lemma cv_no_validation :
  estimate_cv_via_mle Examples.stub_find_mle_teta Examples.stub_mle_cv_est
                      Examples.edge_emgfile Examples.one_channel_signal
  = ([], inl (IndexError "index is out of bounds for axis 0"))
  /\ (forall msg, IndexError "index is out of bounds for axis 0" <> ValueError msg)
  /\ fst (estimate_cv_via_mle Examples.stub_find_mle_teta Examples.stub_mle_cv_est
                              Examples.edge_emgfile Examples.padded_signal)
     = [EvFindMleTeta; EvMleCvEst].
Proof.
  split; [reflexivity|]. split; [discriminate|reflexivity].
Qed.

(** C8 (amended): with fewer than two channels [estimate_cv_via_mle] fails
    with the IndexError of the channel selection before [find_mle_teta] is
    entered; with two channels or more it enters the MLE search whatever
    the channels hold. *)
Theorem cv_channel_selection
  (find_mle_teta : list sample -> list sample -> Q -> Q -> result sample)
  (mle_cv_est : list (list sample) -> sample -> Q -> Q -> result (sample * sample))
  (e : emgfile) (signal : frame) :
  ((length (columns signal) < 2)%nat ->
   exists msg,
     estimate_cv_via_mle find_mle_teta mle_cv_est e signal
     = ([], inl (IndexError msg)))
  /\ ((2 <= length (columns signal))%nat ->
      exists tr r,
        estimate_cv_via_mle find_mle_teta mle_cv_est e signal
        = (EvFindMleTeta :: tr, r)).
Proof.
  unfold estimate_cv_via_mle. split; intros H.
  - destruct (columns signal) as [|c [|c' cols]]; simpl in *.
    + eexists. reflexivity.
    + eexists. reflexivity.
    + lia.
  - destruct (columns signal) as [|c0 [|c1 [|c2 [|c3 cols]]]]; simpl in H;
      try lia; cbn;
      match goal with
      | |- context [find_mle_teta ?a ?b ?c ?d] =>
          destruct (find_mle_teta a b c d) as [err|teta]; cbn;
          [eexists; eexists; reflexivity|];
          match goal with
          | |- context [mle_cv_est ?s ?t ?i ?f] =>
              destruct (mle_cv_est s t i f) as [err|[cv teta']]; cbn;
              eexists; eexists; reflexivity
          end
      end.
Qed.

Lemma cv_channel_selection_witness :
  exists msg,
    estimate_cv_via_mle Examples.stub_find_mle_teta Examples.stub_mle_cv_est
                        Examples.edge_emgfile Examples.one_channel_signal
    = ([], inl (IndexError msg)).
Proof.
  apply (proj1 (cv_channel_selection Examples.stub_find_mle_teta
                                     Examples.stub_mle_cv_est
                                     Examples.edge_emgfile
                                     Examples.one_channel_signal)).
  simpl. lia.
Defined.

(** * Further properties of the module *)

(** ** sta and st_muap *)

Module StaMore.

Import Sta.

Lemma dict_set_fresh_label {V} (d : dict label V) (k : label) (v : V) :
  ~ In k (dict_keys d) -> dict_set label_eqb d k v = d ++ [(k, v)].
Proof.
  unfold dict_keys. induction d as [|[k' v'] d IH]; simpl; intros H.
  - reflexivity.
  - destruct (label_eqb k' k) eqn:E.
    + apply PackFacts.label_eqb_eq in E. subst. exfalso. apply H. now left.
    + f_equal. apply IH. tauto.
Qed.

Lemma np_mean_single (a : list sample) :
  np_mean_axis0 [a] = inr (MeanArray (map (fun s => sample_div_nat s 1) a)).
Proof. reflexivity. Qed.

Lemma empty_fill_mean (emg_array : list sample) (n : nat) :
  map (fun s => sample_div_nat s 1) (repeat (empty_fill emg_array) n)
  = repeat (empty_fill emg_array) n.
Proof.
  induction n as [|n IH]; simpl; [reflexivity|].
  rewrite IH. f_equal. unfold empty_fill.
  destruct (forallb isnan emg_array); reflexivity.
Qed.

Lemma sta_values_empty (emg_array : list sample) (halftime tottime : Z) :
  0 <= tottime ->
  sta_values emg_array [] halftime tottime
  = inr [repeat (empty_fill emg_array) (Z.to_nat tottime)].
Proof.
  intros H. unfold sta_values, empty_fill, np_full. simpl.
  destruct (tottime <? 0) eqn:E; [apply Z.ltb_lt in E; lia|].
  destruct (forallb isnan emg_array); reflexivity.
Qed.

Lemma row_loop_empty (cols : list (label * list sample)) (halftime tottime : Z)
  (acc : dict label mean_result) :
  0 <= tottime ->
  NoDup (dict_keys acc ++ map fst cols) ->
  row_loop cols [] halftime tottime acc
  = inr (acc ++ map (fun c => (fst c,
                               MeanArray (repeat (empty_fill (snd c))
                                                 (Z.to_nat tottime))))
                    cols).
Proof.
  intros Ht. revert acc. induction cols as [|[row emg_array] cols IH];
    intros acc Hnd; cbn [row_loop].
  - simpl. now rewrite app_nil_r.
  - rewrite sta_values_empty by assumption. cbn [rbind].
    rewrite np_mean_single. cbn [rbind]. rewrite empty_fill_mean.
    rewrite dict_set_fresh_label.
    + rewrite IH.
      * cbn [map fst snd]. now rewrite <- app_assoc.
      * unfold dict_keys in *. rewrite map_app. cbn [map fst].
        now rewrite <- app_assoc.
    + intros Hin. simpl in Hnd. apply NoDup_remove_2 in Hnd. apply Hnd.
      apply in_or_app. now left.
Qed.

Lemma sta_column_empty (df : frame) (halftime tottime : Z) :
  0 <= tottime ->
  distinct_labels df ->
  sta_column df [] halftime tottime = inr (empty_template tottime df).
Proof.
  intros Ht Hnd. unfold sta_column, empty_template.
  rewrite row_loop_empty by (simpl; assumption).
  cbn [rbind app]. destruct (columns df) as [|c cols] eqn:E; [reflexivity|].
  unfold DataFrame_of_dict.
  set (d := map _ (c :: cols)).
  assert (Hl : mean_lengths d = repeat (Z.to_nat tottime) (length (c :: cols))).
  { subst d. generalize (c :: cols). intros l.
    induction l as [|x l IH]; simpl; [reflexivity|].
    rewrite repeat_length. f_equal. exact IH. }
  destruct d as [|kv d'] eqn:Ed; [discriminate|].
  rewrite Hl. cbn [length repeat].
  assert (Hall : forallb (Nat.eqb (Z.to_nat tottime))
                         (repeat (Z.to_nat tottime) (length cols)) = true).
  { apply forallb_forall. intros x Hx. apply repeat_spec in Hx. subst.
    apply Nat.eqb_refl. }
  rewrite Hall. unfold ok. f_equal. f_equal.
  rewrite <- Ed. subst d. rewrite map_map. reflexivity.
Qed.

Lemma col_loop_empty (g : grid) (halftime tottime : Z) (acc : sta_mu_dict) :
  0 <= tottime ->
  NoDup (dict_keys acc ++ dict_keys g) ->
  Forall (fun kv => distinct_labels (snd kv)) g ->
  col_loop g [] halftime tottime acc
  = inr (acc ++ map (fun kv => (fst kv, empty_template tottime (snd kv))) g).
Proof.
  intros Ht. revert acc. induction g as [|[col df] g IH]; intros acc Hnd Hl;
    cbn [col_loop].
  - simpl. now rewrite app_nil_r.
  - inversion Hl as [|? ? Hdf Hg]; subst. cbn [snd] in Hdf.
    rewrite sta_column_empty by assumption. cbn [rbind].
    rewrite PackFacts.dict_set_fresh.
    + rewrite IH; auto.
      * cbn [map fst snd]. now rewrite <- app_assoc.
      * unfold dict_keys in *. rewrite map_app. cbn [map fst].
        now rewrite <- app_assoc.
    + intros Hin. unfold dict_keys in Hnd. simpl in Hnd.
      apply NoDup_remove_2 in Hnd. apply Hnd. apply in_or_app. now left.
Qed.

Lemma sta_one_mu_selected (e : emgfile) (g : grid) (firings : firings_arg)
  (halftime tottime : Z) (mu : nat) (pulses : list Z) :
  mupulses_of e mu = inr pulses ->
  sta_one_mu e g firings halftime tottime mu
  = (s <- col_loop g (selected_firings firings pulses) halftime tottime [] ;;
     ok (mu, s))%result.
Proof.
  intros H. unfold sta_one_mu. rewrite H. cbn [rbind].
  destruct firings; reflexivity.
Qed.

End StaMore.

(** X1: for an MU none of whose firings is selected (an empty MU, or a
    [firings] range past its last firing), [sta] builds for every matrix
    column a template of [tottime] samples per channel: zero everywhere,
    NaN for a channel that is empty (all NaN); a matrix column without
    channels gives the empty frame. *)
Theorem sta_empty_firing_train (e : emgfile) (g : grid) (firings : firings_arg)
  (halftime tottime : Z) (mu : nat) (pulses : list Z) :
  0 <= tottime ->
  grid_wf g ->
  mupulses_of e mu = inr pulses ->
  selected_firings firings pulses = [] ->
  Sta.sta_one_mu e g firings halftime tottime mu
  = inr (mu, map (fun kv => (fst kv, empty_template tottime (snd kv))) g).
Proof.
  intros Ht [Hk Hl] Hp Hs.
  rewrite (StaMore.sta_one_mu_selected _ _ _ _ _ _ _ Hp), Hs.
  rewrite StaMore.col_loop_empty; auto.
Qed.

Lemma sta_empty_firing_train_witness :
  Sta.sta_one_mu (mkEmgfile 1000 8 1 [[]] Examples.raw_A)
                 [("col0"%string, Examples.raw_A)] (FiringsRange 0 50) 20 40 0
  = inr (0%nat, [("col0"%string, empty_template 40 Examples.raw_A)]).
Proof.
  apply (sta_empty_firing_train (mkEmgfile 1000 8 1 [[]] Examples.raw_A)
           [("col0"%string, Examples.raw_A)] (FiringsRange 0 50) 20 40 0 []).
  - lia.
  - split.
    + repeat constructor. simpl. tauto.
    + repeat constructor; simpl; intuition discriminate.
  - reflexivity.
  - reflexivity.
Defined.

Lemma length_py_slice_eq {A} (l : list A) (a b : Z) :
  length (py_slice l a b)
  = Z.to_nat (py_slice_bound (Z.of_nat (length l)) b
              - py_slice_bound (Z.of_nat (length l)) a).
Proof.
  unfold py_slice. rewrite length_firstn, length_skipn.
  unfold py_slice_bound.
  destruct (a <? 0) eqn:Ea, (b <? 0) eqn:Eb;
    rewrite ?Z.ltb_lt, ?Z.ltb_ge in *; lia.
Qed.

Lemma window_complete_iff {A} (emg_array : list A) (halftime pulse : Z) :
  0 < halftime -> 0 <= pulse ->
  (Z.of_nat (length (py_slice emg_array (pulse - halftime) (pulse + halftime)))
   =? halftime * 2)
  = inside_window (length emg_array) halftime pulse.
Proof.
  intros Hh Hp. rewrite length_py_slice_eq. unfold inside_window, py_slice_bound.
  apply eq_true_iff_eq.
  rewrite Z.eqb_eq, andb_true_iff, !Z.leb_le.
  destruct (pulse - halftime <? 0) eqn:Ea, (pulse + halftime <? 0) eqn:Eb;
    rewrite ?Z.ltb_lt, ?Z.ltb_ge in *; lia.
Qed.

Lemma complete_windows_closed (emg_array : list sample) (thismups : list Z)
  (halftime : Z) :
  0 < halftime ->
  Forall (fun pulse => 0 <= pulse) thismups ->
  Sta.complete_windows emg_array thismups halftime (halftime * 2)
  = map (fun pulse => py_slice emg_array (pulse - halftime) (pulse + halftime))
        (filter (inside_window (length emg_array) halftime) thismups).
Proof.
  intros Hh Hp. unfold Sta.complete_windows.
  rewrite filter_map_swap. f_equal.
  apply filter_ext_in. intros p Hin.
  rewrite Forall_forall in Hp.
  now apply window_complete_iff; [|apply Hp].
Qed.

(** X2: the windows [sta] averages for a channel of [n] samples are exactly
    those of the firings that lie at least [halftime] samples after the
    start and at least [halftime] samples before the end of the recording
    ([halftime <= pulse] and [pulse + halftime <= n]); the windows of all
    other firings are dropped. *)
Theorem sta_keeps_inner_firings (emg_array : list sample) (thismups : list Z)
  (halftime : Z) :
  0 < halftime ->
  Forall (fun pulse => 0 <= pulse) thismups ->
  Sta.complete_windows emg_array thismups halftime (halftime * 2)
  = map (fun pulse => py_slice emg_array (pulse - halftime) (pulse + halftime))
        (filter (inside_window (length emg_array) halftime) thismups).
Proof. exact (complete_windows_closed emg_array thismups halftime). Qed.

Lemma sta_keeps_inner_firings_witness :
  Sta.complete_windows (Examples.channel 64 [(5%nat, 1%Q)]) [3; 32; 60] 10 (10 * 2)
  = map (fun pulse => py_slice (Examples.channel 64 [(5%nat, 1%Q)])
                               (pulse - 10) (pulse + 10))
        (filter (inside_window (length (Examples.channel 64 [(5%nat, 1%Q)])) 10)
                [3; 32; 60]).
Proof.
  apply (sta_keeps_inner_firings (Examples.channel 64 [(5%nat, 1%Q)])
                                 [3; 32; 60] 10).
  - lia.
  - repeat constructor; lia.
Defined.

Module StaWindows.

Import Sta.

Lemma complete_windows_nil (emg_array : list sample) (thismups : list Z)
  (halftime : Z) :
  0 < halftime ->
  Forall (fun pulse => 0 <= pulse) thismups ->
  existsb (inside_window (length emg_array) halftime) thismups = false ->
  complete_windows emg_array thismups halftime (halftime * 2) = [].
Proof.
  intros Hh Hp He. rewrite complete_windows_closed by assumption.
  rewrite PackFacts.filter_none; [reflexivity|].
  intros p Hin. apply not_true_is_false. intros Hc.
  assert (existsb (inside_window (length emg_array) halftime) thismups = true)
    by (apply existsb_exists; eauto).
  congruence.
Qed.

Lemma complete_windows_cons (emg_array : list sample) (thismups : list Z)
  (halftime : Z) :
  0 < halftime ->
  Forall (fun pulse => 0 <= pulse) thismups ->
  existsb (inside_window (length emg_array) halftime) thismups = true ->
  exists v rest,
    complete_windows emg_array thismups halftime (halftime * 2) = v :: rest.
Proof.
  intros Hh Hp He. rewrite complete_windows_closed by assumption.
  apply existsb_exists in He. destruct He as (p & Hin & Hp').
  assert (Hf : In p (filter (inside_window (length emg_array) halftime) thismups))
    by (apply filter_In; auto).
  destruct (filter _ thismups) as [|q qs]; [contradiction|].
  simpl. eauto.
Qed.

Lemma np_mean_windows (t : Z) (v : list sample) (rest : list (list sample)) :
  Forall (fun ls => Z.of_nat (length ls) = t) (v :: rest) ->
  exists a, np_mean_axis0 (v :: rest) = inr (MeanArray a)
            /\ Z.of_nat (length a) = t.
Proof.
  intros H. unfold np_mean_axis0.
  assert (E : forallb (fun w => Nat.eqb (length w) (length v)) rest = true).
  { apply forallb_forall. intros w Hw. apply Nat.eqb_eq.
    inversion H as [|? ? Hv Hrest]; subst.
    rewrite Forall_forall in Hrest. specialize (Hrest w Hw). lia. }
  rewrite E. eexists. split; [reflexivity|].
  assert (G : mean_spans t (MeanArray
                 (map (fun s => sample_div_nat s (length (v :: rest)))
                      (fold_left zip_add rest v)))).
  { apply (StaFacts.np_mean_spans t (v :: rest)); [assumption|].
    unfold np_mean_axis0. rewrite E. reflexivity. }
  exact G.
Qed.

Lemma row_loop_scalars (cols : list (label * list sample)) (thismups : list Z)
  (halftime : Z) (n : nat) (acc : dict label mean_result) :
  0 < halftime -> thismups <> [] ->
  Forall (fun pulse => 0 <= pulse) thismups ->
  Forall (fun c => length (snd c) = n) cols ->
  existsb (inside_window n halftime) thismups = false ->
  Forall (fun kv => is_scalar (snd kv)) acc ->
  exists d,
    row_loop cols thismups halftime (halftime * 2) acc = inr d
    /\ Forall (fun kv => is_scalar (snd kv)) d
    /\ (acc <> [] \/ cols <> [] -> d <> []).
Proof.
  intros Hh Hne Hp Hlen He. revert acc.
  induction Hlen as [|[row emg_array] cols Hc Hcols IH]; intros acc Hacc;
    cbn [row_loop].
  - exists acc. repeat split; auto. intros [H|H]; [exact H|congruence].
  - unfold sta_values. destruct thismups as [|p ps]; [congruence|].
    cbn [length Nat.ltb Nat.leb rbind]. cbn [snd] in Hc. subst n.
    rewrite complete_windows_nil by assumption.
    cbn [np_mean_axis0 rbind].
    destruct (IH (dict_set label_eqb acc row (MeanScalar NaN))) as (d & Hd & Hs & Hn).
    + apply dict_set_Forall; [assumption|]. intros ?. exact I.
    + exists d. repeat split; auto. intros _. apply Hn. left.
      destruct acc as [|[k v] acc']; simpl; [discriminate|].
      destruct (label_eqb k row); discriminate.
Qed.

Lemma row_loop_arrays (cols : list (label * list sample)) (thismups : list Z)
  (halftime : Z) (n : nat) (acc : dict label mean_result) :
  0 < halftime -> thismups <> [] ->
  Forall (fun pulse => 0 <= pulse) thismups ->
  Forall (fun c => length (snd c) = n) cols ->
  existsb (inside_window n halftime) thismups = true ->
  NoDup (dict_keys acc ++ map fst cols) ->
  Forall (fun kv => is_array_of (halftime * 2) (snd kv)) acc ->
  exists d,
    row_loop cols thismups halftime (halftime * 2) acc = inr d
    /\ Forall (fun kv => is_array_of (halftime * 2) (snd kv)) d
    /\ dict_keys d = dict_keys acc ++ map fst cols.
Proof.
  intros Hh Hne Hp Hlen He. revert acc.
  induction Hlen as [|[row emg_array] cols Hc Hcols IH]; intros acc Hnd Hacc;
    cbn [row_loop].
  - exists acc. repeat split; auto. simpl. now rewrite app_nil_r.
  - unfold sta_values. destruct thismups as [|p ps] eqn:Et; [congruence|].
    cbn [length Nat.ltb Nat.leb rbind]. cbn [snd] in Hc. subst n.
    destruct (complete_windows_cons emg_array (p :: ps) halftime Hh Hp He)
      as (v & rest & Hw).
    pose proof (StaFacts.complete_windows_span emg_array (p :: ps) halftime
                                               (halftime * 2)) as Hspan.
    rewrite Hw in *. cbn [rbind ok].
    destruct (np_mean_windows _ _ _ Hspan) as (a & Ha & Hla).
    rewrite Ha. cbn [rbind].
    assert (Hfresh : ~ In row (dict_keys acc)).
    { intros Hin. simpl in Hnd. apply NoDup_remove_2 in Hnd. apply Hnd.
      apply in_or_app. now left. }
    rewrite StaMore.dict_set_fresh_label by assumption.
    destruct (IH (acc ++ [(row, MeanArray a)])) as (d & Hd & Hs & Hk).
    + unfold dict_keys in *. rewrite map_app. cbn [map fst].
      now rewrite <- app_assoc.
    + apply Forall_app. split; [assumption|]. constructor; [exact Hla|constructor].
    + exists d. repeat split; auto. rewrite Hk.
      unfold dict_keys. rewrite map_app. cbn [map fst].
      now rewrite <- app_assoc.
Qed.

Lemma mean_lengths_scalars (d : dict label mean_result) :
  Forall (fun kv => is_scalar (snd kv)) d -> mean_lengths d = [].
Proof.
  induction 1 as [|[k m] d Hm _ IH]; simpl; [reflexivity|].
  destruct m; simpl in *; [exact IH|contradiction].
Qed.

Lemma mean_lengths_arrays (t : Z) (d : dict label mean_result) :
  Forall (fun kv => is_array_of t (snd kv)) d ->
  mean_lengths d = repeat (Z.to_nat t) (length d)
  /\ map (fun kv => (fst kv, broadcast (Z.to_nat t) (snd kv))) d
     = map (fun kv => (fst kv, broadcast 0 (snd kv))) d.
Proof.
  induction 1 as [|[k m] d Hm _ [IH1 IH2]]; simpl; [auto|].
  destruct m as [s|a]; simpl in *; [contradiction|].
  rewrite IH1, IH2. split; [|reflexivity]. f_equal. lia.
Qed.

End StaWindows.

(** X3: for a matrix column with at least one channel, all channels of [n]
    samples, and a non-empty selection of firings, [sta] returns a template
    (index [0 .. tottime-1], the channel labels of the grid) exactly when
    some selected firing lies at least [halftime] samples from both ends
    of the recording; otherwise [pd.DataFrame] refuses the dict of scalar
    means and [sta] raises ValueError. *)
Theorem sta_column_outcome (df : frame) (thismups : list Z) (halftime : Z)
  (n : nat) :
  0 < halftime -> thismups <> [] ->
  Forall (fun pulse => 0 <= pulse) thismups ->
  columns df <> [] ->
  channels_of_length n df ->
  distinct_labels df ->
  if existsb (inside_window n halftime) thismups
  then exists fr,
      Sta.sta_column df thismups halftime (halftime * 2) = inr fr
      /\ index fr = range (Z.to_nat (halftime * 2))
      /\ column_labels fr = column_labels df
  else Sta.sta_column df thismups halftime (halftime * 2)
       = inl (ValueError "If using all scalar values, you must pass an index").
Proof.
  intros Hh Hne Hp Hcols Hlen Hnd. unfold Sta.sta_column.
  destruct (existsb (inside_window n halftime) thismups) eqn:He.
  - destruct (StaWindows.row_loop_arrays (columns df) thismups halftime n []
                Hh Hne Hp Hlen He) as (d & Hd & Ha & Hk);
      [exact Hnd|constructor|].
    rewrite Hd. cbn [rbind]. simpl in Hk.
    destruct (StaWindows.mean_lengths_arrays _ _ Ha) as [Hl _].
    unfold DataFrame_of_dict.
    destruct d as [|kv d'] eqn:Ed.
    { destruct (columns df); [congruence|discriminate]. }
    rewrite Hl. cbn [length repeat].
    assert (Hall : forallb (Nat.eqb (Z.to_nat (halftime * 2)))
                           (repeat (Z.to_nat (halftime * 2)) (length d')) = true).
    { apply forallb_forall. intros x Hx. apply repeat_spec in Hx. subst.
      apply Nat.eqb_refl. }
    rewrite Hall. eexists. split; [reflexivity|]. split; [reflexivity|].
    unfold column_labels. cbn [columns]. rewrite map_map. exact Hk.
  - destruct (StaWindows.row_loop_scalars (columns df) thismups halftime n []
                Hh Hne Hp Hlen He) as (d & Hd & Hs & Hn); [constructor|].
    rewrite Hd. cbn [rbind]. unfold DataFrame_of_dict.
    destruct d as [|kv d'] eqn:Ed; [exfalso; apply Hn; auto|].
    now rewrite (StaWindows.mean_lengths_scalars _ Hs).
Qed.

Lemma sta_column_outcome_witness :
  exists fr,
    Sta.sta_column Examples.raw_A [30] 20 (20 * 2) = inr fr
    /\ index fr = range (Z.to_nat (20 * 2))
    /\ column_labels fr = column_labels Examples.raw_A.
Proof.
  apply (sta_column_outcome Examples.raw_A [30] 20 128).
  - lia.
  - discriminate.
  - repeat constructor; lia.
  - discriminate.
  - repeat constructor.
  - unfold distinct_labels. simpl.
    repeat constructor; simpl; intuition discriminate.
Defined.

Lemma flat_map_filter {A B} (p : A -> bool) (f : A -> B) (l : list A) :
  flat_map (fun x => if p x then [f x] else []) l = map f (filter p l).
Proof.
  induction l as [|x l IH]; simpl; [reflexivity|].
  destruct (p x); simpl; now rewrite IH.
Qed.

Lemma flat_map_ext_in {A B} (f g : A -> list B) (l : list A) :
  (forall x, In x l -> f x = g x) -> flat_map f l = flat_map g l.
Proof.
  intros H. rewrite !flat_map_concat_map. f_equal. now apply map_ext_in.
Qed.

Lemma DataFrame_of_arrays (t : nat) (d : list (label * list sample)) :
  Forall (fun c => length (snd c) = t) d ->
  DataFrame_of_dict (map (fun c => (fst c, MeanArray (snd c))) d)
  = inr (match d with
         | [] => mkFrame [] []
         | _ :: _ => mkFrame (range t) d
         end).
Proof.
  intros H. destruct d as [|c d']; [reflexivity|].
  unfold DataFrame_of_dict.
  assert (Hl : forall l, Forall (fun c : label * list sample => length (snd c) = t) l ->
                         mean_lengths (map (fun c => (fst c, MeanArray (snd c))) l)
                         = repeat t (length l)).
  { induction 1 as [|x l Hx _ IH]; simpl; [reflexivity|]. now rewrite Hx, IH. }
  rewrite (Hl _ H). cbn [map length repeat].
  assert (Hall : forallb (Nat.eqb t) (repeat t (length d')) = true).
  { apply forallb_forall. intros x Hx. apply repeat_spec in Hx. subst.
    apply Nat.eqb_refl. }
  rewrite Hall. unfold ok. f_equal. f_equal.
  change ((fst c, broadcast t (MeanArray (snd c)))
          :: map (fun kv => (fst kv, broadcast t (snd kv)))
                 (map (fun c => (fst c, MeanArray (snd c))) d'))
    with (map (fun kv => (fst kv, broadcast t (snd kv)))
              (map (fun c => (fst c, MeanArray (snd c))) (c :: d'))).
  rewrite map_map. cbn [map fst snd broadcast].
  destruct c as [lc vc]. cbn [fst snd]. f_equal.
  transitivity (map (fun x : label * list sample => x) d'); [|apply map_id].
  apply map_ext. now intros [].
Qed.

(** X4: for a channel of a recording and a non-empty train of firings,
    [st_muap] builds a DataFrame with one column of [tottime] samples per
    firing whose window is complete, labelled by the position of the firing
    in the train; when no window is complete the DataFrame is empty and no
    error is raised (where [sta] fails). *)
Theorem st_muap_trials (emg_array : list sample) (thismups : list Z)
  (halftime : Z) :
  0 < halftime -> thismups <> [] ->
  Forall (fun pulse => 0 <= pulse) thismups ->
  (d <- StMuap.crow_muaps emg_array thismups halftime (halftime * 2) ;;
   DataFrame_of_dict d)%result
  = inr (trials_frame emg_array halftime thismups).
Proof.
  intros Hh Hne Hp. unfold StMuap.crow_muaps, trials_frame, inner_firings.
  destruct thismups as [|p0 ps] eqn:Et; [congruence|].
  cbn [length Nat.ltb Nat.leb]. rewrite <- Et in *. clear Et Hne.
  cbn [rbind ok].
  rewrite (flat_map_ext_in _
             (fun pp : nat * Z =>
                if inside_window (length emg_array) halftime (snd pp)
                then [(Chan (Z.of_nat (fst pp)),
                       MeanArray (py_slice emg_array (snd pp - halftime)
                                           (snd pp + halftime)))]
                else [])).
  2:{ intros [pos p] Hin. cbn [fst snd].
      rewrite window_complete_iff; [reflexivity|assumption|].
      rewrite Forall_forall in Hp. apply Hp.
      unfold enumerate in Hin. now apply in_combine_r in Hin. }
  rewrite (flat_map_filter
             (fun pp : nat * Z => inside_window (length emg_array) halftime (snd pp))
             (fun pp => (Chan (Z.of_nat (fst pp)),
                         MeanArray (py_slice emg_array (snd pp - halftime)
                                             (snd pp + halftime))))).
  set (kept := filter _ (enumerate thismups)).
  assert (Hk : Forall (fun pp : nat * Z =>
                         inside_window (length emg_array) halftime (snd pp) = true
                         /\ 0 <= snd pp) kept).
  { apply Forall_forall. intros pp Hin. subst kept.
    apply filter_In in Hin. destruct Hin as [Hin Hi]. split; [exact Hi|].
    rewrite Forall_forall in Hp. apply Hp.
    unfold enumerate in Hin. destruct pp. now apply in_combine_r in Hin. }
  rewrite <- (map_map (fun pp : nat * Z =>
                         (Chan (Z.of_nat (fst pp)),
                          py_slice emg_array (snd pp - halftime) (snd pp + halftime)))
                      (fun c => (fst c, MeanArray (snd c)))).
  rewrite (DataFrame_of_arrays (Z.to_nat (halftime * 2))).
  - destruct kept; reflexivity.
  - apply Forall_map. eapply Forall_impl; [|exact Hk].
    intros [pos p] [Hi H0]. cbn [fst snd] in *.
    rewrite <- (window_complete_iff emg_array halftime p Hh H0) in Hi.
    apply Z.eqb_eq in Hi. lia.
Qed.

Lemma st_muap_trials_witness :
  (d <- StMuap.crow_muaps (Examples.channel 64 [(5%nat, 1%Q)]) [3; 32] 10 (10 * 2) ;;
   DataFrame_of_dict d)%result
  = inr (trials_frame (Examples.channel 64 [(5%nat, 1%Q)]) 10 [3; 32]).
Proof.
  apply (st_muap_trials (Examples.channel 64 [(5%nat, 1%Q)]) [3; 32] 10).
  - lia.
  - discriminate.
  - repeat constructor; lia.
Defined.

(** X5: whenever [sta] returns, the dict it returns has the keys
    [0 .. NUMBER_OF_MUS-1] in order, and every channel of every template
    holds exactly [tottime] samples. *)
Theorem sta_result_shape (e : emgfile) (sorted_rawemg : grid)
  (firings : firings_arg) (timewindow : Q) (d : sta_dict) :
  Sta.sta e sorted_rawemg firings timewindow = inr d ->
  dict_keys d = seq 0 (NUMBER_OF_MUS e)
  /\ Forall (fun mu_sta =>
               Forall (fun kv => frame_spans (Window.tottime timewindow (FSAMP e))
                                             (snd kv))
                      (snd mu_sta))
            d.
Proof.
  intros H. split; [|exact (StaFacts.sta_rows_span _ _ _ _ _ H)].
  unfold Sta.sta in H.
  destruct (Window.overflow timewindow (FSAMP e)); [discriminate|].
  apply mapM_inr in H. unfold dict_keys.
  induction H as [|mu [mu' s] mus d' Hmu _ IH]; simpl; [reflexivity|].
  f_equal; [|exact IH].
  unfold Sta.sta_one_mu in Hmu.
  apply rbind_inr in Hmu. destruct Hmu as (pulses & _ & Hmu).
  destruct firings; apply rbind_inr in Hmu; destruct Hmu as (x & _ & Hmu);
    now inversion Hmu.
Qed.

Lemma sta_result_shape_witness :
  dict_keys Examples.stas_A = seq 0 (NUMBER_OF_MUS Examples.emgfile_A)
  /\ Forall (fun mu_sta =>
               Forall (fun kv => frame_spans
                                   (Window.tottime 40 (FSAMP Examples.emgfile_A))
                                   (snd kv))
                      (snd mu_sta))
            Examples.stas_A.
Proof.
  apply (sta_result_shape Examples.emgfile_A
           [("col0"%string, RAW_SIGNAL Examples.emgfile_A)] FiringsAll 40
           Examples.stas_A).
  vm_compute. reflexivity.
Defined.

(** ** align_by_xcorr *)



Lemma length_py_slice_in {A} (l : list A) (a b : Z) :
  0 <= a <= b -> b <= Z.of_nat (length l) ->
  Z.of_nat (length (py_slice l a b)) = b - a.
Proof.
  intros Ha Hb. unfold py_slice, py_slice_bound.
  destruct (a <? 0) eqn:E1; [apply Z.ltb_lt in E1; lia|].
  destruct (b <? 0) eqn:E2; [apply Z.ltb_lt in E2; lia|].
  rewrite length_firstn, length_skipn. lia.
Qed.

(** The cut inside [align_cut] is [trim_rows]. *)
Lemma align_cut_trims (a : alignment) (aligned_sta1 aligned_sta2 : sta_mu_dict) :
  align_cut a = inr (aligned_sta1, aligned_sta2) ->
  exists df1cut,
    pack_sta (reset_index (trim_rows df1cut (al_finalduration_samples a)))
             (al_keys a)
    = inr aligned_sta1.
Proof.
  unfold align_cut. intros H.
  apply rbind_inr in H. destruct H as (dfmin & _ & H).
  apply rbind_inr in H. destruct H as (dfmax & _ & H).
  apply rbind_inr in H. destruct H as (df1i & _ & H).
  apply rbind_inr in H. destruct H as (df2i & _ & H).
  apply rbind_inr in H. destruct H as (s1 & Hp1 & H).
  apply rbind_inr in H. destruct H as (s2 & _ & H).
  unfold ok in H. injection H as <- <-.
  eexists. exact Hp1.
Qed.

(** X8: the symmetric cut of [align_by_xcorr] keeps exactly
    [finalduration_samples] rows only when the surplus
    [len(df1cut.index) - finalduration_samples] is even.  For an odd surplus
    [round] goes to the even neighbour, and the cut keeps one row more
    (surplus = 1 mod 4) or one row less (surplus = 3 mod 4). *)
Theorem trim_rows_length (df : frame) (finalduration_samples : Z) :
  0 < finalduration_samples <= Z.of_nat (nrows df) ->
  Z.of_nat (nrows (trim_rows df finalduration_samples)) =
  match (Z.of_nat (nrows df) - finalduration_samples) mod 4 with
  | 1 => finalduration_samples + 1
  | 3 => finalduration_samples - 1
  | _ => finalduration_samples
  end.
Proof.
  intros H. unfold trim_rows.
  set (L := Z.of_nat (nrows df)) in *.
  set (s := L - finalduration_samples).
  rewrite (py_round_proper _ (inject_Z s / 2)).
  2:{ unfold s, Z.sub. rewrite inject_Z_plus, inject_Z_opp. reflexivity. }
  rewrite py_round_inject_Z, py_round_half.
  unfold nrows at 1. unfold iloc_rows. cbn [index].
  assert (Hs : 0 <= s) by (unfold s; lia).
  rewrite (Zeven_mod s), (Zeven_mod (s / 2)).
  assert (Hlen : forall a b, 0 <= a <= b -> b <= L ->
            Z.of_nat (length (py_slice (index df) a b)) = b - a).
  { intros a b Ha Hb. apply length_py_slice_in; [exact Ha|exact Hb]. }
  assert (Hcases : s mod 4 = 0 \/ s mod 4 = 1 \/ s mod 4 = 2 \/ s mod 4 = 3)
    by (Z.div_mod_to_equations; lia).
  fold (nrows df). fold L.
  destruct Hcases as [E|[E|[E|E]]]; rewrite E.
  - assert (E2 : s mod 2 = 0) by (Z.div_mod_to_equations; lia).
    rewrite E2. cbn.
    rewrite Hlen; [unfold s in *; Z.div_mod_to_equations; lia| |];
      unfold s in *; Z.div_mod_to_equations; lia.
  - assert (E2 : s mod 2 = 1) by (Z.div_mod_to_equations; lia).
    assert (E3 : (s / 2) mod 2 = 0) by (Z.div_mod_to_equations; lia).
    rewrite E2, E3. cbn.
    rewrite Hlen; [unfold s in *; Z.div_mod_to_equations; lia| |];
      unfold s in *; Z.div_mod_to_equations; lia.
  - assert (E2 : s mod 2 = 0) by (Z.div_mod_to_equations; lia).
    rewrite E2. cbn.
    rewrite Hlen; [unfold s in *; Z.div_mod_to_equations; lia| |];
      unfold s in *; Z.div_mod_to_equations; lia.
  - assert (E2 : s mod 2 = 1) by (Z.div_mod_to_equations; lia).
    assert (E3 : (s / 2) mod 2 = 1) by (Z.div_mod_to_equations; lia).
    rewrite E2, E3. cbn.
    rewrite Hlen; [unfold s in *; Z.div_mod_to_equations; lia| |];
      unfold s in *; Z.div_mod_to_equations; lia.
Qed.

Lemma trim_rows_length_witness :
  Z.of_nat (nrows (trim_rows (mkFrame (range 20) [(Chan 0, Examples.channel 20 [])]) 9)) =
  match (Z.of_nat (nrows (mkFrame (range 20) [(Chan 0, Examples.channel 20 [])])) - 9) mod 4 with
  | 1 => 9 + 1
  | 3 => 9 - 1
  | _ => 9
  end.
Proof.
  apply (trim_rows_length (mkFrame (range 20) [(Chan 0, Examples.channel 20 [])]) 9).
  vm_compute. split; [reflexivity|discriminate].
Defined.

Lemma unpack_sta_keys (sta_mu : sta_mu_dict) (df : frame) (keys : list string) :
  unpack_sta sta_mu = inr (df, keys) -> keys = dict_keys sta_mu.
Proof.
  unfold unpack_sta. intros H.
  apply rbind_inr in H. destruct H as (dfs & _ & H).
  apply rbind_inr in H. destruct H as (df1 & _ & H).
  unfold ok in H. now injection H as _ <-.
Qed.

Lemma align_lag_keys
  (norm_twod_xcorr : frame -> frame -> xcorr_mode -> result (frame * sample))
  (sta_mu1 sta_mu2 : sta_mu_dict) (finalduration : Q) (a : alignment) :
  align_lag norm_twod_xcorr sta_mu1 sta_mu2 finalduration = inr a ->
  al_keys a = dict_keys sta_mu2.
Proof.
  unfold align_lag. intros H.
  apply rbind_inr in H. destruct H as ([df1 k1] & _ & H).
  apply rbind_inr in H. destruct H as ([df2 k2] & Hu & H).
  apply rbind_inr in H. destruct H as ([tbl mx] & _ & H).
  apply rbind_inr in H. destruct H as (tbl' & _ & H).
  apply rbind_inr in H. destruct H as (maxima & _ & H).
  destruct (median maxima) as [l|]; [|discriminate].
  unfold ok in H. injection H as <-. cbn [al_keys].
  exact (unpack_sta_keys _ _ _ Hu).
Qed.

Lemma pack_sta_keys (df : frame) (keys : list string) (d : sta_mu_dict) :
  NoDup keys -> pack_sta df keys = inr d -> dict_keys d = keys.
Proof.
  intros Hnd. unfold pack_sta. intros H. apply rbind_inr in H.
  destruct H as (slice & _ & H). unfold ok in H. injection H as <-.
  rewrite PackFacts.fold_dict_set.
  - cbn [app]. unfold dict_keys. rewrite map_map. cbn [fst].
    apply PackFacts.map_snd_combine_seq.
  - cbn [dict_keys map app]. unfold enumerate.
    rewrite PackFacts.map_snd_combine_seq. exact Hnd.
Qed.

(** X7: whenever [align_by_xcorr] returns, its two outputs are indexed by
    the same [0 .. k-1], and BOTH are packed under the column names of the
    second template ([d_keys] is overwritten by the second unpacking). *)
Theorem aligned_outputs_shape
  (norm_twod_xcorr : frame -> frame -> xcorr_mode -> result (frame * sample))
  (sta_mu1 sta_mu2 : sta_mu_dict) (finalduration : Q)
  (aligned_sta1 aligned_sta2 : sta_mu_dict) :
  NoDup (dict_keys sta_mu2) ->
  align_by_xcorr norm_twod_xcorr sta_mu1 sta_mu2 finalduration
  = inr (aligned_sta1, aligned_sta2) ->
  dict_keys aligned_sta1 = dict_keys sta_mu2
  /\ dict_keys aligned_sta2 = dict_keys sta_mu2
  /\ exists k, indexed_from_zero k aligned_sta1 /\ indexed_from_zero k aligned_sta2.
Proof.
  intros Hnd H.
  pose proof (AlignFacts.align_outputs_share_index _ _ _ _ _ _ H) as Hk.
  unfold align_by_xcorr in H.
  apply rbind_inr in H. destruct H as (a & Ha & H).
  apply align_lag_keys in Ha.
  unfold align_cut in H.
  apply rbind_inr in H. destruct H as (dfmin & _ & H).
  apply rbind_inr in H. destruct H as (dfmax & _ & H).
  apply rbind_inr in H. destruct H as (df1i & _ & H).
  apply rbind_inr in H. destruct H as (df2i & _ & H).
  apply rbind_inr in H. destruct H as (s1 & Hp1 & H).
  apply rbind_inr in H. destruct H as (s2 & Hp2 & H).
  unfold ok in H. injection H as <- <-.
  rewrite Ha in Hp1, Hp2.
  apply pack_sta_keys in Hp1, Hp2; try exact Hnd.
  repeat split; assumption.
Qed.

Lemma aligned_outputs_shape_witness :
  exists a1 a2,
    align_by_xcorr XcorrModel.norm_twod_xcorr
      (Examples.impulse_template 20 12) (Examples.impulse_template 20 3) (1 # 2)
    = inr (a1, a2)
    /\ dict_keys a1 = dict_keys (Examples.impulse_template 20 3)
    /\ dict_keys a2 = dict_keys (Examples.impulse_template 20 3)
    /\ exists k, indexed_from_zero k a1 /\ indexed_from_zero k a2.
Proof.
  destruct (align_by_xcorr XcorrModel.norm_twod_xcorr
              (Examples.impulse_template 20 12) (Examples.impulse_template 20 3)
              (1 # 2)) as [e|[a1 a2]] eqn:E.
  - vm_compute in E. discriminate E.
  - exists a1, a2. split; [reflexivity|].
    apply (aligned_outputs_shape XcorrModel.norm_twod_xcorr
             (Examples.impulse_template 20 12) (Examples.impulse_template 20 3)
             (1 # 2) a1 a2).
    + vm_compute. repeat constructor. intros [].
    + exact E.
Defined.

(** ** tracking: collecting the per-MU tables *)

Lemma collect_step_nonempty (acc x : table) :
  acc <> [] -> collect_step acc x = acc ++ x.
Proof.
  intros H. unfold collect_step. destruct acc as [|a acc]; [congruence|].
  destruct x as [|b x]; cbn; [now rewrite app_nil_r|reflexivity].
Qed.

Lemma fold_collect_nonempty (rest : list table) (acc : table) :
  acc <> [] -> fold_left collect_step rest acc = acc ++ concat rest.
Proof.
  revert acc. induction rest as [|x rest IH]; intros acc H; cbn [fold_left concat].
  - now rewrite app_nil_r.
  - rewrite collect_step_nonempty by exact H.
    rewrite IH, app_assoc; [reflexivity|].
    destruct acc; [congruence|discriminate].
Qed.

Lemma fold_collect_empties (k : nat) (l : list table) :
  fold_left collect_step (repeat [] k ++ l) [] = fold_left collect_step l [].
Proof. induction k as [|k IH]; [reflexivity|exact IH]. Qed.

(** X9: the loop that turns [res] into one table joins the tables of
    the MUs of file 1 in order, skipping the empty ones, with one
    exception: when the first non-empty table comes after an empty one,
    both [if]s of the loop body fire and its rows are taken twice. *)
Theorem collect_first_nonempty (k : nat) (t : table) (rest : list table) :
  t <> [] ->
  collect (repeat [] k ++ t :: rest)
  = inr ((if Nat.eqb k 0 then t else t ++ t) ++ concat rest).
Proof.
  intros Ht. destruct k as [|k]; cbn [repeat app collect Nat.eqb]; unfold ok.
  - now rewrite fold_collect_nonempty.
  - rewrite fold_collect_empties. cbn [fold_left].
    assert (E : collect_step [] t = t ++ t).
    { unfold collect_step. destruct t; [congruence|reflexivity]. }
    rewrite E, fold_collect_nonempty; [reflexivity|].
    destruct t; [congruence|discriminate].
Qed.

Lemma collect_first_nonempty_witness :
  collect (repeat [] 1 ++ [mkRow 1 0 (Val 1) None] :: [[mkRow 2 1 (Val 1) None]])
  = inr ((if Nat.eqb 1 0 then [mkRow 1 0 (Val 1) None]
          else [mkRow 1 0 (Val 1) None] ++ [mkRow 1 0 (Val 1) None])
         ++ concat [[mkRow 2 1 (Val 1) None]]).
Proof.
  apply (collect_first_nonempty 1 [mkRow 1 0 (Val 1) None]
           [[mkRow 2 1 (Val 1) None]]).
  discriminate.
Defined.

Lemma collect_uniform (n : nat) (res : list table) (c : table) :
  Forall (fun t => length t = n) res -> collect res = inr c -> c = concat res.
Proof.
  intros Hall H. destruct res as [|i rest]; [discriminate|].
  cbn [collect] in H. unfold ok in H. injection H as <-.
  inversion Hall as [|? ? Hi Hrest]; subst. cbn [concat].
  destruct i as [|r i].
  - cbn [app]. clear Hall. induction Hrest as [|x rest Hx _ IH]; [reflexivity|].
    cbn in Hx. destruct x; [|discriminate]. exact IH.
  - apply fold_collect_nonempty. discriminate.
Qed.

Lemma tsequence_inr {A} (ms : list (traced A)) (tr : list event) (rs : list A) :
  tsequence ms = (tr, inr rs) ->
  Forall2 (fun m r => exists t, m = (t, inr r)) ms rs.
Proof.
  revert tr rs. induction ms as [|m ms IH]; intros tr rs H; cbn [tsequence] in H.
  - unfold tret, ok in H. injection H as _ <-. constructor.
  - apply tbind_inr in H. destruct H as (t1 & y & t2 & Hm & H & _).
    apply tbind_inr in H. destruct H as (t3 & ys & t4 & Hms & H & _).
    unfold tret, ok in H. injection H as _ <-.
    constructor; [eauto|]. eapply IH; eauto.
Qed.

Lemma tsequence_pure {A B} (f : A -> B) (l : list A) :
  tsequence (map (fun x => tret (f x)) l) = tret (map f l).
Proof.
  induction l as [|x l IH]; [reflexivity|].
  cbn [map tsequence]. rewrite IH. reflexivity.
Qed.

Section CompareAll.

Variable norm_twod_xcorr :
  frame -> frame -> xcorr_mode -> result (frame * sample).
Variable Parallel : forall A : Type, list (unit -> A) -> list A.
Hypothesis Parallel_ordered : ordered_pool Parallel.
Variables emgfile1 emgfile2 : emgfile.
Variable args : tracking_args.
Variables sta_emgfile1 sta_emgfile2 : sta_dict.

Lemma compare_all_tsequence :
  compare_all norm_twod_xcorr Parallel emgfile1 emgfile2 args
              sta_emgfile1 sta_emgfile2
  = tsequence (map (parallel norm_twod_xcorr emgfile2 args
                             sta_emgfile1 sta_emgfile2)
                   (seq 0 (NUMBER_OF_MUS emgfile1))).
Proof.
  unfold compare_all. destruct (multiprocessing args).
  - rewrite Parallel_ordered, map_map. reflexivity.
  - rewrite serial_loop_tsequence.
    destruct (tsequence _) as [t [e|rs]]; cbn; [reflexivity|].
    now rewrite app_nil_r.
Qed.

Lemma parallel_loop_all (mu_file1 : nat) (mus2 : list nat) (res rows : table)
  (tr : list event) :
  exclude_belowthreshold args = false ->
  parallel_loop norm_twod_xcorr args sta_emgfile1 sta_emgfile2 mu_file1 mus2 res
  = (tr, inr rows) ->
  map pair_of rows = map pair_of res ++ map (fun mu_file2 => (mu_file1, mu_file2)) mus2.
Proof.
  intros Hex. revert res tr.
  induction mus2 as [|mu2 mus2 IH]; intros res tr H; cbn [parallel_loop] in H.
  - unfold tret, ok in H. injection H as _ <-. cbn [map]. now rewrite app_nil_r.
  - apply tbind_inr in H. destruct H as (t1 & x & t2 & _ & H & _).
    rewrite Hex in H. cbn [retained negb] in H.
    apply IH in H. rewrite H, map_app, <- app_assoc. reflexivity.
Qed.

Lemma compare_all_pairs (tr : list event) (res : list table) :
  exclude_belowthreshold args = false ->
  compare_all norm_twod_xcorr Parallel emgfile1 emgfile2 args
              sta_emgfile1 sta_emgfile2 = (tr, inr res) ->
  Forall (fun t => length t = NUMBER_OF_MUS emgfile2) res
  /\ map pair_of (concat res)
     = list_prod (seq 0 (NUMBER_OF_MUS emgfile1)) (seq 0 (NUMBER_OF_MUS emgfile2)).
Proof.
  intros Hex H. rewrite compare_all_tsequence in H.
  apply tsequence_inr in H. clear tr.
  remember (seq 0 (NUMBER_OF_MUS emgfile1)) as mus1 eqn:E. clear E.
  remember (map _ mus1) as ms eqn:Ems. revert mus1 Ems.
  induction H as [|m t ms res (tr & Hm) _ IH]; intros mus1 Ems.
  - destruct mus1; [|discriminate]. split; [constructor|reflexivity].
  - destruct mus1 as [|mu1 mus1]; [discriminate|].
    cbn [map] in Ems. injection Ems as -> ->.
    destruct (IH mus1 eq_refl) as (IH1 & IH2).
    unfold parallel in Hm. apply (parallel_loop_all _ _ _ _ _ Hex) in Hm.
    cbn [map app] in Hm. split.
    + constructor; [|exact IH1].
      rewrite <- (length_map pair_of), Hm, length_map. apply length_seq.
    + cbn [concat list_prod]. rewrite map_app, Hm, IH2. reflexivity.
Qed.

End CompareAll.

Lemma by_mu1_asc_xcc_desc_total a b :
  by_mu1_asc_xcc_desc a b = false -> by_mu1_asc_xcc_desc b a = true.
Proof.
  unfold by_mu1_asc_xcc_desc. FilterFacts.by_cases.
  apply FilterFacts.xcc_desc_leb_total.
Qed.

Lemma by_mu1_asc_xcc_desc_trans a b c :
  by_mu1_asc_xcc_desc a b = true -> by_mu1_asc_xcc_desc b c = true ->
  by_mu1_asc_xcc_desc a c = true.
Proof.
  unfold by_mu1_asc_xcc_desc. FilterFacts.by_cases.
  apply FilterFacts.xcc_desc_leb_trans.
Qed.

Lemma StronglySorted_map_drop (le : row -> row -> bool) (t : table) :
  (forall a b, le (drop_inclusion a) (drop_inclusion b) = le a b) ->
  StronglySorted (le_rel le) t ->
  StronglySorted (le_rel le) (map drop_inclusion t).
Proof.
  intros Hle. induction 1 as [|x t Hs IH Hx]; cbn [map]; constructor.
  - exact IH.
  - apply Forall_map. eapply Forall_impl; [|exact Hx].
    intros y Hy. unfold le_rel in *. now rewrite Hle.
Qed.

(** What [tracking] returns when the filter is off. *)
Lemma tracking_unfiltered
  (sort_rawemg : emgfile -> sort_args -> result grid)
  (norm_twod_xcorr : frame -> frame -> xcorr_mode -> result (frame * sample))
  (Parallel : forall A : Type, list (unit -> A) -> list A)
  (gui_decision : nat -> inclusion)
  (emgfile1 emgfile2 : emgfile) (args : tracking_args)
  (tr : list event) (t : table) :
  filter_results args = false ->
  tracking sort_rawemg norm_twod_xcorr Parallel gui_decision
           emgfile1 emgfile2 args = (tr, inr t) ->
  exists stas res candidates tr1 tr2,
    obtain_stas sort_rawemg emgfile1 emgfile2 args = (tr1, inr stas)
    /\ compare_all norm_twod_xcorr Parallel emgfile1 emgfile2 args
                   (fst stas) (snd stas) = (tr2, inr res)
    /\ collect res = inr candidates
    /\ Permutation (map drop_inclusion t) (map drop_inclusion candidates)
    /\ StronglySorted (le_rel by_mu1_asc_xcc_desc) (map drop_inclusion t).
Proof.
  intros Hf H. unfold tracking in H.
  apply tbind_inr in H. destruct H as (tr1 & [s1 s2] & tr' & Hs & H & _).
  unfold track_from_stas in H.
  apply tbind_inr in H. destruct H as (tr2 & res & tr3 & Hres & H & _).
  apply tbind_inr in H. destruct H as (tr4 & cand & tr5 & Hc & H & _).
  unfold tlift in Hc. injection Hc as _ Hc.
  rewrite Hf in H.
  apply tbind_inr in H. destruct H as (tr6 & t0 & tr7 & Ht0 & H & _).
  unfold tret, ok in Ht0. injection Ht0 as _ <-.
  set (t0 := sort_values by_mu1_asc_xcc_desc cand) in *.
  assert (Hk : map drop_inclusion t = map drop_inclusion t0).
  { destruct (gui args); [destruct (is_empty t0)|];
      unfold tret in H; injection H as _ <-; auto.
    apply Tracking_gui_keys. }
  exists (s1, s2), res, cand, tr1, tr2.
  repeat (split; [assumption|]). rewrite Hk. split.
  - apply Permutation_map. apply FilterFacts.sort_values_perm.
  - apply StronglySorted_map_drop; [reflexivity|].
    apply FilterFacts.sort_values_sorted;
      [apply by_mu1_asc_xcc_desc_total|apply by_mu1_asc_xcc_desc_trans].
Qed.

(** X10: with [filter=False] no candidate is lost or invented: apart from
    the GUI's Inclusion column the returned table is a rearrangement of the
    collected candidates, ordered by MU_file1 ascending and, within one MU
    of file 1, by decreasing XCC with NaN last. *)
Theorem unfiltered_table_sorted
  (sort_rawemg : emgfile -> sort_args -> result grid)
  (norm_twod_xcorr : frame -> frame -> xcorr_mode -> result (frame * sample))
  (Parallel : forall A : Type, list (unit -> A) -> list A)
  (gui_decision : nat -> inclusion)
  (emgfile1 emgfile2 : emgfile) (args : tracking_args)
  (tr : list event) (t : table) :
  filter_results args = false ->
  tracking sort_rawemg norm_twod_xcorr Parallel gui_decision
           emgfile1 emgfile2 args = (tr, inr t) ->
  exists stas res candidates tr1 tr2,
    obtain_stas sort_rawemg emgfile1 emgfile2 args = (tr1, inr stas)
    /\ compare_all norm_twod_xcorr Parallel emgfile1 emgfile2 args
                   (fst stas) (snd stas) = (tr2, inr res)
    /\ collect res = inr candidates
    /\ Permutation (map drop_inclusion t) (map drop_inclusion candidates)
    /\ StronglySorted (le_rel by_mu1_asc_xcc_desc) (map drop_inclusion t).
Proof. exact (tracking_unfiltered _ _ _ _ _ _ _ _ _). Qed.

(** X11: with [filter=False] and [exclude_belowthreshold=False] every pair
    of an MU of file 1 and an MU of file 2 is reported exactly once. *)
Theorem all_pairs_reported
  (sort_rawemg : emgfile -> sort_args -> result grid)
  (norm_twod_xcorr : frame -> frame -> xcorr_mode -> result (frame * sample))
  (Parallel : forall A : Type, list (unit -> A) -> list A)
  (gui_decision : nat -> inclusion)
  (emgfile1 emgfile2 : emgfile) (args : tracking_args)
  (tr : list event) (t : table) :
  ordered_pool Parallel ->
  filter_results args = false ->
  exclude_belowthreshold args = false ->
  tracking sort_rawemg norm_twod_xcorr Parallel gui_decision
           emgfile1 emgfile2 args = (tr, inr t) ->
  Permutation (map pair_of t)
              (list_prod (seq 0 (NUMBER_OF_MUS emgfile1))
                         (seq 0 (NUMBER_OF_MUS emgfile2))).
Proof.
  intros Hpool Hf Hex H.
  destruct (tracking_unfiltered _ _ _ _ _ _ _ _ _ Hf H)
    as (stas & res & cand & tr1 & tr2 & _ & Hres & Hc & Hperm & _).
  destruct (compare_all_pairs _ _ Hpool _ _ _ _ _ _ _ Hex Hres) as (Hlen & Hpairs).
  apply (collect_uniform _ _ _ Hlen) in Hc. subst cand.
  apply (Permutation_map pair_of) in Hperm.
  rewrite !map_map in Hperm.
  change (fun x => pair_of (drop_inclusion x)) with pair_of in Hperm.
  now rewrite Hpairs in Hperm.
Qed.

Lemma unfiltered_table_sorted_witness :
  exists tr t,
    Examples.example_tracking
      (Examples.example_args "mono" (Val (4 # 5)) PyNone true false false)
    = (tr, inr t)
    /\ exists stas res candidates tr1 tr2,
        obtain_stas Examples.one_column_sorter Examples.emgfile_A Examples.emgfile_B
          (Examples.example_args "mono" (Val (4 # 5)) PyNone true false false)
        = (tr1, inr stas)
        /\ compare_all XcorrModel.norm_twod_xcorr Examples.in_order_pool
             Examples.emgfile_A Examples.emgfile_B
             (Examples.example_args "mono" (Val (4 # 5)) PyNone true false false)
             (fst stas) (snd stas) = (tr2, inr res)
        /\ collect res = inr candidates
        /\ Permutation (map drop_inclusion t) (map drop_inclusion candidates)
        /\ StronglySorted (le_rel by_mu1_asc_xcc_desc) (map drop_inclusion t).
Proof.
  destruct (Examples.example_tracking
              (Examples.example_args "mono" (Val (4 # 5)) PyNone true false false))
    as [tr [e|t]] eqn:E.
  - vm_compute in E. discriminate E.
  - exists tr, t. split; [reflexivity|].
    apply (unfiltered_table_sorted
             Examples.one_column_sorter XcorrModel.norm_twod_xcorr
             Examples.in_order_pool (fun _ => Included)
             Examples.emgfile_A Examples.emgfile_B
             (Examples.example_args "mono" (Val (4 # 5)) PyNone true false false)
             tr t).
    + reflexivity.
    + exact E.
Defined.

Lemma all_pairs_reported_witness :
  exists tr t,
    Examples.example_tracking
      (Examples.example_args "mono" (Val (4 # 5)) PyNone false false false)
    = (tr, inr t)
    /\ Permutation (map pair_of t)
         (list_prod (seq 0 (NUMBER_OF_MUS Examples.emgfile_A))
                    (seq 0 (NUMBER_OF_MUS Examples.emgfile_B))).
Proof.
  destruct (Examples.example_tracking
              (Examples.example_args "mono" (Val (4 # 5)) PyNone false false false))
    as [tr [e|t]] eqn:E.
  - vm_compute in E. discriminate E.
  - exists tr, t. split; [reflexivity|].
    apply (all_pairs_reported
             Examples.one_column_sorter XcorrModel.norm_twod_xcorr
             Examples.in_order_pool (fun _ => Included)
             Examples.emgfile_A Examples.emgfile_B
             (Examples.example_args "mono" (Val (4 # 5)) PyNone false false false)
             tr t).
    + intros A tasks. reflexivity.
    + reflexivity.
    + reflexivity.
    + exact E.
Defined.

(** ** tracking: recordings without motor units *)

Lemma tbind_ret_l {A B} (tr : list event) (a : A) (k : A -> traced B) (r : result B) :
  k a = ([], r) -> tbind (tr, inr a) k = (tr, r).
Proof. intros H. cbn [tbind]. rewrite H. now rewrite app_nil_r. Qed.

Lemma fold_collect_all_empty {A} (l : list A) :
  fold_left collect_step (map (fun _ => []) l) [] = [].
Proof. induction l as [|x l IH]; [reflexivity|exact IH]. Qed.

(** X12: when the first recording has no motor unit the loop that fills
    [tracking_res] never runs, and [tracking] ends in an UnboundLocalError
    as soon as the templates are there, whatever the other arguments. *)
Theorem tracking_without_mus_in_file1
  (sort_rawemg : emgfile -> sort_args -> result grid)
  (norm_twod_xcorr : frame -> frame -> xcorr_mode -> result (frame * sample))
  (Parallel : forall A : Type, list (unit -> A) -> list A)
  (gui_decision : nat -> inclusion)
  (emgfile1 emgfile2 : emgfile) (args : tracking_args)
  (tr : list event) (stas : sta_dict * sta_dict) :
  ordered_pool Parallel ->
  NUMBER_OF_MUS emgfile1 = 0%nat ->
  obtain_stas sort_rawemg emgfile1 emgfile2 args = (tr, inr stas) ->
  tracking sort_rawemg norm_twod_xcorr Parallel gui_decision
           emgfile1 emgfile2 args
  = (tr, inl (UnboundLocalError "tracking_res")).
Proof.
  intros Hpool HN Hs. unfold tracking. rewrite Hs.
  apply tbind_ret_l. destruct stas as [s1 s2].
  unfold track_from_stas.
  rewrite (compare_all_tsequence _ _ Hpool), HN. reflexivity.
Qed.

Lemma tracking_without_mus_in_file1_witness :
  tracking Examples.one_column_sorter XcorrModel.norm_twod_xcorr
           Examples.in_order_pool (fun _ => Included)
           MoreExamples.silent_emgfile Examples.emgfile_B
           (Examples.example_args "mono" (Val (4 # 5)) PyNone true true false)
  = ([EvSortRawemg; EvSortRawemg; EvSta; EvSta],
     inl (UnboundLocalError "tracking_res")).
Proof.
  apply (tracking_without_mus_in_file1
           Examples.one_column_sorter XcorrModel.norm_twod_xcorr
           Examples.in_order_pool (fun _ => Included)
           MoreExamples.silent_emgfile Examples.emgfile_B
           (Examples.example_args "mono" (Val (4 # 5)) PyNone true true false)
           [EvSortRawemg; EvSortRawemg; EvSta; EvSta]
           ([], Examples.stas_B)).
  - intros A tasks. reflexivity.
  - reflexivity.
  - vm_compute. reflexivity.
Defined.

(** X13: when the first recording has motor units and the second has none,
    [tracking] compares nothing and returns an empty table, with or without
    filter, threshold exclusion, pool or GUI. *)
Theorem tracking_without_mus_in_file2
  (sort_rawemg : emgfile -> sort_args -> result grid)
  (norm_twod_xcorr : frame -> frame -> xcorr_mode -> result (frame * sample))
  (Parallel : forall A : Type, list (unit -> A) -> list A)
  (gui_decision : nat -> inclusion)
  (emgfile1 emgfile2 : emgfile) (args : tracking_args)
  (tr : list event) (stas : sta_dict * sta_dict) :
  ordered_pool Parallel ->
  NUMBER_OF_MUS emgfile1 <> 0%nat ->
  NUMBER_OF_MUS emgfile2 = 0%nat ->
  obtain_stas sort_rawemg emgfile1 emgfile2 args = (tr, inr stas) ->
  tracking sort_rawemg norm_twod_xcorr Parallel gui_decision
           emgfile1 emgfile2 args
  = (tr, inr []).
Proof.
  intros Hpool HN1 HN2 Hs. unfold tracking. rewrite Hs.
  apply tbind_ret_l. destruct stas as [s1 s2].
  unfold track_from_stas.
  rewrite (compare_all_tsequence _ _ Hpool).
  unfold parallel. rewrite HN2. cbn [seq parallel_loop].
  rewrite (tsequence_pure (fun _ : nat => @nil row)).
  destruct (NUMBER_OF_MUS emgfile1) as [|n]; [congruence|].
  cbn [seq map tret tbind tlift collect ok app].
  rewrite fold_collect_all_empty.
  destruct (filter_results args), (gui args); reflexivity.
Qed.

Lemma tracking_without_mus_in_file2_witness :
  tracking Examples.one_column_sorter XcorrModel.norm_twod_xcorr
           Examples.in_order_pool (fun _ => Included)
           Examples.emgfile_A MoreExamples.silent_emgfile
           (Examples.example_args "mono" (Val (4 # 5)) PyNone true true false)
  = ([EvSortRawemg; EvSortRawemg; EvSta; EvSta], inr []).
Proof.
  apply (tracking_without_mus_in_file2
           Examples.one_column_sorter XcorrModel.norm_twod_xcorr
           Examples.in_order_pool (fun _ => Included)
           Examples.emgfile_A MoreExamples.silent_emgfile
           (Examples.example_args "mono" (Val (4 # 5)) PyNone true true false)
           [EvSortRawemg; EvSortRawemg; EvSta; EvSta]
           (Examples.stas_A, [])).
  - intros A tasks. reflexivity.
  - discriminate.
  - reflexivity.
  - vm_compute. reflexivity.
Defined.

(** ** tracking: more on the filter *)

Lemma mapM_total {A B} (f : A -> result B) (xs : list A) :
  (forall x, In x xs -> exists y, f x = inr y) -> exists ys, mapM f xs = inr ys.
Proof.
  induction xs as [|x xs IH]; intros H; cbn [mapM].
  - eexists. reflexivity.
  - destruct (H x (or_introl eq_refl)) as (y & Hy).
    destruct IH as (ys & Hys); [intros z Hz; apply H; now right|].
    rewrite Hy, Hys. eexists. reflexivity.
Qed.

Lemma first_rows_total (key : row -> nat) (t : table) :
  exists res, first_rows key t = inr res.
Proof.
  unfold first_rows. apply mapM_total. intros mu Hmu.
  apply FilterFacts.unique_In, in_map_iff in Hmu. destruct Hmu as (r & Hk & Hr).
  destruct (filter (fun r0 => Nat.eqb (key r0) mu) t) as [|r0 rest] eqn:E.
  - exfalso.
    assert (Hin : In r (filter (fun r0 => Nat.eqb (key r0) mu) t)).
    { apply filter_In. split; [exact Hr|]. now apply Nat.eqb_eq. }
    now rewrite E in Hin.
  - eexists. reflexivity.
Qed.

Lemma first_rows_nonempty (key : row -> nat) (t res : table) :
  first_rows key t = inr res -> t <> [] -> res <> [].
Proof.
  intros H Ht Hres. apply FilterFacts.first_rows_keys in H.
  subst res. destruct t as [|r t]; [congruence|]. discriminate H.
Qed.

Lemma sort_values_nonempty (le : row -> row -> bool) (t : table) :
  t <> [] -> sort_values le t <> [].
Proof.
  intros Ht Hs. apply Ht.
  apply Permutation_nil. rewrite <- Hs. apply FilterFacts.sort_values_perm.
Qed.

Lemma filter_phase_total (candidates : table) :
  exists t, filter_phase candidates = inr t
            /\ incl t candidates
            /\ (candidates <> [] -> t <> []).
Proof.
  unfold filter_phase.
  destruct (first_rows_total MU_file1 (sort_values by_mu1_xcc_desc candidates))
    as (pass1 & H1).
  destruct (first_rows_total MU_file2 (sort_values by_mu2_xcc_desc pass1))
    as (pass2 & H2).
  rewrite H1. cbn [rbind]. rewrite H2. cbn [rbind].
  eexists. split; [reflexivity|]. split.
  - intros r Hr.
    eapply Permutation_in in Hr; [|apply FilterFacts.sort_values_perm].
    apply (FilterFacts.first_rows_In _ _ _ H2) in Hr.
    eapply Permutation_in in Hr; [|apply FilterFacts.sort_values_perm].
    apply (FilterFacts.first_rows_In _ _ _ H1) in Hr.
    eapply Permutation_in in Hr; [|apply FilterFacts.sort_values_perm].
    exact Hr.
  - intros Hc. apply sort_values_nonempty.
    apply (first_rows_nonempty _ _ _ H2). apply sort_values_nonempty.
    apply (first_rows_nonempty _ _ _ H1). now apply sort_values_nonempty.
Qed.

(** X14: the filter never fails (its out-of-bounds [iloc[0]] cannot be
    reached), returns only rows it was given, and returns an empty table
    only for an empty table. *)
Theorem filter_never_fails (candidates : table) :
  exists t, filter_phase candidates = inr t
            /\ incl t candidates
            /\ is_empty t = is_empty candidates.
Proof.
  destruct (filter_phase_total candidates) as (t & H & Hi & Hne).
  exists t. split; [exact H|]. split; [exact Hi|].
  destruct candidates as [|c cs].
  - destruct t as [|r t]; [reflexivity|]. destruct (Hi r (or_introl eq_refl)).
  - destruct t as [|r t]; [|reflexivity]. exfalso. now apply Hne.
Qed.

Lemma first_rows_clear_winner (key : row -> nat) (le : row -> row -> bool)
  (t res : table) (r : row) :
  first_rows key t = inr res ->
  StronglySorted (le_rel le) t ->
  (forall a b, le a b = true -> key a = key b ->
               xcc_desc_leb (XCC a) (XCC b) = true) ->
  clear_winner key t r -> In r res.
Proof.
  intros Hres Hs Hle (Hin & Hwin).
  assert (Hk : In (key r) (map key res)).
  { rewrite (FilterFacts.first_rows_keys _ _ _ Hres).
    apply FilterFacts.unique_In. now apply in_map. }
  apply in_map_iff in Hk. destruct Hk as (r0 & Hk0 & Hr0).
  destruct (FilterFacts.first_rows_best _ _ _ Hres le r0 Hs Hle Hr0) as (Hin0 & Hbest).
  specialize (Hbest r Hin (eq_sym Hk0)).
  destruct (Hwin r0 Hin0 Hk0) as [->|Hb]; [exact Hr0|].
  unfold beats in Hb. congruence.
Qed.

Lemma clear_winner_perm (key : row -> nat) (t t' : table) (r : row) :
  Permutation t t' -> clear_winner key t r -> clear_winner key t' r.
Proof.
  intros Hp (Hin & Hwin). split.
  - eapply Permutation_in; eauto.
  - intros r' Hr'. apply Hwin. eapply Permutation_in; [symmetry|]; eauto.
Qed.

Lemma clear_winner_incl (key : row -> nat) (t t' : table) (r : row) :
  incl t' t -> In r t' -> clear_winner key t r -> clear_winner key t' r.
Proof.
  intros Hi Hr (_ & Hwin). split; [exact Hr|].
  intros r' Hr'. apply Hwin. now apply Hi.
Qed.

(** X15: a pair that beats every other candidate of its MU of file 1 and
    every other candidate of its MU of file 2 always survives the filter. *)
Theorem mutual_best_survives (candidates t : table) (r : row) :
  clear_winner MU_file1 candidates r ->
  clear_winner MU_file2 candidates r ->
  filter_phase candidates = inr t ->
  In r t.
Proof.
  intros W1 W2 H. unfold filter_phase in H.
  apply rbind_inr in H. destruct H as (pass1 & H1 & H).
  apply rbind_inr in H. destruct H as (pass2 & H2 & H).
  unfold ok in H. injection H as <-.
  assert (P1 : In r pass1).
  { apply (first_rows_clear_winner _ by_mu1_xcc_desc _ _ _ H1).
    - apply FilterFacts.sort_values_sorted;
        [apply FilterFacts.by_mu1_xcc_desc_total|apply FilterFacts.by_mu1_xcc_desc_trans].
    - intros a b. unfold by_mu1_xcc_desc. intros Hab E. rewrite E in Hab.
      now rewrite Nat.ltb_irrefl in Hab.
    - eapply clear_winner_perm; [symmetry; apply FilterFacts.sort_values_perm|exact W1]. }
  assert (P2 : In r pass2).
  { apply (first_rows_clear_winner _ by_mu2_xcc_desc _ _ _ H2).
    - apply FilterFacts.sort_values_sorted;
        [apply FilterFacts.by_mu2_xcc_desc_total|apply FilterFacts.by_mu2_xcc_desc_trans].
    - intros a b. unfold by_mu2_xcc_desc. intros Hab E. rewrite E in Hab.
      now rewrite Nat.ltb_irrefl in Hab.
    - eapply clear_winner_perm; [symmetry; apply FilterFacts.sort_values_perm|].
      apply (clear_winner_incl _ candidates); [|exact P1|exact W2].
      intros x Hx. apply (FilterFacts.first_rows_In _ _ _ H1) in Hx.
      eapply Permutation_in; [apply FilterFacts.sort_values_perm|exact Hx]. }
  eapply Permutation_in; [symmetry; apply FilterFacts.sort_values_perm|exact P2].
Qed.

Lemma mutual_best_survives_witness :
  In (mkRow 0 1 (Val (9 # 10)) None)
     [mkRow 0 1 (Val (9 # 10)) None; mkRow 1 0 (Val (7 # 10)) None].
Proof.
  apply (mutual_best_survives
           [mkRow 0 0 (Val (1 # 2)) None; mkRow 0 1 (Val (9 # 10)) None;
            mkRow 1 0 (Val (7 # 10)) None; mkRow 1 1 (Val (6 # 10)) None]
           [mkRow 0 1 (Val (9 # 10)) None; mkRow 1 0 (Val (7 # 10)) None]
           (mkRow 0 1 (Val (9 # 10)) None)).
  - split; [right; left; reflexivity|].
    intros r' [<-|[<-|[<-|[<-|[]]]]] E; try discriminate E;
      [right; reflexivity|left; reflexivity].
  - split; [right; left; reflexivity|].
    intros r' [<-|[<-|[<-|[<-|[]]]]] E; try discriminate E;
      [left; reflexivity|right; reflexivity].
  - vm_compute. reflexivity.
Defined.

(** ** diff and double_diff *)

Module DiffFacts.

Lemma loc_col_in_found (cols : list (label * list sample)) (l : label)
  (v : list sample) :
  NoDup (map fst cols) -> In (l, v) cols -> loc_col_in cols l = inr v.
Proof.
  induction cols as [|[l' v'] cols IH]; cbn [map fst loc_col_in]; intros Hnd Hin.
  - contradiction.
  - inversion Hnd as [|? ? Hl' Hnd']; subst.
    destruct Hin as [E|Hin].
    + injection E as -> ->.
      rewrite (proj2 (PackFacts.label_eqb_eq l l) eq_refl). reflexivity.
    + destruct (label_eqb l' l) eqn:E.
      * apply PackFacts.label_eqb_eq in E. subst l'.
        exfalso. apply Hl'. apply in_map_iff. exists (l, v). auto.
      * now apply IH.
Qed.

Lemma run_from_S (lo : Z) (n : nat) :
  run_from lo (S n) = lo :: run_from (lo + 1) n.
Proof.
  unfold run_from. cbn [seq map]. rewrite Z.add_0_r. f_equal.
  rewrite <- seq_shift, map_map. apply map_ext. intros k. lia.
Qed.

Lemma Chan_run_NoDup (lo : Z) (n : nat) : NoDup (map Chan (run_from lo n)).
Proof.
  revert lo. induction n as [|n IH]; intros lo; [constructor|].
  rewrite run_from_S. cbn [map]. constructor; [|apply IH].
  intros Hin. apply in_map_iff in Hin. destruct Hin as (z & E & Hz).
  injection E as ->. unfold run_from in Hz. apply in_map_iff in Hz.
  destruct Hz as (k & E & _). lia.
Qed.

Section OneColumn.

Variable df : frame.
Hypothesis labels_distinct : NoDup (column_labels df).

Lemma diff_rows_run (lo : Z) (a : list sample)
  (rest : list (label * list sample)) (pos : nat)
  (acc : dict label (list sample)) :
  map fst rest = map Chan (run_from (lo + 1) (length rest)) ->
  incl ((Chan lo, a) :: rest) (columns df) ->
  NoDup (dict_keys acc ++ map fst rest) ->
  diff_rows df (combine (seq (S pos) (length rest)) (map fst rest)) acc
  = inr (acc ++ adjacent_pairs (zip_with sample_sub) ((Chan lo, a) :: rest)).
Proof.
  revert lo a pos acc.
  induction rest as [|[l b] rest IH]; intros lo a pos acc Hrun Hincl Hnd.
  - cbn. now rewrite app_nil_r.
  - cbn [length] in Hrun. rewrite run_from_S in Hrun. cbn [map fst] in Hrun.
    injection Hrun as -> Hrun.
    cbn [length seq map fst combine diff_rows Nat.ltb Nat.leb label_minus rbind ok].
    replace (lo + 1 - 1) with lo by lia.
    unfold loc_col.
    rewrite (loc_col_in_found _ (Chan lo) a labels_distinct)
      by (apply Hincl; now left).
    rewrite (loc_col_in_found _ (Chan (lo + 1)) b labels_distinct)
      by (apply Hincl; right; now left).
    cbn [rbind].
    rewrite StaMore.dict_set_fresh_label.
    2:{ cbn [map fst] in Hnd. apply NoDup_remove_2 in Hnd.
        intros Hin. apply Hnd. apply in_or_app. now left. }
    rewrite (IH (lo + 1) b (S pos)).
    + cbn [adjacent_pairs]. now rewrite <- app_assoc.
    + exact Hrun.
    + intros x Hx. apply Hincl. now right.
    + unfold dict_keys in *. rewrite map_app. cbn [map fst] in *.
      now rewrite <- app_assoc.
Qed.

Lemma double_diff_rows_run (lo : Z) (a b : list sample)
  (rest : list (label * list sample)) (pos : nat)
  (acc : dict label (list sample)) :
  map fst rest = map Chan (run_from (lo + 1 + 1) (length rest)) ->
  incl ((Chan lo, a) :: (Chan (lo + 1), b) :: rest) (columns df) ->
  NoDup (dict_keys acc ++ map fst rest) ->
  double_diff_rows df (combine (seq (S (S pos)) (length rest)) (map fst rest)) acc
  = inr (acc ++ adjacent_triples second_difference
                  ((Chan lo, a) :: (Chan (lo + 1), b) :: rest)).
Proof.
  revert lo a b pos acc.
  induction rest as [|[l c] rest IH]; intros lo a b pos acc Hrun Hincl Hnd.
  - cbn. now rewrite app_nil_r.
  - cbn [length] in Hrun. rewrite run_from_S in Hrun. cbn [map fst] in Hrun.
    injection Hrun as -> Hrun.
    cbn [length seq map fst combine double_diff_rows Nat.ltb Nat.leb label_minus
         rbind ok].
    replace (lo + 1 + 1 - 2) with lo by lia.
    replace (lo + 1 + 1 - 1) with (lo + 1) by lia.
    unfold loc_col.
    rewrite (loc_col_in_found _ (Chan lo) a labels_distinct)
      by (apply Hincl; now left).
    cbn [rbind].
    rewrite (loc_col_in_found _ (Chan (lo + 1)) b labels_distinct)
      by (apply Hincl; right; now left).
    cbn [rbind].
    rewrite (loc_col_in_found _ (Chan (lo + 1 + 1)) c labels_distinct)
      by (apply Hincl; right; right; now left).
    cbn [rbind].
    rewrite StaMore.dict_set_fresh_label.
    2:{ cbn [map fst] in Hnd. apply NoDup_remove_2 in Hnd.
        intros Hin. apply Hnd. apply in_or_app. now left. }
    rewrite (IH (lo + 1) b c (S pos)).
    + cbn [adjacent_triples]. fold (second_difference a b c).
      now rewrite <- app_assoc.
    + exact Hrun.
    + intros x Hx. apply Hincl. now right.
    + unfold dict_keys in *. rewrite map_app. cbn [map fst] in *.
      now rewrite <- app_assoc.
Qed.

End OneColumn.

Lemma diff_rows_consecutive (df : frame) :
  consecutive_channels df ->
  diff_rows df (enumerate (column_labels df)) []
  = inr (adjacent_pairs (zip_with sample_sub) (columns df)).
Proof.
  intros (lo & Hrun). unfold enumerate, column_labels in *.
  assert (Hnd : NoDup (map fst (columns df)))
    by (rewrite Hrun; apply Chan_run_NoDup).
  destruct (columns df) as [|[l a] rest] eqn:E; [reflexivity|].
  cbn [length] in Hrun. rewrite run_from_S in Hrun. cbn [map fst] in Hrun.
  injection Hrun as -> Hrun.
  cbn [map fst length seq combine diff_rows Nat.ltb Nat.leb].
  rewrite length_map.
  rewrite (diff_rows_run df) with (lo := lo) (a := a).
  - reflexivity.
  - unfold column_labels. rewrite E. exact Hnd.
  - exact Hrun.
  - rewrite E. apply incl_refl.
  - cbn [dict_keys map app]. now inversion Hnd.
Qed.

Lemma double_diff_rows_consecutive (df : frame) :
  consecutive_channels df ->
  double_diff_rows df (enumerate (column_labels df)) []
  = inr (adjacent_triples second_difference (columns df)).
Proof.
  intros (lo & Hrun). unfold enumerate, column_labels in *.
  assert (Hnd : NoDup (map fst (columns df)))
    by (rewrite Hrun; apply Chan_run_NoDup).
  destruct (columns df) as [|[l a] [|[l' b] rest]] eqn:E; [reflexivity|reflexivity|].
  cbn [length] in Hrun. rewrite !run_from_S in Hrun. cbn [map fst] in Hrun.
  injection Hrun as -> -> Hrun.
  cbn [map fst length seq combine double_diff_rows Nat.ltb Nat.leb].
  rewrite length_map.
  rewrite (double_diff_rows_run df) with (lo := lo) (a := a) (b := b).
  - reflexivity.
  - unfold column_labels. rewrite E. exact Hnd.
  - exact Hrun.
  - rewrite E. apply incl_refl.
  - cbn [dict_keys map app]. inversion Hnd as [|? ? _ Hnd']; subst.
    now inversion Hnd'.
Qed.

Lemma derive_loop_closed
  (rows_fn : frame -> list (nat * label) -> dict label (list sample)
             -> result (dict label (list sample)))
  (out : frame -> dict label (list sample)) (g acc : grid) :
  Forall (fun kv => rows_fn (snd kv) (enumerate (column_labels (snd kv))) []
                    = inr (out (snd kv))) g ->
  NoDup (dict_keys acc ++ dict_keys g) ->
  derive_loop rows_fn g acc
  = inr (acc ++ map (fun kv => (fst kv,
                                DataFrame_of_series (index (snd kv)) (out (snd kv))))
                    g).
Proof.
  revert acc. induction g as [|[col df] g IH]; intros acc Hall Hnd;
    cbn [derive_loop map].
  - now rewrite app_nil_r.
  - inversion Hall as [|? ? Hdf Hg]; subst. cbn [snd fst] in *.
    rewrite Hdf. cbn [rbind].
    rewrite PackFacts.dict_set_fresh.
    2:{ cbn [dict_keys map fst] in Hnd. apply NoDup_remove_2 in Hnd.
        intros Hin. apply Hnd. apply in_or_app. now left. }
    rewrite IH.
    + now rewrite <- app_assoc.
    + exact Hg.
    + unfold dict_keys in *. rewrite map_app. cbn [map fst] in *.
      now rewrite <- app_assoc.
Qed.

End DiffFacts.

(** X16: on a grid whose matrix columns carry consecutively numbered
    channels, [diff] keeps the matrix columns and, in each, replaces the
    channels by the differences of neighbours, [channel (k-1) - channel k]
    under the label [k]: one channel less, and a frame without index when a
    matrix column holds a single channel. *)
Theorem diff_neighbour_differences (sorted_rawemg : grid) :
  NoDup (dict_keys sorted_rawemg) ->
  Forall (fun kv => consecutive_channels (snd kv)) sorted_rawemg ->
  diff sorted_rawemg
  = inr (map (fun kv =>
                (fst kv,
                 DataFrame_of_series
                   (index (snd kv))
                   (adjacent_pairs (zip_with sample_sub) (columns (snd kv)))))
             sorted_rawemg).
Proof.
  intros Hnd Hall. unfold diff.
  rewrite (DiffFacts.derive_loop_closed diff_rows
             (fun df => adjacent_pairs (zip_with sample_sub) (columns df))).
  - reflexivity.
  - eapply Forall_impl; [|exact Hall].
    intros kv. apply DiffFacts.diff_rows_consecutive.
  - exact Hnd.
Qed.

Lemma diff_neighbour_differences_witness :
  diff MoreExamples.three_channel_grid
  = inr (map (fun kv =>
                (fst kv,
                 DataFrame_of_series
                   (index (snd kv))
                   (adjacent_pairs (zip_with sample_sub) (columns (snd kv)))))
             MoreExamples.three_channel_grid).
Proof.
  apply (diff_neighbour_differences MoreExamples.three_channel_grid).
  - repeat constructor. intros [].
  - repeat constructor. exists 4. reflexivity.
Defined.


(** X17: under the same condition [double_diff] replaces the channels of
    each matrix column by [-channel (k-2) + 2 * channel (k-1) - channel k]
    under the label [k]: two channels less. *)
Theorem double_diff_neighbour_differences (sorted_rawemg : grid) :
  NoDup (dict_keys sorted_rawemg) ->
  Forall (fun kv => consecutive_channels (snd kv)) sorted_rawemg ->
  double_diff sorted_rawemg
  = inr (map (fun kv =>
                (fst kv,
                 DataFrame_of_series
                   (index (snd kv))
                   (adjacent_triples second_difference (columns (snd kv)))))
             sorted_rawemg).
Proof.
  intros Hnd Hall. unfold double_diff.
  rewrite (DiffFacts.derive_loop_closed double_diff_rows
             (fun df => adjacent_triples second_difference (columns df))).
  - reflexivity.
  - eapply Forall_impl; [|exact Hall].
    intros kv. apply DiffFacts.double_diff_rows_consecutive.
  - exact Hnd.
Qed.

Lemma double_diff_neighbour_differences_witness :
  double_diff MoreExamples.three_channel_grid
  = inr (map (fun kv =>
                (fst kv,
                 DataFrame_of_series
                   (index (snd kv))
                   (adjacent_triples second_difference (columns (snd kv)))))
             MoreExamples.three_channel_grid).
Proof.
  apply (double_diff_neighbour_differences MoreExamples.three_channel_grid).
  - repeat constructor. intros [].
  - repeat constructor. exists 4. reflexivity.
Defined.


Module DiffErrors.

Lemma loc_col_in_inr (cols : list (label * list sample)) (l : label)
  (v : list sample) :
  loc_col_in cols l = inr v -> In l (map fst cols).
Proof.
  induction cols as [|[l' v'] cols IH]; cbn [loc_col_in map fst]; [discriminate|].
  destruct (label_eqb l' l) eqn:E.
  - apply PackFacts.label_eqb_eq in E. intros _. now left.
  - intros H. right. now apply IH.
Qed.

Lemma label_minus_inr (l l' : label) (k : Z) :
  label_minus l k = inr l' -> exists z, l = Chan z /\ l' = Chan (z - k).
Proof.
  destruct l as [z|l0 s]; cbn; [|discriminate].
  intros H. injection H as <-. eauto.
Qed.

Lemma diff_rows_inr (df : frame) (rows : list (nat * label))
  (acc d : dict label (list sample)) :
  diff_rows df rows acc = inr d ->
  forall pos l, In (S pos, l) rows ->
    exists z, l = Chan z /\ In (Chan (z - 1)) (column_labels df).
Proof.
  revert acc. induction rows as [|[p r] rows IH]; intros acc H pos l Hin.
  - contradiction.
  - cbn [diff_rows] in H. destruct (0 <? p)%nat eqn:Ep.
    + apply rbind_inr in H. destruct H as (prev & Hprev & H).
      apply rbind_inr in H. destruct H as (a & Ha & H).
      apply rbind_inr in H. destruct H as (b & Hb & H).
      destruct Hin as [E|Hin]; [|eapply IH; eauto].
      injection E as -> ->.
      apply label_minus_inr in Hprev. destruct Hprev as (z & -> & ->).
      exists z. split; [reflexivity|].
      apply loc_col_in_inr in Ha. exact Ha.
    + destruct Hin as [E|Hin]; [|eapply IH; eauto].
      injection E as -> ->. discriminate Ep.
Qed.

Lemma double_diff_rows_inr (df : frame) (rows : list (nat * label))
  (acc d : dict label (list sample)) :
  double_diff_rows df rows acc = inr d ->
  forall pos l, In (S (S pos), l) rows ->
    exists z, l = Chan z /\ In (Chan (z - 1)) (column_labels df)
              /\ In (Chan (z - 2)) (column_labels df).
Proof.
  revert acc. induction rows as [|[p r] rows IH]; intros acc H pos l Hin.
  - contradiction.
  - cbn [double_diff_rows] in H. destruct (1 <? p)%nat eqn:Ep.
    + apply rbind_inr in H. destruct H as (prev2 & Hprev2 & H).
      apply rbind_inr in H. destruct H as (a & Ha & H).
      apply rbind_inr in H. destruct H as (prev1 & Hprev1 & H).
      apply rbind_inr in H. destruct H as (b & Hb & H).
      apply rbind_inr in H. destruct H as (c & Hc & H).
      destruct Hin as [E|Hin]; [|eapply IH; eauto].
      injection E as -> ->.
      apply label_minus_inr in Hprev2. destruct Hprev2 as (z & -> & ->).
      apply label_minus_inr in Hprev1. destruct Hprev1 as (z' & E & ->).
      injection E as <-.
      exists z. split; [reflexivity|].
      apply loc_col_in_inr in Ha, Hb. split; assumption.
    + destruct Hin as [E|Hin]; [|eapply IH; eauto].
      injection E as -> ->. discriminate Ep.
Qed.

Lemma derive_loop_inr
  (rows_fn : frame -> list (nat * label) -> dict label (list sample)
             -> result (dict label (list sample)))
  (g acc out : grid) :
  derive_loop rows_fn g acc = inr out ->
  Forall (fun kv => exists d,
            rows_fn (snd kv) (enumerate (column_labels (snd kv))) [] = inr d) g.
Proof.
  revert acc. induction g as [|[col df] g IH]; intros acc H; [constructor|].
  cbn [derive_loop] in H. apply rbind_inr in H. destruct H as (d & Hd & H).
  constructor; [eauto|]. eapply IH; eauto.
Qed.

Lemma nth_error_enumerate {A} (l : list A) (k : nat) (x : A) :
  nth_error l k = Some x -> In (k, x) (enumerate l).
Proof.
  unfold enumerate. intros H.
  assert (G : forall s, In ((s + k)%nat, x) (combine (seq s (length l)) l)).
  { revert k H. induction l as [|y l IH]; intros k H s.
    - destruct k; discriminate.
    - destruct k as [|k]; cbn in *.
      + injection H as ->. left. f_equal. lia.
      + right. replace (s + S k)%nat with (S s + k)%nat by lia. now apply IH. }
  exact (G 0%nat).
Qed.

End DiffErrors.

(** X18: [diff] only returns when, in every matrix column, each channel
    after the first carries an integer label whose predecessor is a label
    of the same column; [double_diff] only when each channel after the
    second has its two predecessors there.  Otherwise the [row - 1] /
    [.loc] lookups raise. *)
Theorem derivations_need_neighbours (sorted_rawemg out : grid) :
  (diff sorted_rawemg = inr out ->
   Forall (fun kv =>
             forall pos l,
               nth_error (column_labels (snd kv)) (S pos) = Some l ->
               exists z, l = Chan z
                         /\ In (Chan (z - 1)) (column_labels (snd kv)))
          sorted_rawemg)
  /\ (double_diff sorted_rawemg = inr out ->
      Forall (fun kv =>
                forall pos l,
                  nth_error (column_labels (snd kv)) (S (S pos)) = Some l ->
                  exists z, l = Chan z
                            /\ In (Chan (z - 1)) (column_labels (snd kv))
                            /\ In (Chan (z - 2)) (column_labels (snd kv)))
             sorted_rawemg).
Proof.
  split; intros H; apply DiffErrors.derive_loop_inr in H;
    (eapply Forall_impl; [|exact H]); intros kv (d & Hd) pos l Hl;
    apply DiffErrors.nth_error_enumerate in Hl.
  - eapply DiffErrors.diff_rows_inr; eauto.
  - eapply DiffErrors.double_diff_rows_inr; eauto.
Qed.

Lemma derivations_need_neighbours_witness :
  Forall (fun kv =>
            forall pos l,
              nth_error (column_labels (snd kv)) (S pos) = Some l ->
              exists z, l = Chan z
                        /\ In (Chan (z - 1)) (column_labels (snd kv)))
         MoreExamples.three_channel_grid.
Proof.
  apply (proj1 (derivations_need_neighbours
                  MoreExamples.three_channel_grid
                  [("col0"%string,
                    mkFrame (range 2) [(Chan 5, [Val (-2); NaN]);
                                       (Chan 6, [Val (-3); NaN])])])).
  vm_compute. reflexivity.
Defined.


(** ** estimate_cv_via_mle *)

(** X19: whenever [estimate_cv_via_mle] returns, it has gone through the
    two MLE routines once each, in this order; the delay was searched
    between channels 1 and 2 when the signal has more than three channels
    and between channels 0 and 1 otherwise, the velocity was estimated on
    all channels, and the value returned is the absolute value of that
    estimate, never negative. *)
Theorem cv_result
  (find_mle_teta : list sample -> list sample -> Q -> Q -> result sample)
  (mle_cv_est : list (list sample) -> sample -> Q -> Q -> result (sample * sample))
  (e : emgfile) (signal : frame) (tr : list event) (v : sample) :
  estimate_cv_via_mle find_mle_teta mle_cv_est e signal = (tr, inr v) ->
  tr = [EvFindMleTeta; EvMleCvEst]
  /\ (forall q, v = Val q -> (0 <= q)%Q)
  /\ exists sig1 sig2 teta cv teta',
      (if (3 <? length (columns signal))%nat
       then nth_error (map snd (columns signal)) 1 = Some sig1
            /\ nth_error (map snd (columns signal)) 2 = Some sig2
       else nth_error (map snd (columns signal)) 0 = Some sig1
            /\ nth_error (map snd (columns signal)) 1 = Some sig2)
      /\ find_mle_teta sig1 sig2 (IED e) (FSAMP e) = inr teta
      /\ mle_cv_est (map snd (columns signal)) teta (IED e) (FSAMP e)
         = inr (cv, teta')
      /\ v = sample_abs cv.
Proof.
  unfold estimate_cv_via_mle. intros H.
  apply tbind_inr in H. destruct H as (t1 & [sig1 sig2] & t2 & Hsel & H & ->).
  apply tbind_inr in H. destruct H as (t3 & teta & t4 & Hteta & H & ->).
  apply tbind_inr in H. destruct H as (t5 & [cv teta'] & t6 & Hcv & H & ->).
  unfold tlift in Hsel. injection Hsel as <- Hsel.
  unfold tlog in Hteta, Hcv. injection Hteta as <- Hteta. injection Hcv as <- Hcv.
  unfold tret, ok in H. injection H as <- <-.
  split; [reflexivity|]. split.
  - intros q Hq. destruct cv as [c|]; [|discriminate].
    cbn in Hq. injection Hq as <-. apply Qabs_nonneg.
  - exists sig1, sig2, teta, cv, teta'.
    split; [|split; [exact Hteta|split; [exact Hcv|reflexivity]]].
    rewrite length_map in Hsel.
    destruct (3 <? length (columns signal))%nat;
      apply rbind_inr in Hsel; destruct Hsel as (s1 & H1 & Hsel);
      apply rbind_inr in Hsel; destruct Hsel as (s2 & H2 & Hsel);
      unfold ok in Hsel; injection Hsel as <- <-;
      unfold sig_row in H1, H2;
      destruct (nth_error _ _) eqn:E1 in H1; try discriminate H1;
      destruct (nth_error _ _) eqn:E2 in H2; try discriminate H2;
      injection H1 as <-; injection H2 as <-; split; assumption.
Qed.

Lemma cv_result_witness :
  [EvFindMleTeta; EvMleCvEst] = [EvFindMleTeta; EvMleCvEst]
  /\ (forall q, Val 4 = Val q -> (0 <= q)%Q)
  /\ exists sig1 sig2 teta cv teta',
      (if (3 <? length (columns MoreExamples.four_channel_signal))%nat
       then nth_error (map snd (columns MoreExamples.four_channel_signal)) 1 = Some sig1
            /\ nth_error (map snd (columns MoreExamples.four_channel_signal)) 2 = Some sig2
       else nth_error (map snd (columns MoreExamples.four_channel_signal)) 0 = Some sig1
            /\ nth_error (map snd (columns MoreExamples.four_channel_signal)) 1 = Some sig2)
      /\ Examples.stub_find_mle_teta sig1 sig2 (IED Examples.edge_emgfile)
                                     (FSAMP Examples.edge_emgfile) = inr teta
      /\ Examples.stub_mle_cv_est (map snd (columns MoreExamples.four_channel_signal))
                                  teta (IED Examples.edge_emgfile)
                                  (FSAMP Examples.edge_emgfile)
         = inr (cv, teta')
      /\ Val 4 = sample_abs cv.
Proof.
  apply (cv_result Examples.stub_find_mle_teta Examples.stub_mle_cv_est
           Examples.edge_emgfile MoreExamples.four_channel_signal
           [EvFindMleTeta; EvMleCvEst] (Val 4)).
  vm_compute. reflexivity.
Defined.

(** ** tools: the binary representation of the firings *)

Module BinaryFacts.

Lemma length_set_at {A} (l : list A) (k : nat) (v : A) :
  length (set_at l k v) = length l.
Proof.
  revert k. induction l as [|x l IH]; intros [|k]; cbn; auto.
Qed.

Lemma nth_error_set_at {A} (l : list A) (k i : nat) (v : A) :
  nth_error (set_at l k v) i
  = if Nat.eqb k i && (k <? length l)%nat then Some v else nth_error l i.
Proof.
  revert k i. induction l as [|x l IH]; intros [|k] [|i]; cbn; try reflexivity.
  - destruct (Nat.eqb k i); reflexivity.
  - rewrite IH. reflexivity.
Qed.

Lemma set_at_app {A} (pre post : list A) (x v : A) :
  set_at (pre ++ x :: post) (length pre) v = pre ++ v :: post.
Proof. induction pre as [|y pre IH]; cbn; [reflexivity|now rewrite IH]. Qed.

Lemma nth_error_app_mid {A} (pre post : list A) (x : A) :
  nth_error (pre ++ x :: post) (length pre) = Some x.
Proof. induction pre as [|y pre IH]; cbn; auto. Qed.

Lemma position_bound (n : nat) (p : Z) (k : nat) :
  position n p = Some k -> (k < n)%nat.
Proof.
  unfold position.
  destruct ((0 <=? p) && (p <? Z.of_nat n)) eqn:E1.
  - intros H. injection H as <-. lia.
  - destruct ((- Z.of_nat n <=? p) && (p <? 0)) eqn:E2; [|discriminate].
    intros H. injection H as <-. lia.
Qed.

Lemma position_some (n : nat) (p : Z) :
  in_bounds n p = true ->
  exists k, position n p = Some k.
Proof.
  unfold in_bounds. intros H. unfold position.
  destruct ((0 <=? p) && (p <? Z.of_nat n)) eqn:E1; [eauto|].
  destruct ((- Z.of_nat n <=? p) && (p <? 0)) eqn:E2; [eauto|]. lia.
Qed.

Lemma position_none (n : nat) (p : Z) :
  in_bounds n p = false -> position n p = None.
Proof.
  unfold in_bounds. intros H. unfold position.
  destruct ((0 <=? p) && (p <? Z.of_nat n)) eqn:E1; [lia|].
  destruct ((- Z.of_nat n <=? p) && (p <? 0)) eqn:E2; [lia|]. reflexivity.
Qed.

(** Setting the cells listed in [ps], one after the other. *)
Lemma nth_error_fold_set {A} (ps : list nat) (c : list A) (v : A) (i : nat) :
  nth_error (fold_left (fun c p => set_at c p v) ps c) i
  = if existsb (Nat.eqb i) ps && (i <? length c)%nat then Some v else nth_error c i.
Proof.
  revert c. induction ps as [|p ps IH]; intros c; cbn [fold_left existsb].
  - reflexivity.
  - rewrite IH, length_set_at, nth_error_set_at.
    rewrite (Nat.eqb_sym i p).
    destruct (Nat.eqb_spec p i) as [->|Hne]; cbn [orb andb].
    + destruct (existsb (Nat.eqb i) ps), (i <? length c)%nat; reflexivity.
    + reflexivity.
Qed.

Lemma length_fold_set {A} (ps : list nat) (c : list A) (v : A) :
  length (fold_left (fun c p => set_at c p v) ps c) = length c.
Proof.
  revert c. induction ps as [|p ps IH]; intros c; cbn [fold_left]; [reflexivity|].
  now rewrite IH, length_set_at.
Qed.

Lemma mapM_positions (n : nat) (pulses : list Z) :
  forallb (in_bounds n) pulses = true ->
  exists ps, mapM (iloc_position n) pulses = inr ps
             /\ forall i, existsb (Nat.eqb i) ps = existsb (lands_on n i) pulses.
Proof.
  induction pulses as [|p pulses IH]; cbn [forallb mapM]; intros H.
  - exists []. split; reflexivity.
  - apply andb_true_iff in H. destruct H as [Hp Hrest].
    destruct (position_some _ _ Hp) as (k & Hk).
    destruct (IH Hrest) as (ps & Hps & Hex).
    unfold iloc_position at 1. rewrite Hk. cbn [rbind ok]. rewrite Hps. cbn [rbind ok].
    exists (k :: ps). split; [reflexivity|].
    intros i. cbn [existsb]. rewrite Hex. unfold lands_on at 2. rewrite Hk.
    now rewrite Nat.eqb_sym.
Qed.

Lemma mapM_positions_fail (n : nat) (pulses : list Z) :
  forallb (in_bounds n) pulses = false ->
  mapM (iloc_position n) pulses
  = inl (IndexError "index is out of bounds for axis 0").
Proof.
  induction pulses as [|p pulses IH]; cbn [forallb mapM]; intros H; [discriminate|].
  destruct (in_bounds n p) eqn:Hp.
  - destruct (position_some _ _ Hp) as (k & Hk).
    unfold iloc_position at 1. rewrite Hk. cbn [rbind ok].
    rewrite (IH H). reflexivity.
  - unfold iloc_position at 1. rewrite (position_none _ _ Hp). reflexivity.
Qed.

Lemma marked_column (n : nat) (pulses : list Z) (ps : list nat) :
  (forall i, existsb (Nat.eqb i) ps = existsb (lands_on n i) pulses) ->
  fold_left (fun c p => set_at c p (Val 1)) ps (repeat (Val 0) n) = marks n pulses.
Proof.
  intros Hex. apply nth_error_ext. intros i.
  rewrite nth_error_fold_set, repeat_length, Hex. unfold marks.
  destruct (Nat.ltb_spec i n) as [Hlt|Hge].
  - rewrite nth_error_map, nth_error_seq.
    rewrite (proj2 (Nat.ltb_lt i n) Hlt). cbn [option_map Nat.add].
    rewrite andb_true_r.
    destruct (existsb (lands_on n i) pulses); [reflexivity|].
    apply nth_error_repeat. exact Hlt.
  - rewrite andb_false_r.
    rewrite (proj2 (nth_error_None _ _)) by (rewrite repeat_length; lia).
    symmetry. apply nth_error_None. rewrite length_map, length_seq. lia.
Qed.

Lemma marks_nil (n : nat) : marks n [] = repeat (Val 0) n.
Proof.
  unfold marks. cbn [existsb].
  generalize 0%nat. induction n as [|n IH]; intros s; cbn; [reflexivity|].
  now rewrite IH.
Qed.

Lemma iloc_set_mid (idx : list Z) (pre post : list (label * list sample))
  (l : label) (data : list sample) (rows : list Z) (v : sample) :
  iloc_set (mkFrame idx (pre ++ (l, data) :: post)) rows (length pre) v
  = (ps <- mapM (iloc_position (length data)) rows ;;
     ok (mkFrame idx (pre ++ (l, fold_left (fun c p => set_at c p v) ps data)
                          :: post)))%result.
Proof.
  unfold iloc_set. cbn [columns index].
  rewrite nth_error_app_mid.
  destruct (mapM (iloc_position (length data)) rows) as [e|ps]; [reflexivity|].
  cbn [rbind ok]. now rewrite set_at_app.
Qed.

Lemma binary_loop_closed (n : nat) (mupulses : list (list Z)) (j k : nat)
  (done : list (label * list sample)) :
  length done = k ->
  let start :=
    mkFrame (range n)
      (done ++ map (fun mu => (Chan (Z.of_nat mu), repeat (Val 0) n)) (seq k j)) in
  if forallb (fun mu => match nth_error mupulses mu with
                        | Some pulses => forallb (in_bounds n) pulses
                        | None => false
                        end) (seq k j)
  then binary_loop mupulses (seq k j) start
       = inr (mkFrame (range n)
                (done ++ map (fun mu => (Chan (Z.of_nat mu),
                                         marks n (nth mu mupulses [])))
                             (seq k j)))
  else exists msg, binary_loop mupulses (seq k j) start = inl (IndexError msg).
Proof.
  revert k done. induction j as [|j IH]; intros k done Hlen.
  - reflexivity.
  - subst k. set (k := length done) in *.
    cbn [seq map forallb binary_loop].
    destruct (nth_error mupulses k) as [pulses|] eqn:Em;
      [|cbn [andb]; eexists; reflexivity].
    rewrite (nth_error_nth _ _ [] Em).
    assert (Hshift : forall (c : list sample) (f : nat -> label * list sample),
               done ++ (Chan (Z.of_nat k), c) :: map f (seq (S k) j)
               = (done ++ [(Chan (Z.of_nat k), c)]) ++ map f (seq (S k) j))
      by (intros; now rewrite <- app_assoc).
    assert (Hlen' : forall c, length (done ++ [(Chan (Z.of_nat k), c)]) = S k)
      by (intros; rewrite length_app; cbn; unfold k; lia).
    destruct (0 <? length pulses)%nat eqn:Ep.
    + unfold k at 3 5. rewrite !iloc_set_mid, repeat_length.
      destruct (forallb (in_bounds n) pulses) eqn:Eb; cbn [andb].
      * destruct (mapM_positions _ _ Eb) as (ps & Hps & Hex).
        rewrite Hps. cbn [rbind ok].
        rewrite (marked_column _ _ _ Hex).
        rewrite !Hshift. apply IH. apply Hlen'.
      * rewrite (mapM_positions_fail _ _ Eb). eexists. reflexivity.
    + destruct pulses; [|discriminate Ep].
      cbn [forallb andb]. rewrite marks_nil.
      rewrite !Hshift. apply IH. apply Hlen'.
Qed.

End BinaryFacts.

(** X20: [create_binary_firings] returns exactly when every MU below
    [number_of_mus] has an array of firings that are valid row positions
    (negative ones counting from the end); it then returns the frame of
    [emg_length] rows and [number_of_mus] columns with a 1 wherever a firing
    lands and 0 elsewhere, and otherwise fails with an IndexError. *)
Theorem create_binary_firings_outcome (emg_length number_of_mus : nat)
  (mupulses : list (list Z)) :
  if firings_in_bounds emg_length number_of_mus mupulses
  then create_binary_firings emg_length number_of_mus (MupulsesList mupulses)
       = inr (binary_frame emg_length number_of_mus mupulses)
  else exists msg,
      create_binary_firings emg_length number_of_mus (MupulsesList mupulses)
      = inl (IndexError msg).
Proof.
  exact (BinaryFacts.binary_loop_closed emg_length mupulses number_of_mus 0 []
           eq_refl).
Qed.

Module MupulsesFacts.

Lemma labels_distinct_NoDup (ls : list label) :
  NoDup ls -> labels_distinct ls = true.
Proof.
  induction 1 as [|l ls Hl _ IH]; cbn [labels_distinct]; [reflexivity|].
  rewrite IH, andb_true_r. apply negb_true_iff.
  destruct (existsb (label_eqb l) ls) eqn:E; [|reflexivity].
  apply existsb_exists in E. destruct E as (l' & Hin & E).
  apply PackFacts.label_eqb_eq in E. subst l'. contradiction.
Qed.

Lemma range_labels_NoDup (k : nat) : NoDup (map Chan (range k)).
Proof.
  exact (DiffFacts.Chan_run_NoDup 0 k).
Qed.

Lemma position_nat (n k : nat) :
  (k < n)%nat -> position n (Z.of_nat k) = Some k.
Proof.
  intros H. unfold position.
  destruct ((0 <=? Z.of_nat k) && (Z.of_nat k <? Z.of_nat n)) eqn:E; [|lia].
  now rewrite Nat2Z.id.
Qed.

Lemma set_at_mid {A} (pre post : list A) (x v : A) (k : nat) :
  length pre = k -> set_at (pre ++ x :: post) k v = pre ++ v :: post.
Proof. intros <-. apply BinaryFacts.set_at_app. Qed.

Lemma mupulses_loop_closed (b : frame)
  (pre rest : list (label * list sample)) :
  columns b = pre ++ rest ->
  NoDup (column_labels b) ->
  map fst rest = map (fun k => Chan (Z.of_nat k)) (seq (length pre) (length rest)) ->
  mupulses_loop b (map fst rest)
    (map (fun c => firing_times (index b) (snd c)) pre ++ repeat [] (length rest))
  = inr (map (fun c => firing_times (index b) (snd c)) (columns b)).
Proof.
  intros Hcols Hnd. revert pre Hcols.
  induction rest as [|[l data] rest IH]; intros pre Hcols Hrun.
  - cbn. rewrite Hcols, !app_nil_r. reflexivity.
  - cbn [length seq map fst] in Hrun. injection Hrun as -> Hrun.
    cbn [map fst mupulses_loop].
    unfold loc_col.
    rewrite (DiffFacts.loc_col_in_found _ _ data Hnd)
      by (rewrite Hcols; apply in_or_app; right; now left).
    cbn [rbind]. unfold list_setitem.
    rewrite position_nat
      by (rewrite length_app, length_map, repeat_length; cbn [length]; lia).
    cbn [rbind ok length repeat].
    rewrite set_at_mid by apply length_map.
    specialize (IH (pre ++ [(Chan (Z.of_nat (length pre)), data)])).
    rewrite map_app in IH. cbn [map snd] in IH.
    rewrite <- !app_assoc in IH. cbn [app] in IH.
    apply IH.
    + exact Hcols.
    + rewrite length_app. cbn [length].
      replace (length pre + 1)%nat with (S (length pre)) by lia. exact Hrun.
Qed.


Lemma mupulses_columns (binarymusfiring : frame) :
  range_labelled binarymusfiring ->
  mupulses_from_binary binarymusfiring
  = inr (map (fun c => firing_times (index binarymusfiring) (snd c))
             (columns binarymusfiring)).
Proof.
  unfold range_labelled. intros Hlab.
  assert (Hnd : NoDup (column_labels binarymusfiring))
    by (rewrite Hlab; apply range_labels_NoDup).
  unfold mupulses_from_binary.
  rewrite (labels_distinct_NoDup _ Hnd).
  apply (mupulses_loop_closed binarymusfiring [] _ eq_refl Hnd).
  unfold column_labels, range in Hlab. rewrite map_map in Hlab. exact Hlab.
Qed.

End MupulsesFacts.

(** X21: for a frame whose columns are labelled [0 .. N-1],
    [mupulses_from_binary] returns one array per column, in the order of
    the columns, holding the index labels of the cells that are positive. *)
Theorem mupulses_by_column (binarymusfiring : frame) :
  range_labelled binarymusfiring ->
  mupulses_from_binary binarymusfiring
  = inr (map (fun c => firing_times (index binarymusfiring) (snd c))
             (columns binarymusfiring)).
Proof. exact (MupulsesFacts.mupulses_columns binarymusfiring). Qed.

Lemma mupulses_by_column_witness :
  mupulses_from_binary MoreExamples.two_mu_binary
  = inr (map (fun c => firing_times (index MoreExamples.two_mu_binary) (snd c))
             (columns MoreExamples.two_mu_binary)).
Proof.
  apply (mupulses_by_column MoreExamples.two_mu_binary). reflexivity.
Defined.


Module RoundTrip.

Lemma combine_map_same {A B C} (f : A -> B) (g : A -> C) (l : list A) :
  combine (map f l) (map g l) = map (fun i => (f i, g i)) l.
Proof. induction l as [|x l IH]; cbn; [reflexivity|now rewrite IH]. Qed.

Lemma filter_map_comm {A B} (p : B -> bool) (h : A -> B) (l : list A) :
  filter p (map h l) = map h (filter (fun x => p (h x)) l).
Proof.
  induction l as [|x l IH]; cbn; [reflexivity|].
  destruct (p (h x)); cbn; now rewrite IH.
Qed.

Lemma firing_times_marks (n : nat) (pulses : list Z) :
  firing_times (range n) (marks n pulses)
  = map Z.of_nat (filter (fun i => existsb (lands_on n i) pulses) (seq 0 n)).
Proof.
  unfold firing_times, range, marks.
  rewrite combine_map_same, filter_map_comm, map_map. cbn [fst snd].
  f_equal. apply filter_ext. intros i.
  destruct (existsb (lands_on n i) pulses); reflexivity.
Qed.

Lemma lands_on_inside (n i : nat) (p : Z) :
  0 <= p < Z.of_nat n -> lands_on n i p = (p =? Z.of_nat i).
Proof.
  intros H. unfold lands_on, position.
  destruct ((0 <=? p) && (p <? Z.of_nat n)) eqn:E; [|lia].
  destruct (Nat.eqb_spec (Z.to_nat p) i), (Z.eqb_spec p (Z.of_nat i)); try reflexivity; lia.
Qed.

Lemma filter_increasing (pulses : list Z) (k s : nat) :
  StronglySorted Z.lt pulses ->
  Forall (fun p => Z.of_nat s <= p < Z.of_nat (s + k)) pulses ->
  map Z.of_nat (filter (fun i => existsb (fun p => p =? Z.of_nat i) pulses) (seq s k))
  = pulses.
Proof.
  revert s pulses. induction k as [|k IH]; intros s pulses Hs Hb.
  - destruct pulses as [|p ps]; [reflexivity|].
    inversion Hb; subst. lia.
  - cbn [seq filter].
    destruct pulses as [|p ps].
    + cbn [existsb]. apply (IH (S s) []); constructor.
    + inversion Hs as [|? ? Hs' Hlt]; subst.
      inversion Hb as [|? ? Hp Hb']; subst.
      cbn [existsb].
      destruct (Z.eqb_spec p (Z.of_nat s)) as [->|Hne]; cbn [orb].
      * cbn [map]. f_equal.
        rewrite (filter_ext_in _ (fun i => existsb (fun p => p =? Z.of_nat i) ps)).
        -- apply IH; [exact Hs'|].
           rewrite Forall_forall in *. intros q Hq.
           specialize (Hlt q Hq). specialize (Hb' q Hq). lia.
        -- intros i Hi. apply in_seq in Hi. cbn [existsb].
           destruct (Z.eqb_spec (Z.of_nat s) (Z.of_nat i)); [lia|reflexivity].
      * assert (Hhead : existsb (fun q => q =? Z.of_nat s) ps = false).
        { destruct (existsb _ ps) eqn:E; [|reflexivity].
          apply existsb_exists in E. destruct E as (q & Hq & E).
          apply Z.eqb_eq in E. rewrite Forall_forall in Hlt.
          specialize (Hlt q Hq). lia. }
        rewrite Hhead.
        apply (IH (S s) (p :: ps)); [exact Hs|].
        constructor; [lia|].
        rewrite Forall_forall in *. intros q Hq.
        specialize (Hlt q Hq). specialize (Hb' q Hq). lia.
Qed.

Lemma firing_times_marks_increasing (n : nat) (pulses : list Z) :
  increasing_within n pulses ->
  firing_times (range n) (marks n pulses) = pulses.
Proof.
  intros (Hs & Hb). rewrite firing_times_marks.
  rewrite (filter_ext_in _ (fun i => existsb (fun p => p =? Z.of_nat i) pulses)).
  - apply filter_increasing; [exact Hs|].
    eapply Forall_impl; [|exact Hb]. cbn. intros p Hp. lia.
  - intros i _. induction Hb as [|p ps Hp _ IHp]; [reflexivity|].
    cbn [existsb]. rewrite lands_on_inside by exact Hp.
    inversion Hs; subst. now rewrite IHp.
Qed.

Lemma increasing_in_bounds (n : nat) (pulses : list Z) :
  increasing_within n pulses -> forallb (in_bounds n) pulses = true.
Proof.
  intros (_ & Hb). apply forallb_forall. rewrite Forall_forall in Hb.
  intros p Hp. specialize (Hb p Hp). unfold in_bounds. lia.
Qed.

Lemma firings_in_bounds_all (n : nat) (mupulses : list (list Z)) :
  Forall (fun pulses => forallb (in_bounds n) pulses = true) mupulses ->
  firings_in_bounds n (length mupulses) mupulses = true.
Proof.
  intros H. unfold firings_in_bounds. apply forallb_forall. intros mu Hmu.
  apply in_seq in Hmu.
  destruct (nth_error mupulses mu) as [pulses|] eqn:E.
  - rewrite Forall_forall in H. apply H. eapply nth_error_In; eauto.
  - apply nth_error_None in E. lia.
Qed.

Lemma binary_frame_labelled (n k : nat) (mupulses : list (list Z)) :
  range_labelled (binary_frame n k mupulses).
Proof.
  unfold range_labelled, binary_frame, column_labels, range. cbn [columns].
  rewrite !map_map, length_map, length_seq. reflexivity.
Qed.

End RoundTrip.

(** X22: from firings to the binary frame and back.  When the firings of
    every MU are listed in increasing order without repetition and lie
    inside the recording, [mupulses_from_binary] recovers from the frame of
    [create_binary_firings] exactly the firings it was built from. *)
Theorem binary_round_trip (emg_length : nat) (mupulses : list (list Z)) :
  Forall (increasing_within emg_length) mupulses ->
  (b <- create_binary_firings emg_length (length mupulses) (MupulsesList mupulses) ;;
   mupulses_from_binary b)%result
  = inr mupulses.
Proof.
  intros H.
  pose proof (BinaryFacts.binary_loop_closed emg_length mupulses (length mupulses) 0 []
                eq_refl) as Hc.
  cbv zeta in Hc. cbn [app] in Hc.
  change (forallb _ (seq 0 (length mupulses)))
    with (firings_in_bounds emg_length (length mupulses) mupulses) in Hc.
  rewrite RoundTrip.firings_in_bounds_all in Hc
    by (eapply Forall_impl; [|exact H]; apply RoundTrip.increasing_in_bounds).
  unfold create_binary_firings, zeros_frame. rewrite Hc. cbn [rbind].
  fold (binary_frame emg_length (length mupulses) mupulses).
  rewrite MupulsesFacts.mupulses_columns by apply RoundTrip.binary_frame_labelled.
  unfold binary_frame. cbn [index columns]. rewrite map_map. cbn [snd].
  rewrite <- (PackFacts.map_nth_seq_id mupulses []) at 2.
  f_equal. apply map_ext_in. intros mu Hmu. apply in_seq in Hmu.
  apply RoundTrip.firing_times_marks_increasing.
  rewrite Forall_forall in H. apply H. apply nth_In. lia.
Qed.

Lemma binary_round_trip_witness :
  (b <- create_binary_firings 6 (length [[1; 4]; []; [0; 2; 5]])
                              (MupulsesList [[1; 4]; []; [0; 2; 5]]) ;;
   mupulses_from_binary b)%result
  = inr [[1; 4]; []; [0; 2; 5]].
Proof.
  apply (binary_round_trip 6 [[1; 4]; []; [0; 2; 5]]).
  repeat constructor; cbn; lia.
Defined.


Module RoundTripBack.

Lemma firing_times_range (n : nat) (data : list sample) :
  length data = n ->
  firing_times (range n) data
  = map Z.of_nat (filter (fun i => sample_pos (nth i data NaN)) (seq 0 n)).
Proof.
  intros Hn. unfold firing_times, range.
  rewrite <- (PackFacts.map_nth_seq_id data NaN) at 1. rewrite Hn.
  rewrite RoundTrip.combine_map_same, RoundTrip.filter_map_comm, map_map.
  reflexivity.
Qed.

Lemma existsb_lands_on (n i : nat) (P : nat -> bool) :
  (i < n)%nat ->
  existsb (lands_on n i) (map Z.of_nat (filter P (seq 0 n))) = P i.
Proof.
  intros Hi. apply eq_true_iff_eq. rewrite existsb_exists. split.
  - intros (p & Hp & Hl). apply in_map_iff in Hp. destruct Hp as (j & <- & Hj).
    apply filter_In in Hj. destruct Hj as (Hj & HP). apply in_seq in Hj.
    rewrite RoundTrip.lands_on_inside in Hl by lia.
    apply Z.eqb_eq in Hl. apply Nat2Z.inj in Hl. now subst j.
  - intros HP. exists (Z.of_nat i). split.
    + apply in_map. apply filter_In. split; [apply in_seq; lia|exact HP].
    + rewrite RoundTrip.lands_on_inside by lia. apply Z.eqb_refl.
Qed.

Lemma marks_firing_times (n : nat) (data : list sample) :
  length data = n ->
  Forall (fun x => x = Val 0 \/ x = Val 1) data ->
  marks n (firing_times (range n) data) = data.
Proof.
  intros Hn Hcells. rewrite firing_times_range by exact Hn.
  transitivity (map (fun i => nth i data NaN) (seq 0 n));
    [|rewrite <- Hn; apply PackFacts.map_nth_seq_id].
  unfold marks. apply map_ext_in. intros i Hi. apply in_seq in Hi.
  rewrite existsb_lands_on by lia.
  assert (Hin : In (nth i data NaN) data) by (apply nth_In; lia).
  rewrite Forall_forall in Hcells.
  destruct (Hcells _ Hin) as [-> | ->]; reflexivity.
Qed.

Lemma firing_times_in_bounds (n : nat) (data : list sample) :
  length data = n ->
  forallb (in_bounds n) (firing_times (range n) data) = true.
Proof.
  intros Hn. rewrite firing_times_range by exact Hn.
  apply forallb_forall. intros p Hp.
  apply in_map_iff in Hp. destruct Hp as (j & <- & Hj).
  apply filter_In in Hj. destruct Hj as (Hj & _). apply in_seq in Hj.
  unfold in_bounds. lia.
Qed.

End RoundTripBack.

(** X23: from the binary frame to the firings and back.  For a frame of
    0/1 cells indexed [0 .. n-1] with columns labelled [0 .. N-1],
    [create_binary_firings], given the frame's numbers of rows and columns
    and the firings [mupulses_from_binary] reads from it, rebuilds the
    frame. *)
Theorem frame_round_trip (binarymusfiring : frame) (n : nat) :
  range_labelled binarymusfiring ->
  binary_cells n binarymusfiring ->
  (mupulses <- mupulses_from_binary binarymusfiring ;;
   create_binary_firings n (length (columns binarymusfiring))
                         (MupulsesList mupulses))%result
  = inr binarymusfiring.
Proof.
  intros Hlab (Hidx & Hcells).
  rewrite (MupulsesFacts.mupulses_columns _ Hlab). cbn [rbind].
  destruct binarymusfiring as [idx cols]. cbn [index columns] in *. subst idx.
  set (m := map (fun c => firing_times (range n) (snd c)) cols).
  assert (Hm : length m = length cols) by apply length_map.
  pose proof (BinaryFacts.binary_loop_closed n m (length cols) 0 [] eq_refl) as Hc.
  cbv zeta in Hc. cbn [app] in Hc.
  assert (Hfb : firings_in_bounds n (length cols) m = true).
  { rewrite <- Hm. apply RoundTrip.firings_in_bounds_all.
    unfold m. apply Forall_map. eapply Forall_impl; [|exact Hcells].
    intros c (Hlen & _). now apply RoundTripBack.firing_times_in_bounds. }
  unfold firings_in_bounds in Hfb. rewrite Hfb in Hc.
  unfold create_binary_firings, zeros_frame. rewrite Hc. f_equal. f_equal.
  transitivity (map (fun mu => nth mu cols (Chan 0, [])) (seq 0 (length cols)));
    [|apply PackFacts.map_nth_seq_id].
  apply map_ext_in. intros mu Hmu. apply in_seq in Hmu.
  assert (Hin : In (nth mu cols (Chan 0, [])) cols) by (apply nth_In; lia).
  rewrite Forall_forall in Hcells. destruct (Hcells _ Hin) as (Hlen & Hbin).
  unfold m. rewrite (nth_indep _ [] (firing_times (range n) (snd (Chan 0, []))))
    by (rewrite length_map; lia).
  rewrite (map_nth (fun c => firing_times (range n) (snd c))).
  rewrite RoundTripBack.marks_firing_times by assumption.
  unfold range_labelled, column_labels in Hlab. cbn [columns] in Hlab.
  assert (Hl : fst (nth mu cols (Chan 0, [])) = Chan (Z.of_nat mu)).
  { rewrite <- (map_nth fst). cbn [fst]. rewrite Hlab.
    unfold range. rewrite map_map.
    rewrite (nth_indep _ (Chan 0) (Chan (Z.of_nat 0)))
      by (rewrite length_map, length_seq; lia).
    rewrite (map_nth (fun k => Chan (Z.of_nat k))). now rewrite seq_nth. }
  rewrite <- Hl. now destruct (nth mu cols (Chan 0, [])).
Qed.

Lemma frame_round_trip_witness :
  (mupulses <- mupulses_from_binary MoreExamples.two_mu_binary ;;
   create_binary_firings 4 (length (columns MoreExamples.two_mu_binary))
                         (MupulsesList mupulses))%result
  = inr MoreExamples.two_mu_binary.
Proof.
  apply (frame_round_trip MoreExamples.two_mu_binary 4).
  - reflexivity.
  - split; [reflexivity|].
    constructor; [split; [reflexivity|]|constructor; [split; [reflexivity|]|constructor]];
      repeat (constructor; [first [left; reflexivity|right; reflexivity]|]);
      constructor.
Defined.


(** ** xcc_sta *)

Module XccFacts.

Lemma mem_label_In (l : label) (ls : list label) :
  mem_label l ls = true <-> In l ls.
Proof.
  unfold mem_label. rewrite existsb_exists. split.
  - intros (x & Hx & E). apply PackFacts.label_eqb_eq in E. now subst.
  - intros H. exists l. split; [exact H|]. now apply PackFacts.label_eqb_eq.
Qed.

Lemma set_column_scalar_spec (out : frame) (col : label) (x : sample) :
  In col (column_labels out) ->
  index (set_column_scalar out col x) = index out
  /\ column_labels (set_column_scalar out col x) = column_labels out
  /\ forall l v, In (l, v) (columns (set_column_scalar out col x)) ->
                 (l = col /\ v = repeat x (nrows out))
                 \/ (l <> col /\ In (l, v) (columns out)).
Proof.
  intros Hin. unfold set_column_scalar.
  rewrite (proj2 (mem_label_In _ _) Hin). cbn [index columns].
  split; [reflexivity|]. split.
  - unfold column_labels. cbn [columns]. rewrite map_map.
    apply map_ext. intros c. now destruct (label_eqb (fst c) col).
  - intros l v H. apply in_map_iff in H. destruct H as (c & Hc & Hcin).
    destruct (label_eqb (fst c) col) eqn:E.
    + apply PackFacts.label_eqb_eq in E. injection Hc as <- <-. now left.
    + subst c. right. split; [|exact Hcin].
      intros ->. cbn [fst] in E.
      now rewrite (proj2 (PackFacts.label_eqb_eq col col) eq_refl) in E.
Qed.

Section Loop.

Variable norm_xcorr : list sample -> list sample -> result sample.
Variable df : frame.
Variable reversed_col : list label.

(** What is known of the value computed at a position. *)
Variable known : nat -> sample -> Prop.
Hypothesis known_ok :
  forall pos x,
    (if negb (Z.of_nat pos =? Z.of_nat (length reversed_col) - 1)
     then (this_l <- list_getitem reversed_col pos ;;
           this_c <- loc_col df this_l ;;
           next_l <- list_getitem reversed_col (pos + 1) ;;
           next_c <- loc_col df next_l ;;
           norm_xcorr this_c next_c)
     else ok NaN)%result = inr x ->
    known pos x.

Lemma xcc_loop_spec (items : list (nat * label)) (out out' : frame) :
  incl (map snd items) (column_labels out) ->
  xcc_loop norm_xcorr df reversed_col items out = inr out' ->
  index out' = index out
  /\ column_labels out' = column_labels out
  /\ forall l v, In (l, v) (columns out') ->
                 (exists pos x, In (pos, l) items /\ known pos x
                                /\ v = repeat x (nrows out))
                 \/ (~ In l (map snd items) /\ In (l, v) (columns out)).
Proof.
  revert out. induction items as [|[pos col] items IH]; intros out Hincl H.
  - cbn [xcc_loop] in H. unfold ok in H. injection H as <-.
    split; [reflexivity|]. split; [reflexivity|].
    intros l v Hlv. right. split; [intros []|exact Hlv].
  - cbn [xcc_loop] in H. apply rbind_inr in H. destruct H as (x & Hx & H).
    apply known_ok in Hx.
    assert (Hcol : In col (column_labels out)) by (apply Hincl; now left).
    destruct (set_column_scalar_spec out col x Hcol) as (Si & Sl & Sc).
    apply IH in H.
    2:{ rewrite Sl. intros l Hl. apply Hincl. now right. }
    destruct H as (Hi & Hl & Hc).
    split; [now rewrite Hi|]. split; [now rewrite Hl|].
    intros l v Hlv. destruct (Hc l v Hlv) as [(p & y & Hp & Hk & Hv)|(Hnot & Hin)].
    + left. exists p, y. split; [now right|]. split; [exact Hk|].
      rewrite Hv. unfold nrows. now rewrite Si.
    + destruct (Sc l v Hin) as [(-> & ->)|(Hne & Hin')].
      * left. exists pos, x. split; [now left|]. split; [exact Hx|reflexivity].
      * right. split; [|exact Hin'].
        cbn [map snd]. intros [E|E]; [now apply Hne|now apply Hnot].
Qed.

End Loop.

Lemma sample_same_refl (x : sample) : sample_same x x = true.
Proof. destruct x; cbn; [apply Qeq_bool_refl|reflexivity]. Qed.

Lemma rows_same_refl (r : list sample) : rows_same r r = true.
Proof.
  induction r as [|x r IH]; cbn; [reflexivity|].
  now rewrite sample_same_refl, IH.
Qed.

Lemma keep_first (df : frame) :
  Forall (fun c => exists x, snd c = repeat x (nrows df)) (columns df) ->
  filter (fun i => negb (existsb (fun j => rows_same (row_at df j) (row_at df i))
                                 (seq 0 i)))
         (seq 0 (nrows df))
  = firstn 1 (seq 0 (nrows df)).
Proof.
  intros Hconst. destruct (nrows df) as [|m] eqn:En; [reflexivity|].
  cbn [seq filter existsb negb firstn]. f_equal.
  apply PackFacts.filter_none. intros i Hi. apply in_seq in Hi.
  apply negb_false_iff. apply existsb_exists. exists 0%nat.
  split; [apply in_seq; lia|].
  assert (E : row_at df 0 = row_at df i).
  { unfold row_at. apply map_ext_in. intros c Hc.
    rewrite Forall_forall in Hconst. destruct (Hconst c Hc) as (x & ->).
    rewrite !nth_repeat_lt by lia. reflexivity. }
  rewrite E. apply rows_same_refl.
Qed.

Lemma select_first (df : frame) :
  Forall (fun c => exists x, snd c = repeat x (nrows df)) (columns df) ->
  select_rows df (firstn 1 (seq 0 (nrows df)))
  = mkFrame (firstn 1 (index df))
            (map (fun c => (fst c, firstn 1 (snd c))) (columns df)).
Proof.
  intros Hconst. unfold select_rows, nrows in *.
  destruct (index df) as [|z idx].
  - cbn. f_equal. apply map_ext_in. intros c Hc.
    rewrite Forall_forall in Hconst. destruct (Hconst c Hc) as (x & ->).
    reflexivity.
  - cbn [length seq firstn map nth]. f_equal. apply map_ext_in. intros c Hc.
    rewrite Forall_forall in Hconst. destruct (Hconst c Hc) as (x & ->).
    reflexivity.
Qed.

Lemma drop_duplicates_constant (df out : frame) :
  Forall (fun c => exists x, snd c = repeat x (nrows df)) (columns df) ->
  drop_duplicates df = inr out ->
  out = mkFrame (firstn 1 (index df))
                (map (fun c => (fst c, firstn 1 (snd c))) (columns df)).
Proof.
  intros Hconst H. unfold drop_duplicates in H.
  rewrite (keep_first df Hconst), (select_first df Hconst) in H.
  destruct (columns df) as [|c cols]; [destruct (index df)|];
    try discriminate H; unfold ok in H; now injection H as <-.
Qed.

Lemma labels_distinct_true (ls : list label) :
  labels_distinct ls = true -> NoDup ls.
Proof.
  induction ls as [|l ls IH]; cbn [labels_distinct]; intros H; [constructor|].
  apply andb_true_iff in H. destruct H as [Hl Hrest].
  constructor; [|now apply IH].
  intros Hin. apply negb_true_iff in Hl.
  assert (E : existsb (label_eqb l) ls = true).
  { apply existsb_exists. exists l. split; [exact Hin|].
    now apply PackFacts.label_eqb_eq. }
  congruence.
Qed.

Lemma loc_col_nth (cols : list (label * list sample)) (k : nat) (l : label)
  (a : list sample) :
  NoDup (map fst cols) ->
  nth_error (map fst cols) k = Some l ->
  loc_col_in cols l = inr a ->
  nth_error cols k = Some (l, a).
Proof.
  intros Hnd Hk Ha. rewrite nth_error_map in Hk.
  destruct (nth_error cols k) as [[l' a']|] eqn:E; [|discriminate].
  cbn in Hk. injection Hk as ->.
  rewrite (DiffFacts.loc_col_in_found cols l a' Hnd) in Ha
    by (eapply nth_error_In; eauto).
  now injection Ha as ->.
Qed.

Lemma firstn_1_repeat {A} (x : A) (idx : list Z) :
  firstn 1 (repeat x (length idx)) = repeat x (length (firstn 1 idx)).
Proof. destruct idx; reflexivity. Qed.

Lemma xcc_frame_adjacent
  (norm_xcorr : list sample -> list sample -> result sample)
  (df out : frame) :
  xcc_frame norm_xcorr df = inr out -> adjacent_xcc norm_xcorr df out.
Proof.
  unfold xcc_frame. intros H.
  destruct (labels_distinct (column_labels df)) eqn:Hd; [|discriminate].
  apply labels_distinct_true in Hd.
  apply rbind_inr in H. destruct H as (out0 & Hloop & Hdrop).
  set (R := rev (column_labels df)) in *.
  pose (known := fun (pos : nat) (x : sample) =>
    if Z.of_nat pos =? Z.of_nat (length R) - 1 then x = NaN
    else exists la a lb b,
        nth_error R pos = Some la /\ loc_col df la = inr a
        /\ nth_error R (pos + 1) = Some lb /\ loc_col df lb = inr b
        /\ norm_xcorr a b = inr x).
  assert (Hknown : forall pos x,
    (if negb (Z.of_nat pos =? Z.of_nat (length R) - 1)
     then (this_l <- list_getitem R pos ;;
           this_c <- loc_col df this_l ;;
           next_l <- list_getitem R (pos + 1) ;;
           next_c <- loc_col df next_l ;;
           norm_xcorr this_c next_c)
     else ok NaN)%result = inr x -> known pos x).
  { intros pos x Hx. unfold known.
    destruct (Z.of_nat pos =? Z.of_nat (length R) - 1); cbn [negb] in Hx.
    - unfold ok in Hx. now injection Hx as <-.
    - apply rbind_inr in Hx. destruct Hx as (la & Hla & Hx).
      apply rbind_inr in Hx. destruct Hx as (a & Ha & Hx).
      apply rbind_inr in Hx. destruct Hx as (lb & Hlb & Hx).
      apply rbind_inr in Hx. destruct Hx as (b & Hb & Hx).
      unfold list_getitem in Hla, Hlb.
      destruct (nth_error R pos) as [la'|]; [|discriminate].
      destruct (nth_error R (pos + 1)) as [lb'|]; [|discriminate].
      unfold ok in Hla, Hlb. injection Hla as ->. injection Hlb as ->.
      exists la, a, lb, b. auto. }
  assert (Hitems : map snd (enumerate R) = R)
    by apply PackFacts.map_snd_combine_seq.
  destruct (xcc_loop_spec norm_xcorr df R known Hknown (enumerate R) df out0)
    as (Hi & Hl & Hc).
  { rewrite Hitems. intros l Hl. unfold R in Hl. now apply in_rev in Hl. }
  { exact Hloop. }
  assert (Hall : forall l v, In (l, v) (columns out0) ->
            exists pos x, In (pos, l) (enumerate R) /\ known pos x
                          /\ v = repeat x (nrows df)).
  { intros l v Hlv. destruct (Hc l v Hlv) as [Hleft|(Hnot & Hin)]; [exact Hleft|].
    exfalso. apply Hnot. rewrite Hitems. unfold R. apply -> in_rev.
    apply in_map_iff. exists (l, v). auto. }
  assert (Hconst : Forall (fun c => exists x, snd c = repeat x (nrows out0))
                          (columns out0)).
  { apply Forall_forall. intros [l v] Hlv.
    destruct (Hall l v Hlv) as (pos & x & _ & _ & ->).
    exists x. unfold nrows. now rewrite Hi. }
  apply (drop_duplicates_constant _ _ Hconst) in Hdrop. subst out.
  unfold adjacent_xcc. cbn [index columns]. split; [now rewrite Hi|]. split.
  { unfold column_labels in *. cbn [columns]. rewrite map_map. exact Hl. }
  intros k l v Hk. rewrite nth_error_map in Hk.
  destruct (nth_error (columns out0) k) as [[l0 v0]|] eqn:Ek; [|discriminate].
  cbn in Hk. injection Hk as -> <-.
  destruct (Hall l v0 (nth_error_In _ _ Ek)) as (pos & x & Hpos & Hkn & ->).
  exists x. split; [apply firstn_1_repeat|].
  assert (Hlk : nth_error (column_labels df) k = Some l).
  { rewrite <- Hl. unfold column_labels. rewrite nth_error_map, Ek. reflexivity. }
  apply PackFacts.In_combine_seq in Hpos. destruct Hpos as (_ & Hpos).
  rewrite Nat.sub_0_r in Hpos.
  assert (Hlen : length R = length (column_labels df)) by apply length_rev.
  assert (Hrev : forall p l', nth_error R p = Some l' ->
            (p < length (column_labels df))%nat
            /\ nth_error (column_labels df) (length (column_labels df) - S p)
               = Some l').
  { intros p l' Hp. unfold R in Hp. rewrite nth_error_rev in Hp.
    destruct (Nat.ltb_spec p (length (column_labels df))); [auto|discriminate]. }
  destruct (Hrev _ _ Hpos) as (Hlt & Hpos').
  assert (Hkpos : k = (length (column_labels df) - S pos)%nat).
  { apply (proj1 (NoDup_nth_error (column_labels df)) Hd).
    - apply nth_error_Some. congruence.
    - congruence. }
  unfold known in Hkn. rewrite Hlen in Hkn.
  destruct k as [|k'].
  - destruct (Z.eqb_spec (Z.of_nat pos) (Z.of_nat (length (column_labels df)) - 1));
      [exact Hkn|lia].
  - destruct (Z.eqb_spec (Z.of_nat pos) (Z.of_nat (length (column_labels df)) - 1));
      [lia|].
    destruct Hkn as (la & a & lb & b & Hla & Ha & Hlb & Hb & Hx).
    rewrite Hpos in Hla. injection Hla as <-.
    destruct (Hrev _ _ Hlb) as (Hlt' & Hlb').
    replace (length (column_labels df) - S (pos + 1))%nat with k' in Hlb' by lia.
    exists a, b, lb. split; [|split; [|exact Hx]].
    + apply loc_col_nth; assumption.
    + apply loc_col_nth; assumption.
Qed.

End XccFacts.

(** X24: whenever [xcc_sta] returns, the dict has the MUs and matrix
    columns of its input, and every frame keeps the channel labels and at
    most its first row, holding NaN on the first channel and on every other
    channel the [norm_xcorr] of that channel with the one before it. *)
Theorem xcc_sta_result
  (norm_xcorr : list sample -> list sample -> result sample)
  (sta out : sta_dict) :
  xcc_sta norm_xcorr sta = inr out ->
  Forall2 (fun mu_in mu_out =>
             fst mu_out = fst mu_in
             /\ Forall2 (fun col_in col_out =>
                           fst col_out = fst col_in
                           /\ adjacent_xcc norm_xcorr (snd col_in) (snd col_out))
                        (snd mu_in) (snd mu_out))
          sta out.
Proof.
  unfold xcc_sta. intros H. apply mapM_inr in H.
  eapply Forall2_impl; [|exact H]. intros [mu cols] [mu' cols'] Hmu.
  cbn [fst snd] in *. apply rbind_inr in Hmu. destruct Hmu as (cs & Hcs & Hmu).
  unfold ok in Hmu. injection Hmu as <- <-. split; [reflexivity|].
  apply mapM_inr in Hcs. eapply Forall2_impl; [|exact Hcs].
  intros [col df] [col' df'] Hc. cbn [fst snd] in *.
  apply rbind_inr in Hc. destruct Hc as (f & Hf & Hc).
  unfold ok in Hc. injection Hc as <- <-. split; [reflexivity|].
  now apply XccFacts.xcc_frame_adjacent.
Qed.

Lemma xcc_sta_result_witness :
  exists out,
    xcc_sta stub_norm_xcorr two_channel_sta = inr out
    /\ Forall2 (fun mu_in mu_out =>
                  fst mu_out = fst mu_in
                  /\ Forall2 (fun col_in col_out =>
                                fst col_out = fst col_in
                                /\ adjacent_xcc stub_norm_xcorr
                                                (snd col_in) (snd col_out))
                             (snd mu_in) (snd mu_out))
               two_channel_sta out.
Proof.
  destruct (xcc_sta stub_norm_xcorr two_channel_sta) as [e|out] eqn:E.
  - vm_compute in E. discriminate E.
  - exists out. split; [reflexivity|].
    apply (xcc_sta_result stub_norm_xcorr two_channel_sta out). exact E.
Defined.

(** ** tools: deleting motor units *)

Module DeleteFacts.

Lemma enumerate_range_filter (p : Z -> bool) (n s : nat) :
  map fst (filter (fun ix => p (snd ix))
                  (combine (seq s n) (map Z.of_nat (seq s n))))
  = filter (fun i => p (Z.of_nat i)) (seq s n).
Proof.
  revert s. induction n as [|n IH]; intros s; cbn [seq map combine filter];
    [reflexivity|].
  cbn [snd]. destruct (p (Z.of_nat s)); cbn [map fst]; now rewrite IH.
Qed.

Lemma drop_rows_range (df : frame) (n : nat) (mus : list Z) :
  index df = range n ->
  Forall (fun z => 0 <= z < Z.of_nat n) mus ->
  drop_rows df mus = inr (select_rows df (kept_mus n mus)).
Proof.
  intros Hidx Hin. unfold drop_rows. rewrite Hidx.
  assert (Hall : forallb (fun l => existsb (Z.eqb l) (range n)) mus = true).
  { apply forallb_forall. intros z Hz. rewrite Forall_forall in Hin.
    specialize (Hin z Hz). apply existsb_exists. exists z.
    split; [|apply Z.eqb_refl]. unfold range. apply in_map_iff.
    exists (Z.to_nat z). split; [lia|]. apply in_seq. lia. }
  rewrite Hall. unfold ok. f_equal. f_equal.
  unfold enumerate, range. rewrite length_map, length_seq.
  apply (enumerate_range_filter (fun z => negb (existsb (Z.eqb z) mus))).
Qed.


Lemma length_filter_labels (p : label -> bool) (cols : list (label * list sample)) :
  length (filter (fun c => p (fst c)) cols) = length (filter p (map fst cols)).
Proof.
  induction cols as [|c cols IH]; cbn; [reflexivity|].
  destruct (p (fst c)); cbn; now rewrite IH.
Qed.

Lemma existsb_chan (k : nat) (mus : list Z) :
  existsb (fun l => label_eqb (Chan (Z.of_nat k)) (Chan l)) mus
  = existsb (Z.eqb (Z.of_nat k)) mus.
Proof. reflexivity. Qed.

Lemma drop_cols_range (df : frame) (n : nat) (mus : list Z) :
  column_labels df = map Chan (range n) ->
  Forall (fun z => 0 <= z < Z.of_nat n) mus ->
  exists out, drop_cols df mus = inr out
              /\ index out = index df
              /\ length (columns out) = length (kept_mus n mus).
Proof.
  intros Hlab Hin. unfold drop_cols. rewrite Hlab.
  assert (Hall : forallb (fun l => mem_label (Chan l) (map Chan (range n))) mus = true).
  { apply forallb_forall. intros z Hz. rewrite Forall_forall in Hin.
    specialize (Hin z Hz). apply XccFacts.mem_label_In. apply in_map.
    unfold range. apply in_map_iff.
    exists (Z.to_nat z). split; [lia|]. apply in_seq. lia. }
  rewrite Hall. eexists. split; [reflexivity|]. cbn [index columns].
  split; [reflexivity|].
  rewrite (length_filter_labels
             (fun l => negb (existsb (fun z => label_eqb l (Chan z)) mus))).
  unfold column_labels in Hlab. rewrite Hlab. unfold range, kept_mus.
  rewrite map_map.
  rewrite (RoundTrip.filter_map_comm _ (fun k => Chan (Z.of_nat k))).
  rewrite length_map. reflexivity.
Qed.

Lemma relabel_labels (df : frame) :
  column_labels (relabel_columns df) = map Chan (range (length (columns df))).
Proof.
  unfold relabel_columns, column_labels, enumerate, range. cbn [columns].
  rewrite !map_map. cbn [fst].
  rewrite <- (PackFacts.map_fst_combine_seq (columns df) 0) at 2.
  rewrite map_map. reflexivity.
Qed.

Lemma mapM_getitem {A} (l : list A) (d : A) (ks : list nat) :
  Forall (fun k => (k < length l)%nat) ks ->
  mapM (list_getitem l) ks = inr (map (fun k => nth k l d) ks).
Proof.
  induction 1 as [|k ks Hk _ IH]; cbn [mapM map]; [reflexivity|].
  unfold list_getitem at 1.
  destruct (nth_error l k) as [x|] eqn:E;
    [|apply nth_error_None in E; lia].
  cbn [rbind ok]. rewrite IH. cbn [rbind ok].
  now rewrite (nth_error_nth _ _ d E).
Qed.

Lemma kept_below (n : nat) (mus : list Z) :
  Forall (fun k => (k < n)%nat) (kept_mus n mus).
Proof.
  apply Forall_forall. intros k Hk. unfold kept_mus in Hk.
  apply filter_In in Hk. destruct Hk as [Hk _]. apply in_seq in Hk. lia.
Qed.

Lemma NoDup_map_of_nat (l : list nat) : NoDup l -> NoDup (map Z.of_nat l).
Proof.
  induction 1 as [|x l Hx _ IH]; cbn [map]; constructor; [|exact IH].
  intros Hin. apply in_map_iff in Hin. destruct Hin as (y & E & Hy).
  apply Nat2Z.inj in E. now subst.
Qed.

(** Counting the MUs that stay. *)
Lemma listed_mus (n : nat) (mus : list Z) :
  (length (kept_mus n mus)
   + length (filter (fun mu => existsb (Z.eqb (Z.of_nat mu)) mus) (seq 0 n))
   = n)%nat.
Proof.
  unfold kept_mus.
  pose proof (filter_length (fun mu => existsb (Z.eqb (Z.of_nat mu)) mus) (seq 0 n))
    as H.
  rewrite length_seq in H. lia.
Qed.

Lemma listed_perm (n : nat) (mus : list Z) :
  NoDup mus ->
  Forall (fun z => 0 <= z < Z.of_nat n) mus ->
  length (filter (fun mu => existsb (Z.eqb (Z.of_nat mu)) mus) (seq 0 n))
  = length mus.
Proof.
  intros Hnd Hin.
  rewrite <- (length_map Z.of_nat).
  apply Permutation_length. apply NoDup_Permutation.
  - apply NoDup_map_of_nat. apply NoDup_filter, seq_NoDup.
  - exact Hnd.
  - intros z. rewrite in_map_iff. split.
    + intros (k & <- & Hk). apply filter_In in Hk. destruct Hk as [_ Hk].
      apply existsb_exists in Hk. destruct Hk as (y & Hy & E).
      apply Z.eqb_eq in E. now subst.
    + intros Hz. rewrite Forall_forall in Hin. specialize (Hin z Hz).
      exists (Z.to_nat z). split; [lia|]. apply filter_In. split.
      * apply in_seq. lia.
      * apply existsb_exists. exists z. split; [exact Hz|]. apply Z.eqb_eq. lia.
Qed.


End DeleteFacts.

Module DeleteList.

Lemma policy_passes (if_single_mu : string) (n : nat) :
  goes_ahead if_single_mu n ->
  String.eqb if_single_mu "ignore" && (n <=? 1)%nat = false
  /\ negb (String.eqb if_single_mu "ignore" || String.eqb if_single_mu "remove") = false.
Proof.
  intros [->|[-> Hn]]; split; try reflexivity.
  cbn. apply Nat.leb_gt. exact Hn.
Qed.

Lemma extras_kept (e : decomposition) (b : bool) :
  extras_untouched e b -> String.eqb (SOURCE e) "DELSYS" && b = false.
Proof.
  intros [H| ->]; [|apply andb_false_r].
  apply String.eqb_neq in H. now rewrite H.
Qed.

Lemma select_rows_index (df : frame) (ps : list nat) :
  index (reset_index (select_rows df ps)) = range (length ps).
Proof.
  unfold reset_index, select_rows, nrows. cbn [index]. now rewrite length_map.
Qed.

Lemma delete_list_positive (e : decomposition) (mus : list Z)
  (if_single_mu : string) (delete_delsys_muaps : bool) :
  let n := NUMBER_OF_MUS (recording e) in
  n <> 0%nat ->
  consistent e ->
  Forall (fun z => 0 <= z < Z.of_nat n) mus ->
  (length mus <= n)%nat ->
  goes_ahead if_single_mu n ->
  extras_untouched e delete_delsys_muaps ->
  exists e',
    delete_mus e (MuList mus) if_single_mu delete_delsys_muaps = inr e'
    /\ NUMBER_OF_MUS (recording e') = (n - length mus)%nat
    /\ index (ACCURACY e') = range (length (kept_mus n mus))
    /\ (if Nat.eqb (n - length mus) 0
        then MUPULSES (recording e') = [[]]
             /\ IPTS e' = empty_column_frame
             /\ BINARY_MUS_FIRING e' = empty_column_frame
        else MUPULSES (recording e')
             = map (fun mu => nth mu (MUPULSES (recording e)) []) (kept_mus n mus)
             /\ column_labels (IPTS e') = map Chan (range (length (kept_mus n mus)))
             /\ column_labels (BINARY_MUS_FIRING e')
                = map Chan (range (length (kept_mus n mus))))
    /\ FSAMP (recording e') = FSAMP (recording e)
    /\ IED (recording e') = IED (recording e)
    /\ RAW_SIGNAL (recording e') = RAW_SIGNAL (recording e)
    /\ SOURCE e' = SOURCE e
    /\ EXTRAS e' = EXTRAS e.
Proof.
  intros n Hn Hcons Hin Hlen Hgo Hex.
  unfold consistent in Hcons. fold n in Hcons.
  rewrite (proj2 (Nat.eqb_neq n 0) Hn) in Hcons.
  destruct Hcons as (Hmup & Hacc & Hipts & Hbin).
  destruct (policy_passes _ _ Hgo) as (P1 & P2).
  destruct (DeleteFacts.drop_cols_range _ _ _ Hipts Hin) as (ipts & Ei & _ & Li).
  destruct (DeleteFacts.drop_cols_range _ _ _ Hbin Hin) as (bin & Eb & _ & Lb).
  unfold delete_mus. fold n. rewrite P1, P2.
  cbn [munumber_labels].
  rewrite (DeleteFacts.drop_rows_range _ _ _ Hacc Hin). cbn [rbind].
  rewrite Ei. cbn [rbind]. rewrite Eb. cbn [rbind].
  fold (kept_mus n mus).
  rewrite (DeleteFacts.mapM_getitem _ [])
    by (rewrite Hmup; apply DeleteFacts.kept_below).
  cbn [rbind]. unfold number_minus.
  rewrite (proj2 (Nat.leb_le _ _) Hlen). cbn [rbind ok].
  rewrite (extras_kept _ _ Hex).
  destruct (Nat.eqb (n - length mus) 0) eqn:E0; cbn [rbind ok];
    eexists; (split; [reflexivity|]);
    cbn [recording NUMBER_OF_MUS MUPULSES FSAMP IED RAW_SIGNAL SOURCE EXTRAS
         ACCURACY IPTS BINARY_MUS_FIRING];
    (split; [reflexivity|]); (split; [apply select_rows_index|]).
  - repeat split; reflexivity.
  - rewrite !DeleteFacts.relabel_labels, Li, Lb. repeat split; reflexivity.
Qed.

End DeleteList.

Module DeleteMore.

Lemma in_range_nil (mus : list Z) :
  Forall (fun z => 0 <= z < Z.of_nat 0) mus -> mus = [].
Proof. destruct 1 as [|z mus Hz _]; [reflexivity|]. cbn in Hz. lia. Qed.

Lemma NoDup_length_le (n : nat) (mus : list Z) :
  NoDup mus -> Forall (fun z => 0 <= z < Z.of_nat n) mus ->
  (length (kept_mus n mus) + length mus = n)%nat.
Proof.
  intros Hnd Hin. rewrite <- (DeleteFacts.listed_perm n mus Hnd Hin).
  apply DeleteFacts.listed_mus.
Qed.

(** A file without MUs from which nothing is deleted. *)
Lemma delete_nothing_from_empty (e : decomposition)
  (if_single_mu : string) (delete_delsys_muaps : bool) :
  NUMBER_OF_MUS (recording e) = 0%nat ->
  consistent e ->
  goes_ahead if_single_mu 0 ->
  extras_untouched e delete_delsys_muaps ->
  exists e',
    delete_mus e (MuList []) if_single_mu delete_delsys_muaps = inr e'
    /\ consistent e'
    /\ NUMBER_OF_MUS (recording e') = 0%nat
    /\ FSAMP (recording e') = FSAMP (recording e)
    /\ IED (recording e') = IED (recording e)
    /\ RAW_SIGNAL (recording e') = RAW_SIGNAL (recording e)
    /\ SOURCE e' = SOURCE e
    /\ EXTRAS e' = EXTRAS e.
Proof.
  intros Hn Hcons Hgo Hex.
  unfold consistent in Hcons. rewrite Hn in Hcons. cbn [Nat.eqb] in Hcons.
  destruct Hcons as (Hmup & Hacc & Hipts & Hbin).
  destruct (DeleteList.policy_passes _ _ Hgo) as (P1 & P2).
  unfold delete_mus. rewrite Hn, P1, P2. cbn [munumber_labels].
  unfold drop_rows, drop_cols. cbn [forallb rbind ok seq filter mapM length].
  unfold number_minus. cbn [Nat.leb Nat.sub rbind ok Nat.eqb].
  rewrite (DeleteList.extras_kept _ _ Hex). cbn [rbind ok].
  eexists. split; [reflexivity|].
  unfold consistent.
  cbn [recording NUMBER_OF_MUS MUPULSES FSAMP IED RAW_SIGNAL SOURCE EXTRAS
       ACCURACY IPTS BINARY_MUS_FIRING Nat.eqb].
  repeat split; try reflexivity.
  unfold reset_index, select_rows, nrows. cbn [index]. rewrite Hacc. reflexivity.
Qed.

Lemma delete_keeps (e : decomposition) (mus : list Z)
  (if_single_mu : string) (delete_delsys_muaps : bool) :
  consistent e ->
  NoDup mus ->
  Forall (fun z => 0 <= z < Z.of_nat (NUMBER_OF_MUS (recording e))) mus ->
  goes_ahead if_single_mu (NUMBER_OF_MUS (recording e)) ->
  extras_untouched e delete_delsys_muaps ->
  exists e',
    delete_mus e (MuList mus) if_single_mu delete_delsys_muaps = inr e'
    /\ consistent e'
    /\ NUMBER_OF_MUS (recording e')
       = (NUMBER_OF_MUS (recording e) - length mus)%nat
    /\ (NUMBER_OF_MUS (recording e') <> 0%nat ->
        MUPULSES (recording e')
        = map (fun mu => nth mu (MUPULSES (recording e)) [])
              (kept_mus (NUMBER_OF_MUS (recording e)) mus))
    /\ FSAMP (recording e') = FSAMP (recording e)
    /\ IED (recording e') = IED (recording e)
    /\ RAW_SIGNAL (recording e') = RAW_SIGNAL (recording e)
    /\ SOURCE e' = SOURCE e
    /\ EXTRAS e' = EXTRAS e.
Proof.
  intros Hcons Hnd Hin Hgo Hex.
  destruct (Nat.eq_dec (NUMBER_OF_MUS (recording e)) 0) as [Hz|Hnz].
  - rewrite Hz in Hin, Hgo. apply in_range_nil in Hin. subst mus.
    destruct (delete_nothing_from_empty e _ _ Hz Hcons Hgo Hex)
      as (e' & He & Hc & Hn & Hrest).
    exists e'. split; [exact He|]. split; [exact Hc|].
    rewrite Hn, Hz. split; [reflexivity|]. split; [congruence|exact Hrest].
  - pose proof (NoDup_length_le _ _ Hnd Hin) as Hcount.
    destruct (DeleteList.delete_list_positive e mus _ _ Hnz Hcons Hin
                ltac:(lia) Hgo Hex)
      as (e' & He & Hn & Hacc & Hcase & Hrest).
    exists e'. split; [exact He|]. split; [|split; [exact Hn|split; [|exact Hrest]]].
    + unfold consistent. rewrite Hn.
      destruct (Nat.eqb _ 0) eqn:E0.
      * apply Nat.eqb_eq in E0. destruct Hcase as (Hm & Hi & Hb).
        repeat split; try assumption.
        rewrite Hacc. replace (length (kept_mus _ mus)) with 0%nat by lia.
        reflexivity.
      * destruct Hcase as (Hm & Hi & Hb).
        replace (NUMBER_OF_MUS (recording e) - length mus)%nat
          with (length (kept_mus (NUMBER_OF_MUS (recording e)) mus)) by lia.
        repeat split; try assumption.
        rewrite Hm. apply length_map.
    + intros Hne. rewrite Hn in Hne.
      apply Nat.eqb_neq in Hne. rewrite Hne in Hcase. apply Hcase.
Qed.

End DeleteMore.










Module DeleteEmpty.

(** The positions [delete_empty_mus] collects. *)
Lemma empty_positions (mupulses : list (list Z)) (k s : nat) :
  (s + k <= length mupulses)%nat ->
  exists ind,
    mapM (fun i_mu =>
            (pulses <- list_getitem mupulses (snd i_mu) ;;
             ok (if Nat.eqb (length pulses) 0 then [Z.of_nat (fst i_mu)] else []))%result)
         (combine (seq s k) (seq s k))
    = inr ind
    /\ concat ind
       = map Z.of_nat (filter (fun i => Nat.eqb (length (nth i mupulses [])) 0)
                              (seq s k)).
Proof.
  revert s. induction k as [|k IH]; intros s Hle.
  - exists []. split; reflexivity.
  - destruct (IH (S s) ltac:(lia)) as (ind & Hind & Hc).
    cbn [seq combine mapM fst snd filter]. unfold list_getitem at 1.
    destruct (nth_error mupulses s) as [pulses|] eqn:E;
      [|apply nth_error_None in E; lia].
    cbn [rbind ok]. rewrite Hind. cbn [rbind ok].
    eexists. split; [reflexivity|].
    cbn [concat]. rewrite Hc, (nth_error_nth _ _ [] E).
    destruct (Nat.eqb (length pulses) 0); reflexivity.
Qed.

Lemma kept_nonempty (mupulses : list (list Z)) (n : nat) :
  kept_mus n (map Z.of_nat (filter (fun i => Nat.eqb (length (nth i mupulses [])) 0)
                                   (seq 0 n)))
  = filter (fun i => negb (Nat.eqb (length (nth i mupulses [])) 0)) (seq 0 n).
Proof.
  unfold kept_mus. apply filter_ext_in. intros i Hi. f_equal.
  apply eq_true_iff_eq. rewrite existsb_exists. split.
  - intros (z & Hz & E). apply Z.eqb_eq in E. subst z.
    apply in_map_iff in Hz. destruct Hz as (j & Hj & Hz).
    apply Nat2Z.inj in Hj. subst j. apply filter_In in Hz. apply Hz.
  - intros He. exists (Z.of_nat i). split; [|apply Z.eqb_refl].
    apply in_map. apply filter_In. auto.
Qed.

Lemma map_nth_filter {A} (p : A -> bool) (l : list A) (d : A) :
  map (fun i => nth i l d) (filter (fun i => p (nth i l d)) (seq 0 (length l)))
  = filter p l.
Proof.
  rewrite <- (RoundTrip.filter_map_comm p (fun i => nth i l d)).
  now rewrite PackFacts.map_nth_seq_id.
Qed.

End DeleteEmpty.

(** X28: on a consistent file that is not a Delsys file,
    [delete_empty_mus] returns a consistent file whose MUs are exactly the
    MUs that fire, in their order; when none fires it returns the file
    without MUs. *)
Theorem delete_empty_mus_result (e : decomposition) :
  consistent e ->
  SOURCE e <> "DELSYS"%string ->
  exists e',
    delete_empty_mus e = inr e'
    /\ consistent e'
    /\ (NUMBER_OF_MUS (recording e') <> 0%nat ->
        MUPULSES (recording e')
        = filter (fun pulses => negb (Nat.eqb (length pulses) 0))
                 (MUPULSES (recording e))
        /\ NUMBER_OF_MUS (recording e') = length (MUPULSES (recording e')))
    /\ (NUMBER_OF_MUS (recording e') = 0%nat ->
        Forall (fun pulses => pulses = []) (MUPULSES (recording e))).
Proof.
  intros Hcons Hsrc.
  set (n := NUMBER_OF_MUS (recording e)).
  assert (Hlen : (0 + n <= length (MUPULSES (recording e)))%nat).
  { unfold consistent in Hcons. fold n in Hcons.
    destruct (Nat.eqb n 0) eqn:E0.
    - apply Nat.eqb_eq in E0. lia.
    - destruct Hcons as (-> & _). lia. }
  destruct (DeleteEmpty.empty_positions _ n 0 Hlen) as (ind & Hind & Hc).
  unfold delete_empty_mus, enumerate. rewrite length_seq. fold n.
  rewrite Hind. cbn [rbind]. rewrite Hc.
  set (empties := map Z.of_nat _).
  assert (Hnd : NoDup empties).
  { apply DeleteFacts.NoDup_map_of_nat, NoDup_filter, seq_NoDup. }
  assert (Hin : Forall (fun z => 0 <= z < Z.of_nat n) empties).
  { apply Forall_forall. intros z Hz. apply in_map_iff in Hz.
    destruct Hz as (i & <- & Hi). apply filter_In in Hi. destruct Hi as (Hi & _).
    apply in_seq in Hi. lia. }
  destruct (DeleteMore.delete_keeps e empties "remove" true Hcons Hnd Hin
              (or_introl eq_refl) (or_introl Hsrc))
    as (e' & He & Hc' & Hn & Hm & _).
  exists e'. split; [exact He|]. split; [exact Hc'|].
  pose proof (DeleteMore.NoDup_length_le _ _ Hnd Hin) as Hcount.
  unfold empties in Hcount at 1. rewrite DeleteEmpty.kept_nonempty in Hcount.
  split.
  - intros Hne. specialize (Hm Hne). split.
    + rewrite Hm. unfold empties. fold n. rewrite DeleteEmpty.kept_nonempty.
      assert (Hl : length (MUPULSES (recording e)) = n).
      { unfold consistent in Hcons. fold n in Hcons.
        destruct (Nat.eqb n 0) eqn:E0; [|apply Hcons].
        apply Nat.eqb_eq in E0. fold n in Hn. lia. }
      rewrite <- Hl.
      apply (DeleteEmpty.map_nth_filter
               (fun pulses => negb (Nat.eqb (length pulses) 0))).
    + rewrite Hm, length_map. unfold empties. fold n.
      rewrite DeleteEmpty.kept_nonempty. fold n in Hn. lia.
  - intros Hz. fold n in Hn.
    unfold consistent in Hcons. fold n in Hcons.
    destruct (Nat.eqb n 0) eqn:E0.
    + destruct Hcons as (-> & _). repeat constructor.
    + destruct Hcons as (Hl & _).
      assert (Hk : filter (fun i => negb (Nat.eqb (length (nth i (MUPULSES (recording e)) [])) 0))
                          (seq 0 n) = [])
        by (apply length_zero_iff_nil; lia).
      apply Forall_forall. intros pulses Hp.
      destruct (In_nth _ _ [] Hp) as (i & Hi & Hnth).
      assert (Hf : ~ In i (filter (fun i => negb (Nat.eqb (length (nth i (MUPULSES (recording e)) [])) 0))
                                  (seq 0 n)))
        by (rewrite Hk; intros []).
      rewrite filter_In in Hf.
      destruct pulses as [|p ps]; [reflexivity|].
      exfalso. apply Hf. split; [apply in_seq; lia|]. now rewrite Hnth.
Qed.

Lemma delete_empty_mus_result_witness :
  exists e',
    delete_empty_mus ToolExamples.three_mu_file = inr e'
    /\ consistent e'.
Proof.
  destruct (delete_empty_mus_result ToolExamples.three_mu_file)
    as (e' & He & Hc & _).
  - repeat split; reflexivity.
  - discriminate.
  - exists e'. split; assumption.
Defined.


(** ** remove_duplicates_between *)

Module DuplicatesFacts.

Lemma collect_step_In (acc x : table) (r : row) :
  In r (collect_step acc x) -> In r acc \/ In r x.
Proof.
  unfold collect_step.
  destruct acc as [|a acc], x as [|b x]; cbn [is_empty andb negb]; intros H;
    try (now left); apply in_app_or in H; tauto.
Qed.

Lemma collect_incl (res : list table) (cand : table) (r : row) :
  collect res = inr cand -> In r cand -> exists tbl, In tbl res /\ In r tbl.
Proof.
  destruct res as [|i rest]; [discriminate|].
  cbn [collect]. unfold ok. intros H. injection H as <-.
  assert (G : forall acc,
             In r (fold_left collect_step rest acc) ->
             In r acc \/ exists tbl, In tbl rest /\ In r tbl).
  { induction rest as [|x rest IH]; intros acc Hr; cbn [fold_left] in Hr; [now left|].
    destruct (IH _ Hr) as [Hacc|(tbl & Ht & Hin)].
    - apply collect_step_In in Hacc. destruct Hacc as [Hacc|Hx]; [now left|].
      right. exists x. split; [now left|exact Hx].
    - right. exists tbl. split; [now right|exact Hin]. }
  intros Hr. destruct (G i Hr) as [Hi|(tbl & Ht & Hin)].
  - exists i. split; [now left|exact Hi].
  - exists tbl. split; [now right|exact Hin].
Qed.

Section Rows.

Variable norm_twod_xcorr :
  frame -> frame -> xcorr_mode -> result (frame * sample).
Variable Parallel : forall A : Type, list (unit -> A) -> list A.
Hypothesis Parallel_ordered : ordered_pool Parallel.
Variables emgfile1 emgfile2 : emgfile.
Variable args : tracking_args.
Variables sta_emgfile1 sta_emgfile2 : sta_dict.

Lemma compare_all_in_range (tr : list event) (res : list table) :
  compare_all norm_twod_xcorr Parallel emgfile1 emgfile2 args
              sta_emgfile1 sta_emgfile2 = (tr, inr res) ->
  forall tbl r, In tbl res -> In r tbl ->
    (MU_file1 r < NUMBER_OF_MUS emgfile1)%nat
    /\ (MU_file2 r < NUMBER_OF_MUS emgfile2)%nat.
Proof.
  intros H. rewrite (compare_all_tsequence _ _ Parallel_ordered) in H.
  apply tsequence_inr in H.
  assert (G : forall mus, Forall (fun mu => (mu < NUMBER_OF_MUS emgfile1)%nat) mus ->
             forall res',
               Forall2 (fun m r => exists t, m = (t, inr r))
                       (map (parallel norm_twod_xcorr emgfile2 args
                                      sta_emgfile1 sta_emgfile2) mus) res' ->
               forall tbl r, In tbl res' -> In r tbl ->
                 (MU_file1 r < NUMBER_OF_MUS emgfile1)%nat
                 /\ (MU_file2 r < NUMBER_OF_MUS emgfile2)%nat).
  { induction mus as [|mu mus IH]; intros Hmus res' HF tbl r Ht Hr;
      inversion HF as [|m t0 ms ts (t & Hm) HF']; subst; [contradiction|].
    inversion Hmus as [|? ? Hmu Hmus']; subst.
    destruct Ht as [<-|Ht]; [|eapply IH; eauto].
    unfold parallel in Hm.
    apply (parallel_loop_rows _ _ _ _ _ _ _ _ _ Hm r) in Hr.
    destruct Hr as [[]|(mu2 & x & Hmu2 & _ & _ & ->)].
    cbn [MU_file1 MU_file2]. apply in_seq in Hmu2. split; [exact Hmu|lia]. }
  apply (G (seq 0 (NUMBER_OF_MUS emgfile1))); [|exact H].
  apply Forall_forall. intros mu Hmu. apply in_seq in Hmu. lia.
Qed.

End Rows.

(** The table [tracking] returns with the filter on and the GUI off. *)
Lemma filtered_table
  (sort_rawemg : emgfile -> sort_args -> result grid)
  (norm_twod_xcorr : frame -> frame -> xcorr_mode -> result (frame * sample))
  (Parallel : forall A : Type, list (unit -> A) -> list A)
  (gui_decision : nat -> inclusion)
  (emgfile1 emgfile2 : emgfile) (args : tracking_args)
  (tr : list event) (t : table) :
  ordered_pool Parallel ->
  filter_results args = true ->
  gui args = false ->
  tracking sort_rawemg norm_twod_xcorr Parallel gui_decision
           emgfile1 emgfile2 args = (tr, inr t) ->
  NoDup (map MU_file1 t)
  /\ NoDup (map MU_file2 t)
  /\ Forall (fun r => (MU_file1 r < NUMBER_OF_MUS emgfile1)%nat
                      /\ (MU_file2 r < NUMBER_OF_MUS emgfile2)%nat) t.
Proof.
  intros Hpool Hf Hg H. unfold tracking in H.
  apply tbind_inr in H. destruct H as (tr1 & [s1 s2] & tr' & Hs & H & _).
  unfold track_from_stas in H.
  apply tbind_inr in H. destruct H as (tr2 & res & tr3 & Hres & H & _).
  apply tbind_inr in H. destruct H as (tr4 & cand & tr5 & Hc & H & _).
  unfold tlift in Hc. injection Hc as _ Hc.
  rewrite Hf, Hg in H.
  apply tbind_inr in H. destruct H as (tr6 & t0 & tr7 & Ht0 & H & _).
  unfold tlift in Ht0. injection Ht0 as _ Ht0.
  unfold tret, ok in H. injection H as _ <-.
  destruct (FilterFacts.filter_phase_result _ _ Ht0) as (N1 & N2 & _ & _).
  split; [exact N1|]. split; [exact N2|].
  destruct (filter_phase_total cand) as (t' & Ht' & Hincl & _).
  rewrite Ht0 in Ht'. injection Ht' as <-.
  apply Forall_forall. intros r Hr. apply Hincl in Hr.
  destruct (collect_incl _ _ _ Hc Hr) as (tbl & Htbl & Hin).
  exact (compare_all_in_range _ _ Hpool _ _ _ _ _ _ _ Hres tbl r Htbl Hin).
Qed.

End DuplicatesFacts.

(** X29: how [remove_duplicates_between] fails after the tracking is done.
    With the GUI on and no pair found, the table comes back without an
    Inclusion column and the selection of the included pairs is a KeyError.
    An unknown [which] is only refused at the very end, as a ValueError,
    once the whole tracking has run. *)
Theorem remove_duplicates_late_errors
  (sort_rawemg : emgfile -> sort_args -> result grid)
  (norm_twod_xcorr : frame -> frame -> xcorr_mode -> result (frame * sample))
  (Parallel : forall A : Type, list (unit -> A) -> list A)
  (gui_decision : nat -> inclusion)
  (emgfile1 emgfile2 : decomposition) (args : tracking_args) (which : string)
  (tr : list event) (t : table) :
  tracking sort_rawemg norm_twod_xcorr Parallel gui_decision
           (recording emgfile1) (recording emgfile2) (with_exclusion args)
  = (tr, inr t) ->
  (gui args = true -> t = [] ->
   remove_duplicates_between sort_rawemg norm_twod_xcorr Parallel gui_decision
                             emgfile1 emgfile2 args which
   = (tr, inl (KeyError "Inclusion")))
  /\ (which <> "munumber"%string -> which <> "accuracy"%string ->
      gui args = false \/ t <> [] ->
      remove_duplicates_between sort_rawemg norm_twod_xcorr Parallel gui_decision
                                emgfile1 emgfile2 args which
      = (tr, inl (ValueError "which can be one of 'munumber' or 'accuracy'."))).
Proof.
  intros H. unfold remove_duplicates_between. rewrite H. split.
  - intros Hg ->. apply tbind_ret_l. rewrite Hg. reflexivity.
  - intros Hm Ha Hne. apply tbind_ret_l.
    apply String.eqb_neq in Hm, Ha.
    assert (Hclean : exists c,
               (if gui args then included_pairs t else ok t) = inr c).
    { destruct (gui args).
      - destruct Hne as [Hne|Hne]; [discriminate|].
        unfold included_pairs. destruct t; [congruence|]. eexists. reflexivity.
      - eexists. reflexivity. }
    destruct Hclean as (c & ->). cbn [tlift tbind]. rewrite Hm, Ha. reflexivity.
Qed.

Lemma remove_duplicates_late_errors_witness :
  exists tr,
    remove_duplicates_between Examples.one_column_sorter XcorrModel.norm_twod_xcorr
      Examples.in_order_pool (fun _ => Included)
      DuplicateExamples.file_A DuplicateExamples.file_B
      DuplicateExamples.filtered_args "best"
    = (tr, inl (ValueError "which can be one of 'munumber' or 'accuracy'.")).
Proof.
  destruct (tracking Examples.one_column_sorter XcorrModel.norm_twod_xcorr
              Examples.in_order_pool (fun _ => Included)
              (recording DuplicateExamples.file_A)
              (recording DuplicateExamples.file_B)
              (with_exclusion DuplicateExamples.filtered_args))
    as [tr [e|t]] eqn:E.
  - vm_compute in E. discriminate E.
  - exists tr.
    apply (proj2 (remove_duplicates_late_errors
                    Examples.one_column_sorter XcorrModel.norm_twod_xcorr
                    Examples.in_order_pool (fun _ => Included)
                    DuplicateExamples.file_A DuplicateExamples.file_B
                    DuplicateExamples.filtered_args "best" tr t E)).
    + discriminate.
    + discriminate.
    + left. reflexivity.
Defined.


(** X30: tracking and deletion put together.  With the filter on, the GUI
    off and [which="munumber"], on two consistent files that are not Delsys
    files, [remove_duplicates_between] returns whenever the tracking does:
    the file with fewer MUs (the second one on a tie) comes back as it was,
    the other one loses one MU per row of the tracking table and stays
    consistent, and the table is returned as [tracking] gave it. *)
Theorem remove_duplicates_by_munumber
  (sort_rawemg : emgfile -> sort_args -> result grid)
  (norm_twod_xcorr : frame -> frame -> xcorr_mode -> result (frame * sample))
  (Parallel : forall A : Type, list (unit -> A) -> list A)
  (gui_decision : nat -> inclusion)
  (emgfile1 emgfile2 : decomposition) (args : tracking_args)
  (tr : list event) (t : table) :
  ordered_pool Parallel ->
  filter_results args = true ->
  gui args = false ->
  consistent emgfile1 ->
  consistent emgfile2 ->
  SOURCE emgfile1 <> "DELSYS"%string ->
  SOURCE emgfile2 <> "DELSYS"%string ->
  tracking sort_rawemg norm_twod_xcorr Parallel gui_decision
           (recording emgfile1) (recording emgfile2) (with_exclusion args)
  = (tr, inr t) ->
  exists emgfile1' emgfile2',
    remove_duplicates_between sort_rawemg norm_twod_xcorr Parallel gui_decision
                              emgfile1 emgfile2 args "munumber"
    = (tr, inr (emgfile1', emgfile2', t))
    /\ consistent emgfile1'
    /\ consistent emgfile2'
    /\ if (NUMBER_OF_MUS (recording emgfile2) <=? NUMBER_OF_MUS (recording emgfile1))%nat
       then emgfile2' = emgfile2
            /\ NUMBER_OF_MUS (recording emgfile1')
               = (NUMBER_OF_MUS (recording emgfile1) - length t)%nat
       else emgfile1' = emgfile1
            /\ NUMBER_OF_MUS (recording emgfile2')
               = (NUMBER_OF_MUS (recording emgfile2) - length t)%nat.
Proof.
  intros Hpool Hf Hg Hc1 Hc2 Hs1 Hs2 H.
  destruct (DuplicatesFacts.filtered_table _ _ _ _ _ _ (with_exclusion args) _ _
              Hpool Hf Hg H)
    as (Hn1 & Hn2 & Hrange).
  unfold remove_duplicates_between. rewrite H, Hg.
  cbn [String.eqb Ascii.eqb Bool.eqb andb].
  destruct (NUMBER_OF_MUS (recording emgfile2) <=? NUMBER_OF_MUS (recording emgfile1))%nat.
  - destruct (DeleteMore.delete_keeps emgfile1
                (map (fun r => Z.of_nat (MU_file1 r)) t) "remove" true Hc1)
      as (e1' & He & Hc & Hn & _).
    + rewrite <- (map_map MU_file1 Z.of_nat).
      now apply DeleteFacts.NoDup_map_of_nat.
    + apply Forall_map. eapply Forall_impl; [|exact Hrange]. cbn. intros r Hr. lia.
    + left. reflexivity.
    + left. exact Hs1.
    + exists e1', emgfile2. split.
      * apply tbind_ret_l. cbn [tlift tbind ok]. rewrite He. reflexivity.
      * rewrite length_map in Hn. auto.
  - destruct (DeleteMore.delete_keeps emgfile2
                (map (fun r => Z.of_nat (MU_file2 r)) t) "remove" true Hc2)
      as (e2' & He & Hc & Hn & _).
    + rewrite <- (map_map MU_file2 Z.of_nat).
      now apply DeleteFacts.NoDup_map_of_nat.
    + apply Forall_map. eapply Forall_impl; [|exact Hrange]. cbn. intros r Hr. lia.
    + left. reflexivity.
    + left. exact Hs2.
    + exists emgfile1, e2'. split.
      * apply tbind_ret_l. cbn [tlift tbind ok]. rewrite He. reflexivity.
      * rewrite length_map in Hn. auto.
Qed.

Lemma remove_duplicates_by_munumber_witness :
  exists tr t emgfile1' emgfile2',
    remove_duplicates_between Examples.one_column_sorter XcorrModel.norm_twod_xcorr
      Examples.in_order_pool (fun _ => Included)
      DuplicateExamples.file_A DuplicateExamples.file_B
      DuplicateExamples.filtered_args "munumber"
    = (tr, inr (emgfile1', emgfile2', t))
    /\ consistent emgfile1'
    /\ consistent emgfile2'.
Proof.
  destruct (tracking Examples.one_column_sorter XcorrModel.norm_twod_xcorr
              Examples.in_order_pool (fun _ => Included)
              (recording DuplicateExamples.file_A)
              (recording DuplicateExamples.file_B)
              (with_exclusion DuplicateExamples.filtered_args))
    as [tr [e|t]] eqn:E.
  - vm_compute in E. discriminate E.
  - destruct (remove_duplicates_by_munumber
                Examples.one_column_sorter XcorrModel.norm_twod_xcorr
                Examples.in_order_pool (fun _ => Included)
                DuplicateExamples.file_A DuplicateExamples.file_B
                DuplicateExamples.filtered_args tr t)
      as (e1' & e2' & H1 & H2 & H3 & _).
    + intros A tasks. reflexivity.
    + reflexivity.
    + reflexivity.
    + repeat split; reflexivity.
    + repeat split; reflexivity.
    + discriminate.
    + discriminate.
    + exact E.
    + exists tr, t, e1', e2'. repeat split; assumption.
Defined.

